(** * expo-squircle: the squircle path geometry (src/core/squircleMath.ts)

    A shallow embedding of [buildSquirclePath] and of the helpers it calls:
    [composeCacheKey], [readCachedPath], [storeCachedPath],
    [normalizeCorners], [computeCornerProfile], [cornerProfileCacheKey],
    [joinCornerProfiles], the four [trace...] functions, [degToRad] and
    [formatSegment].

    Numbers.  A JavaScript number is modelled by [number]: a rational, the
    two infinities or NaN.  Arithmetic on finite values is exact (binary64
    rounding, overflow and the sign of zero are abstracted away); division
    by zero and the operations on infinities and NaN follow JavaScript.
    A statement on sums, products or quotients of finite numbers is
    therefore a statement on the algorithm in exact arithmetic, which the
    binary64 code follows up to rounding; statements that only compare,
    select ([Math.min], [Math.max]) or format numbers do not depend on this.
    [String(number)] prints the exact value with up to 17 significant
    digits, where the engine prints the shortest digits that read back as
    the same double: the two can differ in the last digits of a number
    that is not a short decimal fraction.
    [Math.sin], [Math.cos] and [Math.tan] are approximated by the host, hence
    parameters of the development; [Math.PI] and [Math.SQRT2] are the exact
    values of the two binary64 constants.

    State.  The two module-level [Map]s are modelled by insertion-ordered
    association lists threaded through the calls.

    View layer.  The helpers of src/core/params.ts ([normalizeSquircleParams],
    [normalizeSmoothFactor], [clamp], [shrinkRadius]) and the memoised
    computation of [SquircleBackdrop] in src/ExpoSquircle.tsx are embedded as
    well; a thrown error is a result of its own and a colour is the string
    that names it. *)

From Stdlib Require Import ZArith QArith Qround Qabs Lqa Lia.
From Stdlib Require Import Bool List String Ascii.
From Stdlib Require Import Permutation Sorted.
From Stdlib Require Import DecimalString DecimalN.
Import ListNotations.

Local Open Scope string_scope.
Local Open Scope Q_scope.

(** ** JavaScript numbers *)

Module JsNumber.

Inductive number : Type :=
| Fin (q : Q)
| PInf
| NInf
| NaN.

Definition zero : number := Fin 0.
Definition one : number := Fin 1.

(** Sign of a number: [Some true] positive, [Some false] negative, [None]
    for zero and NaN. *)
Definition sign (x : number) : option bool :=
  match x with
  | Fin q => match Qcompare q 0 with Gt => Some true | Lt => Some false | Eq => None end
  | PInf => Some true
  | NInf => Some false
  | NaN => None
  end.

Definition inf_of_sign (positive : bool) : number :=
  if positive then PInf else NInf.

Definition neg (x : number) : number :=
  match x with
  | Fin q => Fin (- q)
  | PInf => NInf
  | NInf => PInf
  | NaN => NaN
  end.

Definition add (x y : number) : number :=
  match x, y with
  | NaN, _ | _, NaN => NaN
  | Fin a, Fin b => Fin (a + b)
  | PInf, NInf | NInf, PInf => NaN
  | PInf, _ | _, PInf => PInf
  | NInf, _ | _, NInf => NInf
  end.

Definition sub (x y : number) : number := add x (neg y).

Definition mul (x y : number) : number :=
  match x, y with
  | Fin a, Fin b => Fin (a * b)
  | _, _ =>
      match sign x, sign y with
      | Some s, Some t => inf_of_sign (Bool.eqb s t)
      | _, _ => NaN
      end
  end.

(** [x / y]; a zero divisor is taken as +0. *)
Definition div (x y : number) : number :=
  match x, y with
  | NaN, _ | _, NaN => NaN
  | Fin a, Fin b =>
      if Qeq_bool b 0
      then match sign x with Some s => inf_of_sign s | None => NaN end
      else Fin (a / b)
  | Fin _, _ => Fin 0
  | _, Fin b =>
      match sign x, sign y with
      | Some s, Some t => inf_of_sign (Bool.eqb s t)
      | Some s, None => inf_of_sign s
      | None, _ => NaN
      end
  | _, _ => NaN
  end.

(** [x <= y]; false as soon as one side is NaN. *)
Definition leb (x y : number) : bool :=
  match x, y with
  | NaN, _ | _, NaN => false
  | Fin a, Fin b => Qle_bool a b
  | NInf, _ | _, PInf => true
  | _, _ => false
  end.

(** [x === y] on numbers. *)
Definition eqb (x y : number) : bool :=
  match x, y with
  | Fin a, Fin b => Qeq_bool a b
  | PInf, PInf | NInf, NInf => true
  | _, _ => false
  end.

Definition ltb (x y : number) : bool := leb x y && negb (eqb x y).
Definition geb (x y : number) : bool := leb y x.
Definition gtb (x y : number) : bool := ltb y x.

(** [Math.min(x, y)]. *)
Definition min (x y : number) : number :=
  match x, y with
  | NaN, _ | _, NaN => NaN
  | _, _ => if leb x y then x else y
  end.

(** Truthiness of a number in a condition: neither 0 nor NaN. *)
Definition truthy (x : number) : bool :=
  match x with
  | Fin q => negb (Qeq_bool q 0)
  | NaN => false
  | _ => true
  end.

Definition is_finite (x : number) : bool :=
  match x with Fin _ => true | _ => false end.

End JsNumber.

Import JsNumber.

Declare Scope num_scope.
Delimit Scope num_scope with num.
Bind Scope num_scope with number.
Infix "+" := add : num_scope.
Infix "-" := sub : num_scope.
Infix "*" := mul : num_scope.
Infix "/" := div : num_scope.
Notation "- x" := (neg x) : num_scope.
Infix "<=?" := leb : num_scope.
Infix ">=?" := geb : num_scope.
Infix ">?" := gtb : num_scope.
Infix "=?" := eqb : num_scope.

(** ** Number formatting: [Number.prototype.toFixed] and [String(number)] *)

Module JsFormat.

Fixpoint zeros (n : nat) : string :=
  match n with
  | O => ""
  | S k => String "0" (zeros k)
  end.

(** Decimal digits of a non-negative integer. *)
Definition digits (n : Z) : string :=
  NilZero.string_of_uint (N.to_uint (Z.to_N n)).

Definition pow10 (n : nat) : Z := Z.pow 10 (Z.of_nat n).

(** The integer [n] for which [n / 10^f - x] is closest to zero, the larger
    one on a tie ([x >= 0]). *)
Definition round_scaled (f : nat) (x : Q) : Z :=
  Qfloor (x * inject_Z (pow10 f) + (1 # 2)).

(** Places the decimal point [f] digits from the right of [m], padding with
    zeros on the left so that at least one digit precedes the point. *)
Definition place_point (f : nat) (m : string) : string :=
  match f with
  | O => m
  | _ =>
      let m' := if Nat.leb (String.length m) f
                then zeros (S f - String.length m) ++ m else m in
      let k := (String.length m' - f)%nat in
      substring 0 k m' ++ "." ++ substring k f m'
  end.

(** Number of decimal digits of a positive integer. *)
Definition ndigits (n : Z) : Z := Z.of_nat (String.length (digits n)).

(** [10^e] as a rational, for any integer exponent. *)
Definition qpow10 (e : Z) : Q :=
  match e with
  | Zneg p => 1 / inject_Z (Z.pow 10 (Zpos p))
  | _ => inject_Z (Z.pow 10 e)
  end.

(** The decimal exponent [n] of a positive rational:
    [10^(n-1) <= x < 10^n]. *)
Definition dec_exponent (x : Q) : Z :=
  let d := (ndigits (Qnum x) - ndigits (Zpos (Qden x)))%Z in
  if Qle_bool (qpow10 d) x then (d + 1)%Z else d.

Fixpoint strip_zeros_fuel (fuel : nat) (s : Z) : Z :=
  match fuel with
  | O => s
  | S k => if (0 <? s)%Z && (s mod 10 =? 0)%Z
           then strip_zeros_fuel k (s / 10)%Z else s
  end.

(** Significand and exponent of the printed form of a positive rational:
    at most 17 significant digits, trailing zeros dropped. *)
Definition significand (x : Q) : Z * Z :=
  let n := dec_exponent x in
  let s := Qfloor (x * qpow10 (17 - n) + (1 # 2)) in
  let '(s, n) := if (Z.pow 10 17 <=? s)%Z then ((s / 10)%Z, (n + 1)%Z) else (s, n) in
  (strip_zeros_fuel 17 s, n).

(** [Number::toString] of a positive finite value. *)
Definition positive_to_string (x : Q) : string :=
  let '(s, n) := significand x in
  let m := digits s in
  let k := Z.of_nat (String.length m) in
  if ((k <=? n) && (n <=? 21))%Z then
    m ++ zeros (Z.to_nat (n - k))
  else if ((0 <? n) && (n <=? 21))%Z then
    substring 0 (Z.to_nat n) m ++ "." ++
    substring (Z.to_nat n) (Z.to_nat (k - n)) m
  else if ((-6 <? n) && (n <=? 0))%Z then
    "0." ++ zeros (Z.to_nat (- n)) ++ m
  else
    let e := (n - 1)%Z in
    let es := (if (e <? 0)%Z then "-" else "+") ++ digits (Z.abs e) in
    if (k =? 1)%Z then m ++ "e" ++ es
    else substring 0 1 m ++ "." ++ substring 1 (Z.to_nat (k - 1)) m ++ "e" ++ es.

(** The string a template literal substitutes for a number.  The digits
    are those of the exact value rounded to 17 significant digits. *)
Definition toString (x : number) : string :=
  match x with
  | NaN => "NaN"
  | PInf => "Infinity"
  | NInf => "-Infinity"
  | Fin q =>
      match Qcompare q 0 with
      | Eq => "0"
      | Gt => positive_to_string q
      | Lt => "-" ++ positive_to_string (- q)
      end
  end.

(** [x.toFixed(f)]. *)
Definition toFixed (f : nat) (x : number) : string :=
  match x with
  | Fin q =>
      let s := match Qcompare q 0 with Lt => "-" | _ => "" end in
      let a := Qabs q in
      if Qle_bool (inject_Z (Z.pow 10 21)) a
      then s ++ positive_to_string a
      else s ++ place_point f (digits (round_scaled f a))
  | _ => toString x
  end.

End JsFormat.

Import JsFormat.

(** ** The JavaScript [Map]: an association list in insertion order *)

Module JsMap.
Section WithValue.
Context {V : Type}.

Definition t := list (string * V).

Definition empty : t := [].

Fixpoint get (m : t) (k : string) : option V :=
  match m with
  | [] => None
  | (k', v) :: r => if String.eqb k' k then Some v else get r k
  end.

Definition has (m : t) (k : string) : bool :=
  match get m k with Some _ => true | None => false end.

(** [set] keeps the position of a key already present and appends a new
    one. *)
Fixpoint set (m : t) (k : string) (v : V) : t :=
  match m with
  | [] => [(k, v)]
  | (k', v') :: r =>
      if String.eqb k' k then (k', v) :: r else (k', v') :: set r k v
  end.

Fixpoint delete (m : t) (k : string) : t :=
  match m with
  | [] => []
  | (k', v') :: r =>
      if String.eqb k' k then r else (k', v') :: delete r k
  end.

Definition size (m : t) : nat := List.length m.

(** [m.keys().next()]: the oldest key, if any. *)
Definition first_key (m : t) : option string :=
  match m with
  | [] => None
  | (k, _) :: _ => Some k
  end.
End WithValue.
Arguments t : clear implicits.
End JsMap.

(** ** Types (src/core/types.ts) *)

Inductive CornerId := topLeft | topRight | bottomLeft | bottomRight.

Inductive EdgeOrientation := top | bottom | left | right.

Record CornerProfile := {
  radius : number;
  roundingAndSmoothingBudget : number
}.

Record BezierPatch := {
  a : number;
  b : number;
  c : number;
  d : number;
  p : number;
  cornerRadius : number;
  arcSectionLength : number
}.

Record BezierPatchInput := {
  in_cornerRadius : number;
  in_cornerSmoothing : number;
  in_preserveSmoothing : bool;
  in_roundingAndSmoothingBudget : number
}.

(** A [Record<CornerId, T>]. *)
Record CornerRecord (T : Type) := {
  at_topLeft : T;
  at_topRight : T;
  at_bottomLeft : T;
  at_bottomRight : T
}.
Arguments at_topLeft {T}.
Arguments at_topRight {T}.
Arguments at_bottomLeft {T}.
Arguments at_bottomRight {T}.

Definition corner_get {T} (m : CornerRecord T) (k : CornerId) : T :=
  match k with
  | topLeft => at_topLeft m
  | topRight => at_topRight m
  | bottomLeft => at_bottomLeft m
  | bottomRight => at_bottomRight m
  end.

Definition corner_set {T} (m : CornerRecord T) (k : CornerId) (v : T)
  : CornerRecord T :=
  match k with
  | topLeft => {| at_topLeft := v; at_topRight := at_topRight m;
                  at_bottomLeft := at_bottomLeft m; at_bottomRight := at_bottomRight m |}
  | topRight => {| at_topLeft := at_topLeft m; at_topRight := v;
                   at_bottomLeft := at_bottomLeft m; at_bottomRight := at_bottomRight m |}
  | bottomLeft => {| at_topLeft := at_topLeft m; at_topRight := at_topRight m;
                     at_bottomLeft := v; at_bottomRight := at_bottomRight m |}
  | bottomRight => {| at_topLeft := at_topLeft m; at_topRight := at_topRight m;
                      at_bottomLeft := at_bottomLeft m; at_bottomRight := v |}
  end.

(** [Object.entries] lists the keys in the order the literal wrote them. *)
Definition corner_entries {T} (m : CornerRecord T) : list (CornerId * T) :=
  [(topLeft, at_topLeft m); (topRight, at_topRight m);
   (bottomLeft, at_bottomLeft m); (bottomRight, at_bottomRight m)].

Definition CornerProfiles := CornerRecord CornerProfile.

Record CornerSpreadInput := {
  cs_topLeftCornerRadius : number;
  cs_topRightCornerRadius : number;
  cs_bottomRightCornerRadius : number;
  cs_bottomLeftCornerRadius : number;
  cs_width : number;
  cs_height : number
}.

Record SquirclePathInput := {
  sq_cornerRadius : option number;
  sq_topLeftCornerRadius : option number;
  sq_topRightCornerRadius : option number;
  sq_bottomRightCornerRadius : option number;
  sq_bottomLeftCornerRadius : option number;
  sq_cornerSmoothing : number;
  sq_width : number;
  sq_height : number;
  sq_preserveSmoothing : option bool
}.

Record PathParamsInput := {
  pp_width : number;
  pp_height : number;
  topLeftPathParams : BezierPatch;
  topRightPathParams : BezierPatch;
  bottomLeftPathParams : BezierPatch;
  bottomRightPathParams : BezierPatch
}.

(** [x ?? y]. *)
Definition nullish {T} (x : option T) (y : T) : T :=
  match x with Some v => v | None => y end.

(** [Array.prototype.join]. *)
Definition join (sep : string) (l : list string) : string := String.concat sep l.

Definition newline : string := String (ascii_of_nat 10) "".

(** ** Geometry (src/core/squircleMath.ts) *)

Definition PATH_CACHE_LIMIT : nat := 160.

(** [Math.PI] and [Math.SQRT2]: the exact values of the binary64 constants. *)
Definition Math_PI : number := Fin (884279719003555 # 281474976710656).
Definition Math_SQRT2 : number := Fin (6369051672525773 # 4503599627370496).

(** [Math.min(...xs)]; [Infinity] for no argument. *)
Definition Math_min (xs : list number) : number := fold_left min xs PInf.

(** The two module-level caches. *)
Record Caches := {
  PATH_CACHE_MAP : JsMap.t string;
  CORNER_PROFILE_CACHE : JsMap.t BezierPatch
}.

Definition no_caches : Caches :=
  {| PATH_CACHE_MAP := JsMap.empty; CORNER_PROFILE_CACHE := JsMap.empty |}.

Definition num (z : Z) : number := Fin (inject_Z z).

Definition composeCacheKey
  (width height cornerSmoothing : number) (preserveSmoothing : bool)
  (cornerRadius topLeftCornerRadius topRightCornerRadius
   bottomRightCornerRadius bottomLeftCornerRadius : number) : string :=
  join "|" [
    toFixed 2 width;
    toFixed 2 height;
    toFixed 4 cornerSmoothing;
    if preserveSmoothing then "1" else "0";
    toFixed 2 cornerRadius;
    toFixed 2 topLeftCornerRadius;
    toFixed 2 topRightCornerRadius;
    toFixed 2 bottomRightCornerRadius;
    toFixed 2 bottomLeftCornerRadius
  ].

Definition readCachedPath (cache : JsMap.t string) (key : string) : option string :=
  JsMap.get cache key.

Definition storeCachedPath (cache : JsMap.t string) (key value : string)
  : JsMap.t string :=
  let cache :=
    if Nat.leb PATH_CACHE_LIMIT (JsMap.size cache) && negb (JsMap.has cache key)
    then match JsMap.first_key cache with
         | Some oldest => JsMap.delete cache oldest
         | None => cache
         end
    else cache in
  JsMap.set cache key value.

Record Adjacent := { adj_corner : CornerId; adj_side : EdgeOrientation }.

Definition ADJACENT_RELATIONS (corner : CornerId) : list Adjacent :=
  match corner with
  | topLeft =>
      [ {| adj_corner := topRight; adj_side := top |};
        {| adj_corner := bottomLeft; adj_side := left |} ]
  | topRight =>
      [ {| adj_corner := topLeft; adj_side := top |};
        {| adj_corner := bottomRight; adj_side := right |} ]
  | bottomLeft =>
      [ {| adj_corner := bottomRight; adj_side := bottom |};
        {| adj_corner := topLeft; adj_side := left |} ]
  | bottomRight =>
      [ {| adj_corner := bottomLeft; adj_side := bottom |};
        {| adj_corner := topRight; adj_side := right |} ]
  end.

(** [entries.sort(([, r1], [, r2]) => r2 - r1)]: the sort is stable, so an
    entry moves behind exactly those entries the comparator ranks first. *)
Fixpoint sort_insert (x : CornerId * number) (l : list (CornerId * number))
  : list (CornerId * number) :=
  match l with
  | [] => [x]
  | y :: r =>
      if ((snd y - snd x)%num >? zero)%num then y :: sort_insert x r
      else x :: l
  end.

Definition sort_by_radius (l : list (CornerId * number)) : list (CornerId * number) :=
  fold_right sort_insert [] l.

Definition sideLength_of (side : EdgeOrientation) (width height : number) : number :=
  match side with
  | top | bottom => width
  | left | right => height
  end.

(** The callback of [adjacents.map]: what one adjacent edge allows. *)
Definition adjacentTerm (width height : number)
  (radiusMap budgetMap : CornerRecord number) (radius : number)
  (adjacent : Adjacent) : number :=
  let adjacentRadius := corner_get radiusMap (adj_corner adjacent) in
  if (radius =? zero)%num && (adjacentRadius =? zero)%num then zero
  else
    let adjacentBudget := corner_get budgetMap (adj_corner adjacent) in
    let sideLength := sideLength_of (adj_side adjacent) width height in
    if (adjacentBudget >=? zero)%num then (sideLength - adjacentBudget)%num
    else ((radius / (radius + adjacentRadius)) * sideLength)%num.

(** The callback of [forEach]: resolves one corner. *)
Definition resolveCorner (width height : number)
  (maps : CornerRecord number * CornerRecord number)
  (entry : CornerId * number) : CornerRecord number * CornerRecord number :=
  let '(radiusMap, budgetMap) := maps in
  let '(corner, radius) := entry in
  let adjacents := ADJACENT_RELATIONS corner in
  let budget :=
    Math_min (map (adjacentTerm width height radiusMap budgetMap radius) adjacents) in
  (corner_set radiusMap corner (min radius budget),
   corner_set budgetMap corner budget).

Definition normalizeCorners (i : CornerSpreadInput) : CornerProfiles :=
  let radiusMap := {|
    at_topLeft := cs_topLeftCornerRadius i;
    at_topRight := cs_topRightCornerRadius i;
    at_bottomLeft := cs_bottomLeftCornerRadius i;
    at_bottomRight := cs_bottomRightCornerRadius i |} in
  let budgetMap := {|
    at_topLeft := num (-1);
    at_topRight := num (-1);
    at_bottomLeft := num (-1);
    at_bottomRight := num (-1) |} in
  let '(radiusMap, budgetMap) :=
    fold_left (resolveCorner (cs_width i) (cs_height i))
      (sort_by_radius (corner_entries radiusMap)) (radiusMap, budgetMap) in
  {| at_topLeft := {| radius := at_topLeft radiusMap;
                      roundingAndSmoothingBudget := at_topLeft budgetMap |};
     at_topRight := {| radius := at_topRight radiusMap;
                       roundingAndSmoothingBudget := at_topRight budgetMap |};
     at_bottomLeft := {| radius := at_bottomLeft radiusMap;
                         roundingAndSmoothingBudget := at_bottomLeft budgetMap |};
     at_bottomRight := {| radius := at_bottomRight radiusMap;
                          roundingAndSmoothingBudget := at_bottomRight budgetMap |} |}.

Definition cornerProfileCacheKey (i : BezierPatchInput) : string :=
  join "|" [
    toFixed 3 (in_cornerRadius i);
    toFixed 4 (in_cornerSmoothing i);
    if in_preserveSmoothing i then "1" else "0";
    toFixed 3 (in_roundingAndSmoothingBudget i)
  ].

Definition zeroProfile : BezierPatch :=
  {| a := zero; b := zero; c := zero; d := zero; p := zero;
     cornerRadius := zero; arcSectionLength := zero |}.

(** [formatSegment]: the reduce over the template's literal parts. *)
Definition formatSegment (strings : list string) (values : list number) : string :=
  fst (fold_left
         (fun (st : string * nat) (str : string) =>
            let '(acc, index) := st in
            match nth_error values index with
            | Some value => (acc ++ str ++ toFixed 4 value, S index)
            | None => (acc ++ str, S index)
            end)
         strings ("", O)).

Definition traceTopRight (k : BezierPatch) : string :=
  let '(a, b, c, d, p) := (a k, b k, c k, d k, p k) in
  if truthy (cornerRadius k) then
    formatSegment
      [newline ++ "    c "; " 0 "; " 0 "; " ";
       newline ++ "    a "; " "; " 0 0 1 "; " ";
       newline ++ "    c "; " ";
       newline ++ "        "; " ";
       newline ++ "        "; " "; ""]
      [a; a + b; a + b + c; d;
       cornerRadius k; cornerRadius k; arcSectionLength k; arcSectionLength k;
       d; c;
       d; b + c;
       d; a + b + c]%num
  else formatSegment ["l "; " 0"] [p].

Definition traceBottomRight (k : BezierPatch) : string :=
  let '(a, b, c, d, p) := (a k, b k, c k, d k, p k) in
  if truthy (cornerRadius k) then
    formatSegment
      [newline ++ "    c 0 ";
       newline ++ "      0 ";
       newline ++ "      "; " ";
       newline ++ "    a "; " "; " 0 0 1 -"; " ";
       newline ++ "    c "; " ";
       newline ++ "      "; " ";
       newline ++ "      "; " "; ""]
      [a;
       a + b;
       - d; a + b + c;
       cornerRadius k; cornerRadius k; arcSectionLength k; arcSectionLength k;
       - c; d;
       - (b + c); d;
       - (a + b + c); d]%num
  else formatSegment ["l 0 "; ""] [p].

Definition traceBottomLeft (k : BezierPatch) : string :=
  let '(a, b, c, d, p) := (a k, b k, c k, d k, p k) in
  if truthy (cornerRadius k) then
    formatSegment
      [newline ++ "    c "; " 0" ++ newline ++ "      ";
       " 0" ++ newline ++ "      "; " ";
       newline ++ "    a "; " "; " 0 0 1 -"; " -";
       newline ++ "    c "; " ";
       newline ++ "      "; " ";
       newline ++ "      "; " "; ""]
      [- a; - (a + b);
       - (a + b + c); - d;
       cornerRadius k; cornerRadius k; arcSectionLength k; arcSectionLength k;
       - d; - c;
       - d; - (b + c);
       - d; - (a + b + c)]%num
  else formatSegment ["l "; " 0"] [(- p)%num].

Definition traceTopLeft (k : BezierPatch) : string :=
  let '(a, b, c, d, p) := (a k, b k, c k, d k, p k) in
  if truthy (cornerRadius k) then
    formatSegment
      [newline ++ "    c 0 ";
       newline ++ "      0 ";
       newline ++ "      "; " ";
       newline ++ "    a "; " "; " 0 0 1 "; " -";
       newline ++ "    c "; " ";
       newline ++ "      "; " ";
       newline ++ "      "; " "; ""]
      [- a;
       - (a + b);
       d; - (a + b + c);
       cornerRadius k; cornerRadius k; arcSectionLength k; arcSectionLength k;
       c; - d;
       b + c; - d;
       a + b + c; - d]%num
  else formatSegment ["l 0 "; ""] [(- p)%num].

Definition joinCornerProfiles (i : PathParamsInput) : string :=
  let width := pp_width i in
  let height := pp_height i in
  let segments := [
    "M " ++ toString (width - p (topRightPathParams i))%num ++ " 0";
    traceTopRight (topRightPathParams i);
    "L " ++ toString width ++ " " ++ toString (height - p (bottomRightPathParams i))%num;
    traceBottomRight (bottomRightPathParams i);
    "L " ++ toString (p (bottomLeftPathParams i)) ++ " " ++ toString height;
    traceBottomLeft (bottomLeftPathParams i);
    "L 0 " ++ toString (p (topLeftPathParams i));
    traceTopLeft (topLeftPathParams i);
    "Z"
  ] in
  join " " segments.

Section Geometry.

(** [Math.sin], [Math.cos] and [Math.tan] on finite arguments. *)
Variables sinQ cosQ tanQ : Q -> Q.

Definition Math_sin (x : number) : number :=
  match x with Fin q => Fin (sinQ q) | _ => NaN end.
Definition Math_cos (x : number) : number :=
  match x with Fin q => Fin (cosQ q) | _ => NaN end.
Definition Math_tan (x : number) : number :=
  match x with Fin q => Fin (tanQ q) | _ => NaN end.

Definition degToRad (degrees : number) : number :=
  ((degrees * Math_PI) / num 180)%num.

(** [cornerSmoothing] once the block under [!preserveSmoothing] has run. *)
Definition fittedSmoothing (i : BezierPatchInput) : number :=
  let cornerSmoothing := in_cornerSmoothing i in
  if negb (in_preserveSmoothing i) then
    let maxSmoothing :=
      (in_roundingAndSmoothingBudget i / in_cornerRadius i - one)%num in
    min cornerSmoothing maxSmoothing
  else cornerSmoothing.

(** [p] once the block under [!preserveSmoothing] has run. *)
Definition fittedFootprint (i : BezierPatchInput) : number :=
  let p := ((one + in_cornerSmoothing i) * in_cornerRadius i)%num in
  if negb (in_preserveSmoothing i) then
    min p (in_roundingAndSmoothingBudget i)
  else p.

Definition arcMeasure (i : BezierPatchInput) : number :=
  (num 90 * (one - fittedSmoothing i))%num.

(** The body of [computeCornerProfile] below the cache lookup. *)
Definition cornerGeometry (i : BezierPatchInput) : BezierPatch :=
  let cornerRadius := in_cornerRadius i in
  let roundingAndSmoothingBudget := in_roundingAndSmoothingBudget i in
  let preserveSmoothing := in_preserveSmoothing i in
  if (cornerRadius <=? zero)%num || (roundingAndSmoothingBudget <=? zero)%num
  then zeroProfile
  else
    let p := fittedFootprint i in
    let cornerSmoothing := fittedSmoothing i in
    let arcMeasure := arcMeasure i in
    let arcSectionLength :=
      (Math_sin (degToRad (arcMeasure / num 2)) * cornerRadius * Math_SQRT2)%num in
    let angleAlpha := ((num 90 - arcMeasure) / num 2)%num in
    let p3ToP4Distance :=
      (cornerRadius * Math_tan (degToRad (angleAlpha / num 2)))%num in
    let angleBeta := (num 45 * cornerSmoothing)%num in
    let c := (p3ToP4Distance * Math_cos (degToRad angleBeta))%num in
    let d := (c * Math_tan (degToRad angleBeta))%num in
    let b := ((p - arcSectionLength - c - d) / num 3)%num in
    let a := (num 2 * b)%num in
    let '(a, b, p) :=
      if preserveSmoothing && (p >? roundingAndSmoothingBudget)%num then
        let p1ToP3MaxDistance :=
          (roundingAndSmoothingBudget - d - arcSectionLength - c)%num in
        let minA := (p1ToP3MaxDistance / num 6)%num in
        let maxB := (p1ToP3MaxDistance - minA)%num in
        let b := min b maxB in
        let a := (p1ToP3MaxDistance - b)%num in
        let p := min p roundingAndSmoothingBudget in
        (a, b, p)
      else (a, b, p) in
    {| a := a; b := b; c := c; d := d; p := p;
       cornerRadius := cornerRadius;
       arcSectionLength := arcSectionLength |}.

Definition computeCornerProfile (cache : JsMap.t BezierPatch)
  (i : BezierPatchInput) : BezierPatch * JsMap.t BezierPatch :=
  let cacheKey := cornerProfileCacheKey i in
  match JsMap.get cache cacheKey with
  | Some cached => (cached, cache)
  | None =>
      let profile := cornerGeometry i in
      (profile, JsMap.set cache cacheKey profile)
  end.

(** [if (cached)] on a [string | undefined]. *)
Definition cached_hit (cached : option string) : option string :=
  match cached with
  | Some s => if String.eqb s "" then None else Some s
  | None => None
  end.

Definition rectanglePath (width height : number) : string :=
  "M " ++ toString width ++ " 0 L " ++ toString width ++ " " ++
  toString height ++ " L 0 " ++ toString height ++ " L 0 0 Z".

Definition buildSquirclePath (st : Caches) (i : SquirclePathInput)
  : string * Caches :=
  let cornerRadius := nullish (sq_cornerRadius i) zero in
  let cornerSmoothing := sq_cornerSmoothing i in
  let width := sq_width i in
  let height := sq_height i in
  let preserveSmoothing := nullish (sq_preserveSmoothing i) false in
  let topLeftCornerRadius := nullish (sq_topLeftCornerRadius i) cornerRadius in
  let topRightCornerRadius := nullish (sq_topRightCornerRadius i) cornerRadius in
  let bottomLeftCornerRadius := nullish (sq_bottomLeftCornerRadius i) cornerRadius in
  let bottomRightCornerRadius := nullish (sq_bottomRightCornerRadius i) cornerRadius in
  let cacheKey :=
    composeCacheKey width height cornerSmoothing preserveSmoothing cornerRadius
      topLeftCornerRadius topRightCornerRadius
      bottomRightCornerRadius bottomLeftCornerRadius in
  match cached_hit (readCachedPath (PATH_CACHE_MAP st) cacheKey) with
  | Some cached => (cached, st)
  | None =>
      if (topLeftCornerRadius =? topRightCornerRadius)%num &&
         (topRightCornerRadius =? bottomRightCornerRadius)%num &&
         (bottomRightCornerRadius =? bottomLeftCornerRadius)%num &&
         (bottomLeftCornerRadius =? topLeftCornerRadius)%num
      then
        if (topLeftCornerRadius =? zero)%num then
          let rectanglePath := rectanglePath width height in
          (rectanglePath,
           {| PATH_CACHE_MAP := storeCachedPath (PATH_CACHE_MAP st) cacheKey rectanglePath;
              CORNER_PROFILE_CACHE := CORNER_PROFILE_CACHE st |})
        else
          let budget := (min width height / num 2)%num in
          let radius := min topLeftCornerRadius budget in
          let '(pathParams, profiles) :=
            computeCornerProfile (CORNER_PROFILE_CACHE st)
              {| in_cornerRadius := radius;
                 in_cornerSmoothing := cornerSmoothing;
                 in_preserveSmoothing := preserveSmoothing;
                 in_roundingAndSmoothingBudget := budget |} in
          let path := joinCornerProfiles
            {| pp_width := width; pp_height := height;
               topLeftPathParams := pathParams;
               topRightPathParams := pathParams;
               bottomLeftPathParams := pathParams;
               bottomRightPathParams := pathParams |} in
          (path,
           {| PATH_CACHE_MAP := storeCachedPath (PATH_CACHE_MAP st) cacheKey path;
              CORNER_PROFILE_CACHE := profiles |})
      else
        let corners := normalizeCorners
          {| cs_topLeftCornerRadius := topLeftCornerRadius;
             cs_topRightCornerRadius := topRightCornerRadius;
             cs_bottomRightCornerRadius := bottomRightCornerRadius;
             cs_bottomLeftCornerRadius := bottomLeftCornerRadius;
             cs_width := width; cs_height := height |} in
        let patchInput (k : CornerProfile) :=
          {| in_cornerRadius := radius k;
             in_cornerSmoothing := cornerSmoothing;
             in_preserveSmoothing := preserveSmoothing;
             in_roundingAndSmoothingBudget := roundingAndSmoothingBudget k |} in
        let '(topLeftPathParams, profiles) :=
          computeCornerProfile (CORNER_PROFILE_CACHE st)
            (patchInput (at_topLeft corners)) in
        let '(topRightPathParams, profiles) :=
          computeCornerProfile profiles (patchInput (at_topRight corners)) in
        let '(bottomRightPathParams, profiles) :=
          computeCornerProfile profiles (patchInput (at_bottomRight corners)) in
        let '(bottomLeftPathParams, profiles) :=
          computeCornerProfile profiles (patchInput (at_bottomLeft corners)) in
        let path := joinCornerProfiles
          {| pp_width := width; pp_height := height;
             topLeftPathParams := topLeftPathParams;
             topRightPathParams := topRightPathParams;
             bottomLeftPathParams := bottomLeftPathParams;
             bottomRightPathParams := bottomRightPathParams |} in
        (path,
         {| PATH_CACHE_MAP := storeCachedPath (PATH_CACHE_MAP st) cacheKey path;
            CORNER_PROFILE_CACHE := profiles |})
  end.


(** *** The request as [buildSquirclePath] resolves it *)

Definition resolvedBase (i : SquirclePathInput) : number :=
  nullish (sq_cornerRadius i) zero.
Definition resolvedPreserve (i : SquirclePathInput) : bool :=
  nullish (sq_preserveSmoothing i) false.
Definition resolvedTopLeft (i : SquirclePathInput) : number :=
  nullish (sq_topLeftCornerRadius i) (resolvedBase i).
Definition resolvedTopRight (i : SquirclePathInput) : number :=
  nullish (sq_topRightCornerRadius i) (resolvedBase i).
Definition resolvedBottomLeft (i : SquirclePathInput) : number :=
  nullish (sq_bottomLeftCornerRadius i) (resolvedBase i).
Definition resolvedBottomRight (i : SquirclePathInput) : number :=
  nullish (sq_bottomRightCornerRadius i) (resolvedBase i).

(** The key under which [buildSquirclePath] looks the request up. *)
Definition requestCacheKey (i : SquirclePathInput) : string :=
  composeCacheKey (sq_width i) (sq_height i) (sq_cornerSmoothing i)
    (resolvedPreserve i) (resolvedBase i)
    (resolvedTopLeft i) (resolvedTopRight i)
    (resolvedBottomRight i) (resolvedBottomLeft i).

Definition allRadiiEqual (i : SquirclePathInput) : bool :=
  (resolvedTopLeft i =? resolvedTopRight i)%num &&
  (resolvedTopRight i =? resolvedBottomRight i)%num &&
  (resolvedBottomRight i =? resolvedBottomLeft i)%num &&
  (resolvedBottomLeft i =? resolvedTopLeft i)%num.

Definition symmetricBudget (i : SquirclePathInput) : number :=
  (min (sq_width i) (sq_height i) / num 2)%num.

Definition patchInput (i : SquirclePathInput) (k : CornerProfile)
  : BezierPatchInput :=
  {| in_cornerRadius := radius k;
     in_cornerSmoothing := sq_cornerSmoothing i;
     in_preserveSmoothing := resolvedPreserve i;
     in_roundingAndSmoothingBudget := roundingAndSmoothingBudget k |}.

Definition symmetricInput (i : SquirclePathInput) : BezierPatchInput :=
  patchInput i
    {| radius := min (resolvedTopLeft i) (symmetricBudget i);
       roundingAndSmoothingBudget := symmetricBudget i |}.

Definition normalizedCorners (i : SquirclePathInput) : CornerProfiles :=
  normalizeCorners
    {| cs_topLeftCornerRadius := resolvedTopLeft i;
       cs_topRightCornerRadius := resolvedTopRight i;
       cs_bottomRightCornerRadius := resolvedBottomRight i;
       cs_bottomLeftCornerRadius := resolvedBottomLeft i;
       cs_width := sq_width i; cs_height := sq_height i |}.

(** The corner patches handed to [joinCornerProfiles] on a path-cache
    miss, with [compute] standing for the patch computation and [cache]
    for its state; [None] for the plain rectangle. *)
Definition patchesWith {C : Type}
  (compute : C -> BezierPatchInput -> BezierPatch * C)
  (cache : C) (i : SquirclePathInput) : option PathParamsInput * C :=
  if allRadiiEqual i then
    if (resolvedTopLeft i =? zero)%num then (None, cache)
    else
      let '(pathParams, cache) := compute cache (symmetricInput i) in
      (Some {| pp_width := sq_width i; pp_height := sq_height i;
               topLeftPathParams := pathParams;
               topRightPathParams := pathParams;
               bottomLeftPathParams := pathParams;
               bottomRightPathParams := pathParams |}, cache)
  else
    let corners := normalizedCorners i in
    let '(tl, cache) := compute cache (patchInput i (at_topLeft corners)) in
    let '(tr, cache) := compute cache (patchInput i (at_topRight corners)) in
    let '(br, cache) := compute cache (patchInput i (at_bottomRight corners)) in
    let '(bl, cache) := compute cache (patchInput i (at_bottomLeft corners)) in
    (Some {| pp_width := sq_width i; pp_height := sq_height i;
             topLeftPathParams := tl;
             topRightPathParams := tr;
             bottomLeftPathParams := bl;
             bottomRightPathParams := br |}, cache).

(** The patches [buildSquirclePath] assembles when the path cache
    misses. *)
Definition assembledPatches (st : Caches) (i : SquirclePathInput)
  : option PathParamsInput :=
  fst (patchesWith computeCornerProfile (CORNER_PROFILE_CACHE st) i).

(** The patch computation with the corner-profile cache bypassed. *)
Definition bypassProfile (_ : unit) (i : BezierPatchInput) : BezierPatch * unit :=
  (cornerGeometry i, tt).

Definition bypassedPatches (i : SquirclePathInput) : option PathParamsInput :=
  fst (patchesWith bypassProfile tt i).

(** The geometry pipeline with both caches bypassed: the equal-radii fast
    path or [normalizeCorners], then the patch computation, then
    [joinCornerProfiles]. *)
Definition bypassedPath (i : SquirclePathInput) : string :=
  match bypassedPatches i with
  | None => rectanglePath (sq_width i) (sq_height i)
  | Some patches => joinCornerProfiles patches
  end.

(** The patch computations a call makes on a path-cache miss, in order. *)
Definition patchQueries (i : SquirclePathInput) : list BezierPatchInput :=
  if allRadiiEqual i then
    if (resolvedTopLeft i =? zero)%num then [] else [symmetricInput i]
  else
    let corners := normalizedCorners i in
    map (patchInput i)
      [at_topLeft corners; at_topRight corners;
       at_bottomRight corners; at_bottomLeft corners].

(** Every lookup of the listed computations, made in order, either misses
    or finds exactly the patch the computation yields for that input. *)
Fixpoint lookups_exact (cache : JsMap.t BezierPatch)
  (queries : list BezierPatchInput) : Prop :=
  match queries with
  | [] => True
  | q :: rest =>
      match JsMap.get cache (cornerProfileCacheKey q) with
      | Some cached => cached = cornerGeometry q
      | None => True
      end /\
      lookups_exact (snd (computeCornerProfile cache q)) rest
  end.

(** A sequence of calls made one after the other on the same caches;
    the strings returned, in order. *)
Fixpoint replay (st : Caches) (calls : list SquirclePathInput) : list string :=
  match calls with
  | [] => []
  | i :: rest =>
      let '(path, st') := buildSquirclePath st i in
      path :: replay st' rest
  end.

End Geometry.

(** ** A sample host: polynomial trigonometric functions

    Used to run the model on concrete inputs. *)

Module Host.

Definition snap (x : Q) : Q :=
  Qred (Qfloor (x * inject_Z (10 ^ 15) + (1 # 2)) # 10 ^ 15).

Definition sinQ (x : Q) : Q :=
  let x := Qred x in
  let x2 := Qred (x * x) in
  snap (x * (1 - x2 / 6 * (1 - x2 / 20 * (1 - x2 / 42 * (1 - x2 / 72 * (1 - x2 / 110)))))).

Definition cosQ (x : Q) : Q :=
  let x2 := Qred (x * x) in
  snap (1 - x2 / 2 * (1 - x2 / 12 * (1 - x2 / 30 * (1 - x2 / 56 * (1 - x2 / 90 * (1 - x2 / 132)))))).

Definition tanQ (x : Q) : Q := snap (sinQ x / cosQ x).

Definition build := buildSquirclePath sinQ cosQ tanQ.
Definition profile := computeCornerProfile sinQ cosQ tanQ.
Definition geometry := cornerGeometry sinQ cosQ tanQ.

Definition run := replay sinQ cosQ tanQ.

End Host.

(** A fully specified request. *)
Definition request (width height smoothing : Q) (preserve : bool)
  (base tl tr br bl : Q) : SquirclePathInput :=
  {| sq_cornerRadius := Some (Fin base);
     sq_topLeftCornerRadius := Some (Fin tl);
     sq_topRightCornerRadius := Some (Fin tr);
     sq_bottomRightCornerRadius := Some (Fin br);
     sq_bottomLeftCornerRadius := Some (Fin bl);
     sq_cornerSmoothing := Fin smoothing;
     sq_width := Fin width;
     sq_height := Fin height;
     sq_preserveSmoothing := Some preserve |}.

(** ** Requests within the preconditions *)

Definition nonnegb (x : number) : bool :=
  match x with Fin q => Qle_bool 0 q | _ => false end.

Definition unitb (x : number) : bool :=
  match x with Fin q => Qle_bool 0 q && Qle_bool q 1 | _ => false end.

Definition opt_nonnegb (o : option number) : bool :=
  match o with Some x => nonnegb x | None => true end.

(** Finite width and height [>= 0], finite radii [>= 0] where given, and a
    smoothing factor in [[0, 1]]. *)
Definition valid_input (i : SquirclePathInput) : bool :=
  nonnegb (sq_width i) && nonnegb (sq_height i) &&
  unitb (sq_cornerSmoothing i) &&
  opt_nonnegb (sq_cornerRadius i) &&
  opt_nonnegb (sq_topLeftCornerRadius i) &&
  opt_nonnegb (sq_topRightCornerRadius i) &&
  opt_nonnegb (sq_bottomRightCornerRadius i) &&
  opt_nonnegb (sq_bottomLeftCornerRadius i).

(** ** Reading a path string *)

Definition is_space (ch : ascii) : bool :=
  Ascii.eqb ch " " || Ascii.eqb ch (ascii_of_nat 10).

(** The maximal runs of non-blank characters of a string, in order; [acc]
    is the run being read. *)
Fixpoint tokens_from (acc : string) (s : string) : list string :=
  match s with
  | EmptyString => match acc with EmptyString => [] | _ => [acc] end
  | String ch rest =>
      if is_space ch then
        match acc with
        | EmptyString => tokens_from "" rest
        | _ => acc :: tokens_from "" rest
        end
      else tokens_from (acc ++ String ch "") rest
  end.

Definition tokens (s : string) : list string := tokens_from "" s.

Definition is_digit (ch : ascii) : bool :=
  let n := nat_of_ascii ch in Nat.leb 48 n && Nat.leb n 57.

Fixpoint all_chars (f : ascii -> bool) (s : string) : bool :=
  match s with
  | EmptyString => true
  | String ch rest => f ch && all_chars f rest
  end.

(** A numeral with exactly four digits behind its decimal point. *)
Fixpoint four_decimals (s : string) : bool :=
  match s with
  | EmptyString => false
  | String ch rest =>
      if Ascii.eqb ch "." then
        Nat.eqb (String.length rest) 4 && all_chars is_digit rest
      else (is_digit ch || Ascii.eqb ch "-") && four_decimals rest
  end.

(** The tokens of a path that are not numbers: command letters. *)
Definition is_command (tok : string) : bool :=
  existsb (String.eqb tok) ["M"; "L"; "Z"; "c"; "a"; "l"].

Fixpoint starts_with (needle s : string) : bool :=
  match needle, s with
  | EmptyString, _ => true
  | String x needle', String y s' => Ascii.eqb y x && starts_with needle' s'
  | _, _ => false
  end.

(** [contains needle s]: [needle] occurs in [s]. *)
Fixpoint contains (needle s : string) : bool :=
  starts_with needle s ||
  match s with
  | EmptyString => false
  | String _ rest => contains needle rest
  end.

(** No character of the string is the letter N. *)
Definition no_N (s : string) : bool :=
  all_chars (fun ch => negb (Ascii.eqb ch "N")) s.

Definition finite_patch (k : BezierPatch) : bool :=
  is_finite (a k) && is_finite (b k) && is_finite (c k) && is_finite (d k) &&
  is_finite (p k) && is_finite (cornerRadius k) && is_finite (arcSectionLength k).

(** ** The view layer: src/core/params.ts and the backdrop of ExpoSquircle.tsx *)

(** [Math.max(x, y)]. *)
Definition Math_max (x y : number) : number :=
  match x, y with
  | NaN, _ | _, NaN => NaN
  | _, _ => if leb x y then y else x
  end.

Definition isNaN (x : number) : bool :=
  match x with NaN => true | _ => false end.

(** The two errors of params.ts, named after their message constants. *)
Inductive ParamError := SQUIRCLE_PARAM_ERROR | INVALID_SMOOTH_FACTOR_ERROR.

(** A call that returns or throws. *)
Inductive outcome (T : Type) : Type :=
| Returned (value : T)
| Thrown (error : ParamError).
Arguments Returned {T}.
Arguments Thrown {T}.

Definition clamp (value lo hi : number) : number :=
  min hi (Math_max lo value).

Definition normalizeSmoothFactor (value : option number) : outcome number :=
  match value with
  | Some v =>
      if is_finite v then Returned (clamp v zero one)
      else Thrown INVALID_SMOOTH_FACTOR_ERROR
  | None => Thrown INVALID_SMOOTH_FACTOR_ERROR
  end.

Definition sanitizeRadius (value : option number) : option number :=
  match value with
  | Some v => if isNaN v then None else Some (Math_max zero v)
  | None => None
  end.

Definition shrinkRadius (radius : option number) (insetAmount : number)
  : option number :=
  match radius with
  | Some r => Some (Math_max zero (r - insetAmount)%num)
  | None => None
  end.

(** The props object, every field optional as the code reads it. *)
Record RoundedSurfaceOptions := {
  rs_baseRadius : option number;
  rs_topLeftRadius : option number;
  rs_topRightRadius : option number;
  rs_bottomRightRadius : option number;
  rs_bottomLeftRadius : option number;
  rs_smoothFactor : option number;
  rs_surfaceColor : option string;
  rs_borderColor : option string;
  rs_borderWidth : option number
}.

Record NormalizedRoundedSurfaceOptions := {
  baseRadius : number;
  topLeftRadius : option number;
  topRightRadius : option number;
  bottomRightRadius : option number;
  bottomLeftRadius : option number;
  smoothFactor : number;
  surfaceColor : string;
  borderColor : string;
  borderWidth : number
}.

Definition normalizeSquircleParams (params : option RoundedSurfaceOptions)
  : outcome NormalizedRoundedSurfaceOptions :=
  match params with
  | None => Thrown SQUIRCLE_PARAM_ERROR
  | Some params =>
      let baseRadius := nullish (sanitizeRadius (rs_baseRadius params)) zero in
      let borderWidth := nullish (sanitizeRadius (rs_borderWidth params)) zero in
      match normalizeSmoothFactor (rs_smoothFactor params) with
      | Thrown e => Thrown e
      | Returned smoothFactor =>
          Returned
            {| baseRadius := baseRadius;
               topLeftRadius := sanitizeRadius (rs_topLeftRadius params);
               topRightRadius := sanitizeRadius (rs_topRightRadius params);
               bottomRightRadius := sanitizeRadius (rs_bottomRightRadius params);
               bottomLeftRadius := sanitizeRadius (rs_bottomLeftRadius params);
               smoothFactor := smoothFactor;
               surfaceColor := nullish (rs_surfaceColor params) "#000";
               borderColor := nullish (rs_borderColor params) "#000";
               borderWidth := borderWidth |}
      end
  end.

Record MeasuredFrame := { frame_width : number; frame_height : number }.

Record BackdropGeometry := {
  bg_path : option string;
  insetAmount : number;
  renderedStrokeWidth : number
}.

(** The positive numbers of a list of optional numbers. *)
Definition positiveNumbers (values : list (option number)) : list number :=
  flat_map (fun value =>
              match value with
              | Some v => if (v >? zero)%num then [v] else []
              | None => []
              end) values.

Section Backdrop.

Variables sinQ cosQ tanQ : Q -> Q.

(** The request of [basePath]. *)
Definition baseRequest (layoutWidth layoutHeight : number)
  (params : NormalizedRoundedSurfaceOptions) : SquirclePathInput :=
  {| sq_cornerRadius := Some (baseRadius params);
     sq_topLeftCornerRadius := topLeftRadius params;
     sq_topRightCornerRadius := topRightRadius params;
     sq_bottomRightCornerRadius := bottomRightRadius params;
     sq_bottomLeftCornerRadius := bottomLeftRadius params;
     sq_cornerSmoothing := smoothFactor params;
     sq_width := layoutWidth;
     sq_height := layoutHeight;
     sq_preserveSmoothing := None |}.

(** The stroke width the backdrop renders. *)
Definition clampedStrokeWidth (params : NormalizedRoundedSurfaceOptions) : number :=
  let normalizedStrokeWidth := Math_max zero (borderWidth params) in
  let cornerRadii :=
    positiveNumbers
      [Some (baseRadius params); topLeftRadius params; topRightRadius params;
       bottomLeftRadius params; bottomRightRadius params] in
  let maxStrokeWidth :=
    match cornerRadii with
    | [] => normalizedStrokeWidth
    | _ => Math_min cornerRadii
    end in
  min normalizedStrokeWidth maxStrokeWidth.

(** The request of the inset path. *)
Definition insetRequest (layoutWidth layoutHeight : number)
  (params : NormalizedRoundedSurfaceOptions) : SquirclePathInput :=
  let clampedStrokeWidth := clampedStrokeWidth params in
  let inset := (clampedStrokeWidth / num 2)%num in
  {| sq_cornerRadius := shrinkRadius (Some (baseRadius params)) inset;
     sq_topLeftCornerRadius := shrinkRadius (topLeftRadius params) inset;
     sq_topRightCornerRadius := shrinkRadius (topRightRadius params) inset;
     sq_bottomRightCornerRadius := shrinkRadius (bottomRightRadius params) inset;
     sq_bottomLeftCornerRadius := shrinkRadius (bottomLeftRadius params) inset;
     sq_cornerSmoothing := smoothFactor params;
     sq_width := (layoutWidth - clampedStrokeWidth)%num;
     sq_height := (layoutHeight - clampedStrokeWidth)%num;
     sq_preserveSmoothing := None |}.

(** The callback of [useMemo] in [SquircleBackdrop]. *)
Definition backdropGeometry (st : Caches) (layout : option MeasuredFrame)
  (params : NormalizedRoundedSurfaceOptions) : BackdropGeometry * Caches :=
  let layoutWidth := match layout with Some f => frame_width f | None => zero end in
  let layoutHeight := match layout with Some f => frame_height f | None => zero end in
  if (layoutWidth =? zero)%num || (layoutHeight =? zero)%num then
    ({| bg_path := None; insetAmount := zero; renderedStrokeWidth := zero |}, st)
  else
    let normalizedStrokeWidth := Math_max zero (borderWidth params) in
    let basePath (st : Caches) :=
      buildSquirclePath sinQ cosQ tanQ st (baseRequest layoutWidth layoutHeight params) in
    if (normalizedStrokeWidth =? zero)%num then
      let '(path, st) := basePath st in
      ({| bg_path := Some path; insetAmount := zero; renderedStrokeWidth := zero |}, st)
    else
      let clampedStrokeWidth := clampedStrokeWidth params in
      if (clampedStrokeWidth <=? zero)%num then
        let '(path, st) := basePath st in
        ({| bg_path := Some path; insetAmount := zero; renderedStrokeWidth := zero |}, st)
      else
        let inset := (clampedStrokeWidth / num 2)%num in
        let '(insetPath, st) :=
          buildSquirclePath sinQ cosQ tanQ st
            (insetRequest layoutWidth layoutHeight params) in
        ({| bg_path := Some insetPath; insetAmount := inset;
            renderedStrokeWidth := clampedStrokeWidth |}, st).

End Backdrop.

(** * Properties *)

(** ** Facts about numbers and maps *)

Lemma Qle_bool_false (x y : Q) : Qle_bool x y = false -> y < x.
Proof.
  intros H. apply Qnot_le_lt. intros L.
  apply Qle_bool_iff in L. congruence.
Qed.

Lemma Qeq_bool_false (x y : Q) : Qeq_bool x y = false -> ~ x == y.
Proof. intros H E. apply Qeq_bool_iff in E. congruence. Qed.

Lemma Qeq_bool_true (x y : Q) : x == y -> Qeq_bool x y = true.
Proof. apply Qeq_bool_iff. Qed.

Lemma Qle_bool_true (x y : Q) : x <= y -> Qle_bool x y = true.
Proof. apply Qle_bool_iff. Qed.

Lemma Qle_bool_flip (x y : Q) : y < x -> Qle_bool x y = false.
Proof.
  intros H. destruct (Qle_bool x y) eqn:E; [|reflexivity].
  apply Qle_bool_iff in E. lra.
Qed.

Lemma Qeq_bool_neq (x y : Q) : ~ x == y -> Qeq_bool x y = false.
Proof.
  intros H. destruct (Qeq_bool x y) eqn:E; [|reflexivity].
  apply Qeq_bool_iff in E. contradiction.
Qed.

(** Turns the boolean comparisons of the context into facts for [lra]. *)
Ltac qbool :=
  repeat match goal with
  | H : Qle_bool _ _ = true |- _ => apply Qle_bool_iff in H
  | H : Qle_bool _ _ = false |- _ => apply Qle_bool_false in H
  | H : Qeq_bool _ _ = true |- _ => apply Qeq_bool_iff in H
  | H : Qeq_bool _ _ = false |- _ => apply Qeq_bool_false in H
  | H : (_ && _)%bool = true |- _ => apply andb_prop in H; destruct H
  end.

Lemma eqb_zero_trans (x y : number) :
  (x =? zero)%num = true -> (y =? zero)%num = true -> (x =? y)%num = true.
Proof.
  destruct x as [u| | |], y as [v| | |]; simpl; try discriminate.
  intros; qbool. apply Qeq_bool_true. lra.
Qed.

Lemma gtb_min (x y : number) : (x >? y)%num = true -> min x y = y.
Proof.
  unfold gtb, ltb.
  destruct x as [u| | |], y as [v| | |]; simpl; try discriminate; try reflexivity.
  intros H. apply andb_prop in H. destruct H as [L N].
  apply negb_true_iff in N. qbool.
  rewrite Qle_bool_flip; [reflexivity|].
  destruct (Qlt_le_dec v u) as [G|G]; [exact G|].
  exfalso. apply N. lra.
Qed.

Lemma min_leb_r (x y : number) :
  is_finite x = true -> is_finite y = true -> (min x y <=? y)%num = true.
Proof.
  destruct x as [u| | |], y as [v| | |]; simpl; try discriminate.
  intros _ _. destruct (Qle_bool u v) eqn:E; simpl; [exact E|].
  apply Qle_bool_true. lra.
Qed.

Lemma JsMap_get_set {V} (m : JsMap.t V) (k : string) (v : V) :
  JsMap.get (JsMap.set m k v) k = Some v.
Proof.
  induction m as [|[k' v'] m IH]; simpl.
  - now rewrite String.eqb_refl.
  - destruct (String.eqb k' k) eqn:E; simpl; rewrite E; [reflexivity | exact IH].
Qed.

Lemma JsMap_get_set_other {V} (m : JsMap.t V) (k k' : string) (v : V) :
  k <> k' -> JsMap.get (JsMap.set m k v) k' = JsMap.get m k'.
Proof.
  intros N. induction m as [|[k0 v0] m IH]; simpl.
  - destruct (String.eqb k k') eqn:E; [|reflexivity].
    apply String.eqb_eq in E. contradiction.
  - destruct (String.eqb k0 k) eqn:E; simpl.
    + apply String.eqb_eq in E. subst k0.
      destruct (String.eqb k k') eqn:E'; [|reflexivity].
      apply String.eqb_eq in E'. contradiction.
    + now rewrite IH.
Qed.

Lemma readCachedPath_store (cache : JsMap.t string) (key value : string) :
  readCachedPath (storeCachedPath cache key value) key = Some value.
Proof. unfold readCachedPath, storeCachedPath. apply JsMap_get_set. Qed.

(** ** The entry point and its two caches *)

Section EntryPoint.

Variables sinQ cosQ tanQ : Q -> Q.

Local Abbreviation build := (buildSquirclePath sinQ cosQ tanQ).
Local Abbreviation cachedProfile := (computeCornerProfile sinQ cosQ tanQ).
Local Abbreviation geometry := (cornerGeometry sinQ cosQ tanQ).

(** What a call returns on a path-cache miss. *)
Definition computedPath (st : Caches) (i : SquirclePathInput) : string * Caches :=
  let '(patches, profiles) :=
    patchesWith cachedProfile (CORNER_PROFILE_CACHE st) i in
  let path :=
    match patches with
    | None => rectanglePath (sq_width i) (sq_height i)
    | Some patches => joinCornerProfiles patches
    end in
  (path,
   {| PATH_CACHE_MAP := storeCachedPath (PATH_CACHE_MAP st) (requestCacheKey i) path;
      CORNER_PROFILE_CACHE := profiles |}).

Lemma buildSquirclePath_hit st i cached :
  cached_hit (readCachedPath (PATH_CACHE_MAP st) (requestCacheKey i)) = Some cached ->
  build st i = (cached, st).
Proof.
  intros H. unfold buildSquirclePath.
  fold (resolvedBase i) (resolvedPreserve i).
  fold (resolvedTopLeft i) (resolvedTopRight i)
       (resolvedBottomLeft i) (resolvedBottomRight i).
  fold (requestCacheKey i). now rewrite H.
Qed.

Lemma buildSquirclePath_miss st i :
  cached_hit (readCachedPath (PATH_CACHE_MAP st) (requestCacheKey i)) = None ->
  build st i = computedPath st i.
Proof.
  intros H. unfold buildSquirclePath, computedPath, patchesWith.
  fold (resolvedBase i) (resolvedPreserve i).
  fold (resolvedTopLeft i) (resolvedTopRight i)
       (resolvedBottomLeft i) (resolvedBottomRight i).
  fold (requestCacheKey i). rewrite H.
  fold (allRadiiEqual i).
  destruct (allRadiiEqual i).
  - destruct (resolvedTopLeft i =? zero)%num; [reflexivity|].
    fold (symmetricBudget i).
    change {| in_cornerRadius := min (resolvedTopLeft i) (symmetricBudget i);
              in_cornerSmoothing := sq_cornerSmoothing i;
              in_preserveSmoothing := resolvedPreserve i;
              in_roundingAndSmoothingBudget := symmetricBudget i |}
      with (symmetricInput i).
    now destruct (cachedProfile _ (symmetricInput i)).
  - fold (normalizedCorners i). unfold patchInput.
    cbv zeta beta.
    destruct (cachedProfile (CORNER_PROFILE_CACHE st) _) as [tl c1].
    destruct (cachedProfile c1 _) as [tr c2].
    destruct (cachedProfile c2 _) as [br c3].
    now destruct (cachedProfile c3 _) as [bl c4].
Qed.


Lemma rectanglePath_nonempty (width height : number) :
  String.eqb (rectanglePath width height) "" = false.
Proof. reflexivity. Qed.

Lemma joinCornerProfiles_nonempty (patches : PathParamsInput) :
  String.eqb (joinCornerProfiles patches) "" = false.
Proof. reflexivity. Qed.

Lemma computedPath_nonempty st i :
  String.eqb (fst (computedPath st i)) "" = false.
Proof.
  unfold computedPath.
  destruct (patchesWith _ _ i) as [[patches|] profiles]; cbn [fst].
  - apply joinCornerProfiles_nonempty.
  - apply rectanglePath_nonempty.
Qed.

Lemma computedPath_stored st i :
  cached_hit (readCachedPath (PATH_CACHE_MAP (snd (computedPath st i)))
                (requestCacheKey i))
  = Some (fst (computedPath st i)).
Proof.
  pose proof (computedPath_nonempty st i) as N. revert N.
  unfold computedPath.
  destruct (patchesWith _ _ i) as [patches profiles]; cbn [fst snd PATH_CACHE_MAP].
  intros N. rewrite readCachedPath_store. unfold cached_hit. now rewrite N.
Qed.

(** After any call the path cache serves the returned string under the
    request's key. *)
Lemma buildSquirclePath_stored st i :
  cached_hit (readCachedPath (PATH_CACHE_MAP (snd (build st i)))
                (requestCacheKey i))
  = Some (fst (build st i)).
Proof.
  destruct (cached_hit (readCachedPath (PATH_CACHE_MAP st) (requestCacheKey i)))
    as [cached|] eqn:E.
  - now rewrite (buildSquirclePath_hit _ _ _ E).
  - rewrite (buildSquirclePath_miss _ _ E). apply computedPath_stored.
Qed.


(** C5, as the code has it.  When the path cache holds no (non-empty)
    entry under the request's key and the four resolved radii are 0, the
    call returns the rectangle string built from the request's own width
    and height. *)
Theorem rectangle_on_miss st i :
  cached_hit (readCachedPath (PATH_CACHE_MAP st) (requestCacheKey i)) = None ->
  (resolvedTopLeft i =? zero)%num = true ->
  (resolvedTopRight i =? zero)%num = true ->
  (resolvedBottomRight i =? zero)%num = true ->
  (resolvedBottomLeft i =? zero)%num = true ->
  fst (build st i) =
    "M " ++ toString (sq_width i) ++ " 0 L " ++ toString (sq_width i) ++ " " ++
    toString (sq_height i) ++ " L 0 " ++ toString (sq_height i) ++ " L 0 0 Z".
Proof.
  intros M Htl Htr Hbr Hbl.
  rewrite (buildSquirclePath_miss _ _ M).
  unfold computedPath, patchesWith, allRadiiEqual.
  rewrite (eqb_zero_trans _ _ Htl Htr), (eqb_zero_trans _ _ Htr Hbr),
          (eqb_zero_trans _ _ Hbr Hbl), (eqb_zero_trans _ _ Hbl Htl), Htl.
  reflexivity.
Qed.

Lemma exact_lookup_fst cache q :
  match JsMap.get cache (cornerProfileCacheKey q) with
  | Some cached => cached = geometry q
  | None => True
  end ->
  fst (cachedProfile cache q) = geometry q.
Proof.
  unfold computeCornerProfile.
  destruct (JsMap.get cache (cornerProfileCacheKey q)); cbn [fst]; auto.
Qed.

Lemma cornerGeometry_radius q :
  cornerRadius (geometry q) = in_cornerRadius q \/ geometry q = zeroProfile.
Proof.
  unfold cornerGeometry.
  destruct ((in_cornerRadius q <=? zero)%num
            || (in_roundingAndSmoothingBudget q <=? zero)%num)%bool;
    [now right | left].
  now destruct (in_preserveSmoothing q
                && (fittedFootprint q >? in_roundingAndSmoothingBudget q)%num)%bool.
Qed.

(** C4, as the code has it.  With four equal, nonzero resolved radii, when
    the path cache holds no (non-empty) entry under the request's key and
    the one corner-profile lookup either misses or finds exactly the patch
    of the looked-up input, the call never runs the normalizer: it returns
    the path that draws, at the four corners, the one patch the geometry
    computes from the budget [min(width, height) / 2] and the radius
    [min(requested, budget)].  A requested radius above the budget is
    replaced by the budget before the patch is computed, the radius handed
    to the computation never exceeds the budget, and the radius of the
    patch drawn is that radius, or the patch is the all-zero one. *)
Theorem symmetric_fast_path_on_miss st i :
  allRadiiEqual i = true ->
  (resolvedTopLeft i =? zero)%num = false ->
  cached_hit (readCachedPath (PATH_CACHE_MAP st) (requestCacheKey i)) = None ->
  let budget := (min (sq_width i) (sq_height i) / num 2)%num in
  let effective := min (resolvedTopLeft i) budget in
  let query :=
    {| in_cornerRadius := effective;
       in_cornerSmoothing := sq_cornerSmoothing i;
       in_preserveSmoothing := resolvedPreserve i;
       in_roundingAndSmoothingBudget := budget |} in
  match JsMap.get (CORNER_PROFILE_CACHE st) (cornerProfileCacheKey query) with
  | Some cached => cached = geometry query
  | None => True
  end ->
  fst (build st i) =
    joinCornerProfiles
      {| pp_width := sq_width i; pp_height := sq_height i;
         topLeftPathParams := geometry query;
         topRightPathParams := geometry query;
         bottomLeftPathParams := geometry query;
         bottomRightPathParams := geometry query |}
  /\ ((resolvedTopLeft i >? budget)%num = true -> effective = budget)
  /\ (is_finite (resolvedTopLeft i) = true -> is_finite budget = true ->
      (effective <=? budget)%num = true)
  /\ (cornerRadius (geometry query) = effective \/ geometry query = zeroProfile).
Proof.
  intros E NZ M budget effective query X.
  split; [|split; [apply gtb_min | split; [apply min_leb_r|]]].
  - rewrite (buildSquirclePath_miss _ _ M).
    unfold computedPath, patchesWith. rewrite E, NZ.
    unfold symmetricInput, patchInput, symmetricBudget.
    cbn [radius roundingAndSmoothingBudget].
    fold budget. fold effective. fold query.
    apply exact_lookup_fst in X.
    destruct (cachedProfile _ query) as [patch profiles].
    cbn [fst] in *. now subst patch.
  - apply (cornerGeometry_radius query).
Qed.

(** With exact lookups the call assembles the patches of the bypassed
    geometry. *)
Lemma assembled_exact st i :
  lookups_exact sinQ cosQ tanQ (CORNER_PROFILE_CACHE st) (patchQueries i) ->
  assembledPatches sinQ cosQ tanQ st i = bypassedPatches sinQ cosQ tanQ i.
Proof.
  unfold assembledPatches, bypassedPatches, patchesWith, patchQueries, bypassProfile.
  destruct (allRadiiEqual i).
  - destruct (resolvedTopLeft i =? zero)%num; [reflexivity|].
    cbn [lookups_exact]. intros [E _]. apply exact_lookup_fst in E.
    destruct (cachedProfile _ (symmetricInput i)) as [patch c1].
    cbn [fst] in *. now subst patch.
  - cbn [map lookups_exact].
    intros (E1 & E2 & E3 & E4 & _).
    apply exact_lookup_fst in E1.
    destruct (cachedProfile (CORNER_PROFILE_CACHE st) _) as [tl c1].
    cbn [fst snd] in *. apply exact_lookup_fst in E2.
    destruct (cachedProfile c1 _) as [tr c2].
    cbn [fst snd] in *. apply exact_lookup_fst in E3.
    destruct (cachedProfile c2 _) as [br c3].
    cbn [fst snd] in *. apply exact_lookup_fst in E4.
    destruct (cachedProfile c3 _) as [bl c4].
    cbn [fst snd] in *. now subst.
Qed.

(** [C3], as the code has it.  When the path cache holds no entry under
    the request's key, and every corner-profile lookup the call makes
    either misses or finds exactly the patch of the looked-up input, the
    returned string is the one the geometry computes with both caches
    bypassed. *)
Theorem cache_transparent_when_exact st i :
  cached_hit (readCachedPath (PATH_CACHE_MAP st) (requestCacheKey i)) = None ->
  lookups_exact sinQ cosQ tanQ (CORNER_PROFILE_CACHE st) (patchQueries i) ->
  fst (build st i) = bypassedPath sinQ cosQ tanQ i.
Proof.
  intros M X. rewrite (buildSquirclePath_miss _ _ M).
  unfold computedPath, bypassedPath.
  rewrite <- (assembled_exact st i X). unfold assembledPatches.
  now destruct (patchesWith _ _ i) as [[patches|] profiles].
Qed.

End EntryPoint.

(** ** The corner patch *)

Section CornerPatch.

Variables sinQ cosQ tanQ : Q -> Q.

Local Abbreviation cachedProfile := (computeCornerProfile sinQ cosQ tanQ).
Local Abbreviation geometry := (cornerGeometry sinQ cosQ tanQ).

Lemma computeCornerProfile_miss cache i :
  JsMap.get cache (cornerProfileCacheKey i) = None ->
  cachedProfile cache i =
    (geometry i, JsMap.set cache (cornerProfileCacheKey i) (geometry i)).
Proof. intros H. unfold computeCornerProfile. now rewrite H. Qed.

Lemma computeCornerProfile_hit cache i cached :
  JsMap.get cache (cornerProfileCacheKey i) = Some cached ->
  cachedProfile cache i = (cached, cache).
Proof. intros H. unfold computeCornerProfile. now rewrite H. Qed.

(** C8, as the code has it.  When the corner-profile cache holds no entry
    under the input's key and [radius <= 0] or [budget <= 0], the call
    returns the all-zero patch; each of the four trace functions draws that
    patch as a straight segment of length 0, free of NaN. *)
Theorem degenerate_corner_on_miss cache i :
  JsMap.get cache (cornerProfileCacheKey i) = None ->
  (in_cornerRadius i <=? zero)%num || (in_roundingAndSmoothingBudget i <=? zero)%num = true ->
  fst (cachedProfile cache i) =
    {| a := zero; b := zero; c := zero; d := zero; p := zero;
       cornerRadius := zero; arcSectionLength := zero |}
  /\ traceTopRight (fst (cachedProfile cache i)) = "l 0.0000 0"
  /\ traceBottomRight (fst (cachedProfile cache i)) = "l 0 0.0000"
  /\ traceBottomLeft (fst (cachedProfile cache i)) = "l 0.0000 0"
  /\ traceTopLeft (fst (cachedProfile cache i)) = "l 0 0.0000".
Proof.
  intros M G. rewrite (computeCornerProfile_miss _ _ M). cbn [fst].
  unfold cornerGeometry. rewrite G. repeat split; reflexivity.
Qed.

Definition smoothingInput (r budget s : Q) : BezierPatchInput :=
  {| in_cornerRadius := Fin r; in_cornerSmoothing := Fin s;
     in_preserveSmoothing := false;
     in_roundingAndSmoothingBudget := Fin budget |}.

Lemma Qdiv_cancel (x y : Q) : 0 < y -> (x / y) * y == x.
Proof. intros H. field. lra. Qed.

(** The values the body of [computeCornerProfile] computes below the cache
    lookup, as the smoothing factor grows. *)
Lemma computed_smoothing_monotone (r budget s1 s2 : Q) :
  0 < r -> r <= budget -> 0 <= s1 -> s1 <= s2 -> s2 <= 1 ->
  (arcMeasure (smoothingInput r budget s2) <=?
     arcMeasure (smoothingInput r budget s1))%num = true
  /\ (p (geometry (smoothingInput r budget s1)) <=?
        p (geometry (smoothingInput r budget s2)))%num = true
  /\ (p (geometry (smoothingInput r budget s2)) <=? Fin budget)%num = true
  /\ (budget <= (1 + s2) * r ->
      (p (geometry (smoothingInput r budget s2)) =? Fin budget)%num = true).
Proof.
  intros R B S1 S12 S2.
  pose proof (Qdiv_cancel budget r R) as D.
  assert (P : forall s, p (geometry (smoothingInput r budget s)) =
                        fittedFootprint (smoothingInput r budget s)).
  { intros s. unfold cornerGeometry, smoothingInput; simpl.
    rewrite (Qle_bool_flip r 0) by lra.
    rewrite (Qle_bool_flip budget 0) by lra. reflexivity. }
  rewrite !P.
  unfold arcMeasure, fittedSmoothing, fittedFootprint, smoothingInput; simpl.
  rewrite (Qeq_bool_neq r 0) by lra.
  unfold sub; simpl.
  change (inject_Z 90) with 90.
  set (x := budget / r) in *. clearbody x.
  repeat split.
  - destruct (Qle_bool s2 _) eqn:E2; destruct (Qle_bool s1 _) eqn:E1;
      simpl; qbool; apply Qle_bool_true; lra.
  - destruct (Qle_bool ((1 + s1) * r) budget) eqn:E1;
    destruct (Qle_bool ((1 + s2) * r) budget) eqn:E2;
      simpl; qbool; apply Qle_bool_true; nra.
  - destruct (Qle_bool ((1 + s2) * r) budget) eqn:E2;
      simpl; qbool; apply Qle_bool_true; nra.
  - intros H. destruct (Qle_bool ((1 + s2) * r) budget) eqn:E2;
      simpl; qbool; apply Qeq_bool_true; lra.
Qed.

Lemma computed_arc_section (r budget s : Q) :
  0 < r -> r <= budget ->
  arcSectionLength (geometry (smoothingInput r budget s)) =
    (Math_sin sinQ (degToRad (arcMeasure (smoothingInput r budget s) / num 2))
     * Fin r * Math_SQRT2)%num.
Proof.
  intros R B. unfold cornerGeometry.
  cbn [smoothingInput in_cornerRadius in_roundingAndSmoothingBudget
       in_preserveSmoothing andb].
  assert (G : ((Fin r <=? zero)%num || (Fin budget <=? zero)%num)%bool = false).
  { simpl. rewrite (Qle_bool_flip r 0), (Qle_bool_flip budget 0) by lra.
    reflexivity. }
  rewrite G. reflexivity.
Qed.

(** C9, as the code has it.  With the preserve flag off, a radius
    [0 < r <= budget] and smoothing factors [0 <= s1 <= s2 <= 1], for two
    calls of [computeCornerProfile] that both miss the corner-profile
    cache, in whatever state the cache is at each call: the arc measure
    the call computes for [s2] is at most the one it computes for [s1] (it
    is the angle the returned arc section is made from), the footprint
    returned for [s1] is at most the one returned for [s2], the footprint
    never exceeds the budget, and it equals the budget as soon as
    [(1 + s) * r] reaches it. *)
Theorem smoothing_monotone_on_miss
  (cache1 cache2 : JsMap.t BezierPatch) (r budget s1 s2 : Q) :
  0 < r -> r <= budget -> 0 <= s1 -> s1 <= s2 -> s2 <= 1 ->
  JsMap.get cache1 (cornerProfileCacheKey (smoothingInput r budget s1)) = None ->
  JsMap.get cache2 (cornerProfileCacheKey (smoothingInput r budget s2)) = None ->
  let first := fst (cachedProfile cache1 (smoothingInput r budget s1)) in
  let second := fst (cachedProfile cache2 (smoothingInput r budget s2)) in
  (arcMeasure (smoothingInput r budget s2) <=?
     arcMeasure (smoothingInput r budget s1))%num = true
  /\ arcSectionLength first =
       (Math_sin sinQ (degToRad (arcMeasure (smoothingInput r budget s1) / num 2))
        * Fin r * Math_SQRT2)%num
  /\ arcSectionLength second =
       (Math_sin sinQ (degToRad (arcMeasure (smoothingInput r budget s2) / num 2))
        * Fin r * Math_SQRT2)%num
  /\ (p first <=? p second)%num = true
  /\ (p second <=? Fin budget)%num = true
  /\ (budget <= (1 + s2) * r -> (p second =? Fin budget)%num = true).
Proof.
  intros R B S1 S12 S2 M1 M2 first second. unfold first, second.
  rewrite (computeCornerProfile_miss _ _ M1), (computeCornerProfile_miss _ _ M2).
  cbn [fst].
  destruct (computed_smoothing_monotone r budget s1 s2 R B S1 S12 S2)
    as (A & P & U & K).
  split; [exact A|].
  split; [now apply computed_arc_section|].
  split; [now apply computed_arc_section|].
  split; [exact P|]. split; [exact U | exact K].
Qed.

End CornerPatch.

(** ** The corner-budget normalizer *)

Lemma corner_get_set_same {T} (m : CornerRecord T) (k : CornerId) (v : T) :
  corner_get (corner_set m k v) k = v.
Proof. now destruct k. Qed.

Lemma corner_get_set_other {T} (m : CornerRecord T) (k k' : CornerId) (v : T) :
  k <> k' -> corner_get (corner_set m k v) k' = corner_get m k'.
Proof. destruct k, k'; intros N; try reflexivity; now contradiction N. Qed.

Lemma CornerId_eq_dec (x y : CornerId) : {x = y} + {x <> y}.
Proof. decide equality. Qed.

Lemma adjacent_irrefl (corner : CornerId) (adjacent : Adjacent) :
  In adjacent (ADJACENT_RELATIONS corner) -> adj_corner adjacent <> corner.
Proof.
  destruct corner; simpl; intros [E|[E|[]]]; subst adjacent; simpl; discriminate.
Qed.

(** [C6], as the code has it.  When this corner's requested radius and the
    adjacent corner's radius are both 0, the edge contributes the term 0,
    whatever its length. *)
Theorem both_zero_term_is_zero
  (width height : number) (radiusMap budgetMap : CornerRecord number)
  (radius : number) (adjacent : Adjacent) :
  (radius =? zero)%num = true ->
  (corner_get radiusMap (adj_corner adjacent) =? zero)%num = true ->
  adjacentTerm width height radiusMap budgetMap radius adjacent = zero.
Proof. intros R A. unfold adjacentTerm. now rewrite R, A. Qed.

Section Normalizer.

Variables w h : Q.
Hypothesis w_nonneg : 0 <= w.
Hypothesis h_nonneg : 0 <= h.

Definition side_q (side : EdgeOrientation) : Q :=
  match side with
  | top | bottom => w
  | left | right => h
  end.

Lemma sideLength_of_fin side :
  sideLength_of side (Fin w) (Fin h) = Fin (side_q side).
Proof. now destruct side. Qed.

Lemma side_q_nonneg side : 0 <= side_q side.
Proof. destruct side; simpl; assumption. Qed.

(** A resolved budget is a finite value between 0 and both edge lengths;
    an unresolved one is negative. *)
Definition budget_ok (bv : Q) : Prop := bv < 0 \/ (0 <= bv /\ bv <= w /\ bv <= h).

Definition corner_ok (radiusMap budgetMap : CornerRecord number)
  (corner : CornerId) : Prop :=
  exists rv bv,
    corner_get radiusMap corner = Fin rv /\
    corner_get budgetMap corner = Fin bv /\
    0 <= rv /\ budget_ok bv.

(** Two resolved budgets on one edge fit into it. *)
Definition edges_ok (budgetMap : CornerRecord number) (corner : CornerId) : Prop :=
  forall adjacent bx by_,
    In adjacent (ADJACENT_RELATIONS corner) ->
    corner_get budgetMap corner = Fin bx ->
    corner_get budgetMap (adj_corner adjacent) = Fin by_ ->
    0 <= bx -> 0 <= by_ ->
    bx + by_ <= side_q (adj_side adjacent).

Definition maps_ok (maps : CornerRecord number * CornerRecord number) : Prop :=
  forall corner,
    corner_ok (fst maps) (snd maps) corner /\ edges_ok (snd maps) corner.

Definition resolved (budgetMap : CornerRecord number) (corner : CornerId) : Prop :=
  exists bv, corner_get budgetMap corner = Fin bv /\ 0 <= bv.

Lemma adjacent_sym corner adjacent :
  In adjacent (ADJACENT_RELATIONS corner) ->
  exists back,
    In back (ADJACENT_RELATIONS (adj_corner adjacent)) /\
    adj_corner back = corner /\
    side_q (adj_side back) = side_q (adj_side adjacent).
Proof.
  destruct corner; simpl; intros [E|[E|[]]]; subst adjacent; simpl;
    first
      [ eexists; split; [left; reflexivity | split; reflexivity]
      | eexists; split; [right; left; reflexivity | split; reflexivity] ].
Qed.

Lemma ratio_bounds (r ra sd : Q) :
  0 <= r -> 0 <= ra -> 0 < r + ra -> 0 <= sd ->
  0 <= r / (r + ra) * sd /\ r / (r + ra) * sd <= sd.
Proof.
  intros R A S D.
  assert (E : r / (r + ra) * (r + ra) == r) by (field; lra).
  set (q := r / (r + ra)) in *. clearbody q.
  assert (0 <= q) by nra.
  assert (q <= 1) by nra.
  split; nra.
Qed.

Lemma adjacentTerm_spec radiusMap budgetMap r adjacent ra ba :
  corner_get radiusMap (adj_corner adjacent) = Fin ra ->
  corner_get budgetMap (adj_corner adjacent) = Fin ba ->
  0 <= ra -> budget_ok ba -> 0 <= r ->
  exists t,
    adjacentTerm (Fin w) (Fin h) radiusMap budgetMap (Fin r) adjacent = Fin t /\
    0 <= t /\ t <= side_q (adj_side adjacent) /\
    (0 <= ba -> t + ba <= side_q (adj_side adjacent)).
Proof.
  intros Hr Hb RA BA R.
  pose proof (side_q_nonneg (adj_side adjacent)) as SD.
  assert (BS : 0 <= ba -> ba <= side_q (adj_side adjacent)).
  { intros P. destruct BA as [N|(_ & Bw & Bh)]; [lra|].
    destruct (adj_side adjacent); simpl; assumption. }
  unfold adjacentTerm. rewrite Hr, Hb, sideLength_of_fin. simpl.
  destruct (Qeq_bool r 0 && Qeq_bool ra 0)%bool eqn:Z.
  - exists 0.
    split; [reflexivity | split; [lra | split; [lra | intros P; specialize (BS P); lra]]].
  - unfold geb; simpl. destruct (Qle_bool 0 ba) eqn:P.
    + qbool. specialize (BS P). unfold sub; simpl.
      eexists; split; [reflexivity|]. split; [lra | split; [lra | intros _; lra]].
    + assert (S : 0 < r + ra).
      { apply andb_false_iff in Z. destruct Z as [Z|Z]; qbool; lra. }
      rewrite (Qeq_bool_neq (r + ra) 0) by lra.
      destruct (ratio_bounds r ra _ R RA S SD) as [L U].
      eexists; split; [reflexivity|]. qbool.
      split; [lra | split; [lra | intros P'; lra]].
Qed.


Lemma Math_min_two (t1 t2 : Q) :
  exists m, Math_min [Fin t1; Fin t2] = Fin m /\ m <= t1 /\ m <= t2 /\
            (m = t1 \/ m = t2).
Proof.
  unfold Math_min; simpl. destruct (Qle_bool t1 t2) eqn:E; qbool;
    eexists; (split; [reflexivity|]); repeat split; try lra; auto.
Qed.

Lemma budget_of_two radiusMap budgetMap r adj1 adj2 :
  maps_ok (radiusMap, budgetMap) -> 0 <= r ->
  exists bv,
    Math_min (map (adjacentTerm (Fin w) (Fin h) radiusMap budgetMap (Fin r))
                [adj1; adj2]) = Fin bv /\
    0 <= bv /\
    bv <= side_q (adj_side adj1) /\ bv <= side_q (adj_side adj2) /\
    (forall adjacent by_,
       In adjacent [adj1; adj2] ->
       corner_get budgetMap (adj_corner adjacent) = Fin by_ ->
       0 <= by_ -> bv + by_ <= side_q (adj_side adjacent)).
Proof.
  intros OK R.
  destruct (proj1 (OK (adj_corner adj1))) as (ra1 & ba1 & Hr1 & Hb1 & RA1 & BA1).
  destruct (proj1 (OK (adj_corner adj2))) as (ra2 & ba2 & Hr2 & Hb2 & RA2 & BA2).
  cbn [fst snd] in *.
  destruct (adjacentTerm_spec _ _ r adj1 _ _ Hr1 Hb1 RA1 BA1 R)
    as (t1 & E1 & L1 & U1 & S1).
  destruct (adjacentTerm_spec _ _ r adj2 _ _ Hr2 Hb2 RA2 BA2 R)
    as (t2 & E2 & L2 & U2 & S2).
  cbn [map]. rewrite E1, E2.
  destruct (Math_min_two t1 t2) as (m & Em & M1 & M2 & Mc).
  exists m. split; [exact Em|].
  split; [destruct Mc; subst m; assumption|].
  split; [lra|]. split; [lra|].
  intros adjacent by_ [A|[A|[]]] Hy P; subst adjacent.
  - rewrite Hb1 in Hy. injection Hy as <-. specialize (S1 P). lra.
  - rewrite Hb2 in Hy. injection Hy as <-. specialize (S2 P). lra.
Qed.

Lemma budget_spec radiusMap budgetMap r corner :
  maps_ok (radiusMap, budgetMap) -> 0 <= r ->
  exists bv,
    Math_min (map (adjacentTerm (Fin w) (Fin h) radiusMap budgetMap (Fin r))
                (ADJACENT_RELATIONS corner)) = Fin bv /\
    0 <= bv /\ bv <= w /\ bv <= h /\
    (forall adjacent by_,
       In adjacent (ADJACENT_RELATIONS corner) ->
       corner_get budgetMap (adj_corner adjacent) = Fin by_ ->
       0 <= by_ -> bv + by_ <= side_q (adj_side adjacent)).
Proof.
  intros OK R.
  destruct corner; cbn [ADJACENT_RELATIONS];
    match goal with
    | |- context [map _ [?x; ?y]] =>
        destruct (budget_of_two _ _ r x y OK R) as (bv & E & L & U1 & U2 & S)
    end;
    exists bv; cbn [adj_side side_q] in U1, U2; auto 10.
Qed.

Lemma resolveCorner_ok maps corner r :
  maps_ok maps -> 0 <= r ->
  maps_ok (resolveCorner (Fin w) (Fin h) maps (corner, Fin r)) /\
  resolved (snd (resolveCorner (Fin w) (Fin h) maps (corner, Fin r))) corner /\
  (forall other, resolved (snd maps) other ->
     resolved (snd (resolveCorner (Fin w) (Fin h) maps (corner, Fin r))) other).
Proof.
  destruct maps as [radiusMap budgetMap]. intros OK R.
  destruct (budget_spec _ _ r corner OK R) as (bv & E & L & Uw & Uh & S).
  unfold resolveCorner. rewrite E. cbn [fst snd].
  assert (M : exists rv, min (Fin r) (Fin bv) = Fin rv /\ 0 <= rv).
  { simpl. destruct (Qle_bool r bv); eexists; split; try reflexivity; lra. }
  destruct M as (rv & Mr & Rv). rewrite Mr.
  split; [|split].
  - intros other. cbn [fst snd]. split.
    + destruct (CornerId_eq_dec corner other) as [<-|N].
      * exists rv, bv. rewrite !corner_get_set_same.
        repeat split; try assumption. right. auto.
      * destruct (proj1 (OK other)) as (ro & bo & Hr & Hb & RO & BO).
        exists ro, bo. rewrite !corner_get_set_other by assumption.
        cbn [fst snd] in *. auto.
    + intros adjacent bx by_ I Hx Hy Px Py.
      pose proof (adjacent_irrefl _ _ I) as Irr.
      destruct (CornerId_eq_dec corner other) as [<-|N].
      * rewrite corner_get_set_same in Hx. injection Hx as <-.
        rewrite corner_get_set_other in Hy by congruence.
        now apply S.
      * rewrite corner_get_set_other in Hx by assumption.
        destruct (CornerId_eq_dec corner (adj_corner adjacent)) as [A|A].
        -- rewrite <- A, corner_get_set_same in Hy. injection Hy as <-.
           destruct (adjacent_sym _ _ I) as (back & Ib & Cb & Sb).
           rewrite <- A in Ib. rewrite <- Sb.
           assert (bv + bx <= side_q (adj_side back)); [|lra].
           apply S; [assumption| |assumption]. now rewrite Cb.
        -- rewrite corner_get_set_other in Hy by assumption.
           exact (proj2 (OK other) adjacent bx by_ I Hx Hy Px Py).
  - exists bv. now rewrite corner_get_set_same.
  - intros other (bo & Hb & Po). cbn [snd] in Hb.
    destruct (CornerId_eq_dec corner other) as [<-|N].
    + exists bv. now rewrite corner_get_set_same.
    + exists bo. now rewrite corner_get_set_other.
Qed.

Lemma resolve_all_ok (entries : list (CornerId * number)) maps :
  (forall e, In e entries -> exists r, snd e = Fin r /\ 0 <= r) ->
  maps_ok maps ->
  maps_ok (fold_left (resolveCorner (Fin w) (Fin h)) entries maps) /\
  (forall corner,
     resolved (snd maps) corner \/ In corner (map fst entries) ->
     resolved (snd (fold_left (resolveCorner (Fin w) (Fin h)) entries maps)) corner).
Proof.
  revert maps. induction entries as [|[corner x] entries IH]; intros maps E OK.
  - simpl. split; [assumption|]. intros corner [H|[]]. exact H.
  - destruct (E (corner, x) (or_introl eq_refl)) as (r & Er & R).
    cbn [snd] in Er. subst x.
    destruct (resolveCorner_ok maps corner r OK R) as (OK' & Res & Keep).
    cbn [fold_left].
    destruct (IH _ (fun e I => E e (or_intror I)) OK') as (OK'' & Res'').
    split; [assumption|].
    intros c [H|[H|H]]; apply Res''.
    + left. now apply Keep.
    + left. cbn [fst] in H. now subst c.
    + right. assumption.
Qed.

Lemma sort_insert_In x l z : In z (sort_insert x l) <-> z = x \/ In z l.
Proof.
  induction l as [|y l IH]; simpl.
  - intuition.
  - destruct (_ >? _)%num; simpl; rewrite ?IH; intuition.
Qed.

Lemma sort_by_radius_In l z : In z (sort_by_radius l) <-> In z l.
Proof.
  induction l as [|x l IH]; simpl; [tauto|].
  rewrite sort_insert_In, IH. intuition.
Qed.

(** What the normalizer returns for finite radii [>= 0]: finite radii
    [>= 0], finite budgets between 0 and both edge lengths, and on each
    edge two budgets that fit into it. *)
Inductive normalized (corners : CornerProfiles) : Prop :=
| normalized_intro (rtl btl rtr btr rbl bbl rbr bbr : Q) :
    at_topLeft corners =
      {| radius := Fin rtl; roundingAndSmoothingBudget := Fin btl |} ->
    at_topRight corners =
      {| radius := Fin rtr; roundingAndSmoothingBudget := Fin btr |} ->
    at_bottomLeft corners =
      {| radius := Fin rbl; roundingAndSmoothingBudget := Fin bbl |} ->
    at_bottomRight corners =
      {| radius := Fin rbr; roundingAndSmoothingBudget := Fin bbr |} ->
    0 <= rtl /\ 0 <= rtr /\ 0 <= rbl /\ 0 <= rbr ->
    0 <= btl /\ 0 <= btr /\ 0 <= bbl /\ 0 <= bbr ->
    btl + btr <= w ->
    bbl + bbr <= w ->
    btl + bbl <= h ->
    btr + bbr <= h ->
    normalized corners.

Lemma normalizeCorners_ok (tl tr br bl : Q) :
  0 <= tl -> 0 <= tr -> 0 <= br -> 0 <= bl ->
  normalized (normalizeCorners
    {| cs_topLeftCornerRadius := Fin tl;
       cs_topRightCornerRadius := Fin tr;
       cs_bottomRightCornerRadius := Fin br;
       cs_bottomLeftCornerRadius := Fin bl;
       cs_width := Fin w; cs_height := Fin h |}).
Proof.
  intros TL TR BR BL. unfold normalizeCorners.
  cbn [cs_topLeftCornerRadius cs_topRightCornerRadius
       cs_bottomRightCornerRadius cs_bottomLeftCornerRadius cs_width cs_height].
  set (radii := {| at_topLeft := Fin tl; at_topRight := Fin tr;
                   at_bottomLeft := Fin bl; at_bottomRight := Fin br |}).
  set (budgets := {| at_topLeft := num (-1); at_topRight := num (-1);
                     at_bottomLeft := num (-1); at_bottomRight := num (-1) |}).
  assert (OK0 : maps_ok (radii, budgets)).
  { intros corner. split.
    - destruct corner; eexists; exists (-1); cbn;
        (split; [reflexivity|]); (split; [reflexivity|]);
        (split; [assumption|]); left; lra.
    - intros adjacent bx by_ _ Hx _ Px _. exfalso.
      destruct corner; cbn in Hx; injection Hx as <-;
        unfold inject_Z in Px; lra. }
  assert (E : forall e, In e (sort_by_radius (corner_entries radii)) ->
                        exists r, snd e = Fin r /\ 0 <= r).
  { intros e I. apply (proj1 (sort_by_radius_In _ _)) in I.
    unfold corner_entries in I. cbn [In] in I.
    destruct I as [<-|[<-|[<-|[<-|[]]]]]; cbn; eauto. }
  destruct (resolve_all_ok _ _ E OK0) as (OK & Res).
  assert (All : forall corner, In corner (map fst (sort_by_radius (corner_entries radii)))).
  { intros corner. apply in_map_iff.
    exists (corner, corner_get radii corner). split; [reflexivity|].
    apply (proj2 (sort_by_radius_In _ _)). destruct corner; cbn; auto. }
  destruct (fold_left _ _ (radii, budgets)) as [radiusMap budgetMap].
  cbn [fst snd] in *.
  assert (V : forall corner, exists rv bv,
             corner_get radiusMap corner = Fin rv /\
             corner_get budgetMap corner = Fin bv /\ 0 <= rv /\ 0 <= bv).
  { intros corner.
    destruct (proj1 (OK corner)) as (rv & bv & Hr & Hb & Rv & _).
    destruct (Res corner (or_intror (All corner))) as (bv' & Hb' & Bv).
    cbn [fst snd] in Hr, Hb, Hb'. rewrite Hb in Hb'. injection Hb' as <-. eauto 10. }
  destruct (V topLeft) as (rtl & btl & Rtl & Btl & ? & ?).
  destruct (V topRight) as (rtr & btr & Rtr & Btr & ? & ?).
  destruct (V bottomLeft) as (rbl & bbl & Rbl & Bbl & ? & ?).
  destruct (V bottomRight) as (rbr & bbr & Rbr & Bbr & ? & ?).
  cbn [corner_get] in *.
  apply (normalized_intro _ rtl btl rtr btr rbl bbl rbr bbr);
    cbn [at_topLeft at_topRight at_bottomLeft at_bottomRight];
    try (rewrite ?Rtl, ?Btl, ?Rtr, ?Btr, ?Rbl, ?Bbl, ?Rbr, ?Bbr; reflexivity);
    try (repeat split; assumption).
  - apply (proj2 (OK topLeft) {| adj_corner := topRight; adj_side := top |});
      cbn; auto.
  - apply (proj2 (OK bottomLeft) {| adj_corner := bottomRight; adj_side := bottom |});
      cbn; auto.
  - apply (proj2 (OK topLeft) {| adj_corner := bottomLeft; adj_side := left |});
      cbn; auto.
  - apply (proj2 (OK topRight) {| adj_corner := bottomRight; adj_side := right |});
      cbn; auto.
Qed.

End Normalizer.

(** ** Valid requests *)

Inductive valid_request (i : SquirclePathInput) : Prop :=
| valid_request_intro (w h s base tl tr br bl : Q) :
    sq_width i = Fin w -> sq_height i = Fin h ->
    sq_cornerSmoothing i = Fin s ->
    resolvedBase i = Fin base ->
    resolvedTopLeft i = Fin tl -> resolvedTopRight i = Fin tr ->
    resolvedBottomRight i = Fin br -> resolvedBottomLeft i = Fin bl ->
    0 <= w -> 0 <= h -> 0 <= s <= 1 ->
    0 <= base -> 0 <= tl -> 0 <= tr -> 0 <= br -> 0 <= bl ->
    valid_request i.

Lemma nonnegb_inv (x : number) :
  nonnegb x = true -> exists q, x = Fin q /\ 0 <= q.
Proof.
  destruct x; simpl; try discriminate. intros H. qbool. eauto.
Qed.

Lemma opt_nonnegb_inv (o : option number) (base : Q) :
  0 <= base -> opt_nonnegb o = true ->
  exists q, nullish o (Fin base) = Fin q /\ 0 <= q.
Proof.
  intros B. destruct o as [x|]; simpl.
  - apply nonnegb_inv.
  - eauto.
Qed.

Lemma valid_input_inv (i : SquirclePathInput) :
  valid_input i = true -> valid_request i.
Proof.
  unfold valid_input. intros H.
  repeat (apply andb_prop in H; destruct H as [H ?]).
  destruct (nonnegb_inv _ H) as (w & Ew & W).
  destruct (nonnegb_inv (sq_height i)) as (h & Eh & Hh); [assumption|].
  assert (S : exists s, sq_cornerSmoothing i = Fin s /\ 0 <= s <= 1).
  { destruct (sq_cornerSmoothing i); simpl in *; try discriminate.
    qbool. eauto. }
  destruct S as (s & Es & S).
  assert (B : exists base, resolvedBase i = Fin base /\ 0 <= base).
  { unfold resolvedBase. destruct (sq_cornerRadius i) as [x|]; simpl in *.
    - now apply nonnegb_inv.
    - exists 0. split; [reflexivity | lra]. }
  destruct B as (base & Eb & B).
  unfold resolvedTopLeft, resolvedTopRight, resolvedBottomRight, resolvedBottomLeft in *.
  destruct (opt_nonnegb_inv (sq_topLeftCornerRadius i) base B) as (tl & Etl & TL);
    [assumption|].
  destruct (opt_nonnegb_inv (sq_topRightCornerRadius i) base B) as (tr & Etr & TR);
    [assumption|].
  destruct (opt_nonnegb_inv (sq_bottomRightCornerRadius i) base B) as (br & Ebr & BR);
    [assumption|].
  destruct (opt_nonnegb_inv (sq_bottomLeftCornerRadius i) base B) as (bl & Ebl & BL);
    [assumption|].
  apply (valid_request_intro i w h s base tl tr br bl); try assumption;
    unfold resolvedTopLeft, resolvedTopRight, resolvedBottomRight, resolvedBottomLeft;
    rewrite Eb; assumption.
Qed.

(** ** Footprints of freshly computed patches *)

Section Footprints.

Variables sinQ cosQ tanQ : Q -> Q.

Local Abbreviation geometry := (cornerGeometry sinQ cosQ tanQ).

Lemma footprint_le_budget (r s bud : Q) (preserve : bool) :
  0 <= bud ->
  exists pv,
    p (geometry {| in_cornerRadius := Fin r; in_cornerSmoothing := Fin s;
                   in_preserveSmoothing := preserve;
                   in_roundingAndSmoothingBudget := Fin bud |}) = Fin pv /\
    pv <= bud.
Proof.
  intros B. unfold cornerGeometry.
  cbn [in_cornerRadius in_roundingAndSmoothingBudget in_preserveSmoothing].
  destruct ((Fin r <=? zero)%num || (Fin bud <=? zero)%num)%bool eqn:G.
  - exists 0. split; [reflexivity | assumption].
  - unfold fittedFootprint.
    cbn [in_cornerRadius in_roundingAndSmoothingBudget in_preserveSmoothing
         in_cornerSmoothing].
    destruct preserve; cbn [negb andb].
    + destruct ((one + Fin s) * Fin r >? Fin bud)%num eqn:C; cbn [p].
      * simpl. destruct (Qle_bool _ bud) eqn:E; qbool;
          eexists; (split; [reflexivity|]); lra.
      * eexists; split; [reflexivity|].
        unfold gtb, ltb in C; simpl in C.
        apply andb_false_iff in C. destruct C as [C|C].
        -- qbool. lra.
        -- apply negb_false_iff in C. qbool. lra.
    + cbn [p]. simpl. destruct (Qle_bool _ bud) eqn:E; qbool;
        eexists; (split; [reflexivity|]); lra.
Qed.


Lemma sum_fits (p1 p2 b1 b2 side : Q) :
  p1 <= b1 -> p2 <= b2 -> b1 + b2 <= side ->
  (Fin p1 + Fin p2 <=? Fin side)%num = true.
Proof. intros. simpl. apply Qle_bool_true. lra. Qed.

(** The footprints of the bypassed geometry fit on every edge. *)
Lemma bypassed_footprints_fit (i : SquirclePathInput) (patches : PathParamsInput) :
  valid_input i = true ->
  bypassedPatches sinQ cosQ tanQ i = Some patches ->
  (p (topLeftPathParams patches) + p (topRightPathParams patches)
     <=? sq_width i)%num = true /\
  (p (bottomLeftPathParams patches) + p (bottomRightPathParams patches)
     <=? sq_width i)%num = true /\
  (p (topLeftPathParams patches) + p (bottomLeftPathParams patches)
     <=? sq_height i)%num = true /\
  (p (topRightPathParams patches) + p (bottomRightPathParams patches)
     <=? sq_height i)%num = true.
Proof.
  intros V. apply valid_input_inv in V.
  destruct V as [w h s base tl tr br bl Ew Eh Es Eb Etl Etr Ebr Ebl
                   W H S B TL TR BR BL].
  unfold bypassedPatches, patchesWith, bypassProfile.
  destruct (allRadiiEqual i).
  - destruct (resolvedTopLeft i =? zero)%num; cbn [fst]; [discriminate|].
    intros E. injection E as <-.
    cbn [topLeftPathParams topRightPathParams bottomLeftPathParams
         bottomRightPathParams].
    unfold symmetricInput, patchInput, symmetricBudget.
    cbn [radius roundingAndSmoothingBudget].
    rewrite Ew, Eh, Es, Etl.
    assert (Bud : exists bud, (min (Fin w) (Fin h) / num 2)%num = Fin bud /\
                              0 <= bud /\ bud + bud <= w /\ bud + bud <= h).
    { assert (Hw : w / inject_Z 2 == w * (1 # 2)) by (unfold inject_Z; field).
      assert (Hh : h / inject_Z 2 == h * (1 # 2)) by (unfold inject_Z; field).
      simpl. destruct (Qle_bool w h) eqn:E; qbool; simpl;
        eexists; (split; [reflexivity|]); (split; [|split]); lra. }
    destruct Bud as (bud & -> & B0 & Bw & Bh).
    assert (Rad : exists rv, min (Fin tl) (Fin bud) = Fin rv).
    { simpl. destruct (Qle_bool tl bud); eauto. }
    destruct Rad as (rv & ->).
    destruct (footprint_le_budget rv s bud (resolvedPreserve i) B0) as (pv & -> & P).
    repeat split; eapply sum_fits; eauto.
  - cbn [fst]. intros E. injection E as <-.
    cbn [topLeftPathParams topRightPathParams bottomLeftPathParams
         bottomRightPathParams].
    unfold normalizedCorners. rewrite Ew, Eh, Etl, Etr, Ebr, Ebl.
    destruct (normalizeCorners_ok w h W H tl tr br bl TL TR BR BL)
      as [rtl btl rtr btr rbl bbl rbr bbr -> -> -> ->
            _ (Btl & Btr & Bbl & Bbr) Top Bottom Left Right].
    unfold patchInput. cbn [radius roundingAndSmoothingBudget]. rewrite Es.
    destruct (footprint_le_budget rtl s btl (resolvedPreserve i) Btl) as (ptl & -> & Ptl).
    destruct (footprint_le_budget rtr s btr (resolvedPreserve i) Btr) as (ptr & -> & Ptr).
    destruct (footprint_le_budget rbl s bbl (resolvedPreserve i) Bbl) as (pbl & -> & Pbl).
    destruct (footprint_le_budget rbr s bbr (resolvedPreserve i) Bbr) as (pbr & -> & Pbr).
    repeat split; eapply sum_fits; eauto.
Qed.

(** [C1], as the code has it.  For a request within the preconditions and
    either value of the preserve flag, when every corner-profile lookup of
    the call misses or finds exactly the patch of the looked-up input, the
    four patches handed to [joinCornerProfiles] have footprints that fit on
    every edge: the two footprints on the top and on the bottom edge add to
    at most the width, those on the left and on the right edge to at most
    the height, in exact arithmetic. *)
Theorem fresh_footprints_fit (st : Caches) (i : SquirclePathInput)
  (patches : PathParamsInput) :
  valid_input i = true ->
  lookups_exact sinQ cosQ tanQ (CORNER_PROFILE_CACHE st) (patchQueries i) ->
  assembledPatches sinQ cosQ tanQ st i = Some patches ->
  (p (topLeftPathParams patches) + p (topRightPathParams patches)
     <=? sq_width i)%num = true /\
  (p (bottomLeftPathParams patches) + p (bottomRightPathParams patches)
     <=? sq_width i)%num = true /\
  (p (topLeftPathParams patches) + p (bottomLeftPathParams patches)
     <=? sq_height i)%num = true /\
  (p (topRightPathParams patches) + p (bottomRightPathParams patches)
     <=? sq_height i)%num = true.
Proof.
  intros V X A. rewrite (assembled_exact sinQ cosQ tanQ st i X) in A.
  now apply bypassed_footprints_fit.
Qed.

End Footprints.

(** ** Characters of the printed numbers *)

(** The characters a finite number is printed with. *)
Definition numeral_char (ch : ascii) : bool :=
  is_digit ch || Ascii.eqb ch "." || Ascii.eqb ch "-" ||
  Ascii.eqb ch "e" || Ascii.eqb ch "+".

Section DigitChars.

Variable f : ascii -> bool.

Lemma all_chars_app (s1 s2 : string) :
  all_chars f (s1 ++ s2) = all_chars f s1 && all_chars f s2.
Proof.
  induction s1 as [|ch s1 IH]; simpl; [reflexivity|].
  now rewrite IH, andb_assoc.
Qed.

Lemma all_chars_substring (s : string) (n m : nat) :
  all_chars f s = true -> all_chars f (substring n m s) = true.
Proof.
  revert n m. induction s as [|ch s IH]; intros n m H.
  - now destruct n, m.
  - simpl in H. apply andb_prop in H. destruct H as [Hc Hs].
    destruct n, m; simpl; auto. now rewrite Hc, IH.
Qed.

Hypothesis f_digit : forall ch, is_digit ch = true -> f ch = true.

Lemma all_chars_zeros (n : nat) : all_chars f (zeros n) = true.
Proof.
  induction n; simpl; [reflexivity|]. rewrite IHn.
  now rewrite (f_digit "0").
Qed.

Lemma all_chars_uint (u : Decimal.uint) :
  all_chars f (NilEmpty.string_of_uint u) = true.
Proof.
  induction u; simpl; rewrite ?IHu, ?andb_true_r;
    try reflexivity; now apply f_digit.
Qed.

Lemma all_chars_digits (n : Z) : all_chars f (digits n) = true.
Proof.
  unfold digits, NilZero.string_of_uint.
  destruct (N.to_uint (Z.to_N n)) eqn:E; try (rewrite <- E; apply all_chars_uint).
  simpl. now rewrite (f_digit "0").
Qed.

End DigitChars.

Section NumeralChars.

Variable f : ascii -> bool.
Hypothesis f_numeral : forall ch, numeral_char ch = true -> f ch = true.

Lemma numeral_digit (ch : ascii) : is_digit ch = true -> f ch = true.
Proof. intros H. apply f_numeral. unfold numeral_char. now rewrite H. Qed.

Local Abbreviation all_chars_zeros := (all_chars_zeros f numeral_digit).
Local Abbreviation all_chars_digits := (all_chars_digits f numeral_digit).

Lemma all_chars_place_point (k : nat) (m : string) :
  all_chars f m = true -> all_chars f (place_point k m) = true.
Proof.
  intros H. unfold place_point. destruct k; [assumption|].
  set (m' := if Nat.leb _ _ then _ else m).
  assert (H' : all_chars f m' = true).
  { unfold m'. destruct (Nat.leb _ _); [|assumption].
    now rewrite all_chars_app, all_chars_zeros, H. }
  rewrite !all_chars_app, !all_chars_substring by assumption.
  simpl. now rewrite (f_numeral ".").
Qed.

Lemma all_chars_positive (x : Q) : all_chars f (positive_to_string x) = true.
Proof.
  unfold positive_to_string. destruct (significand x) as [s n].
  pose proof (all_chars_digits s) as D.
  assert (P : f "." = true) by now apply f_numeral.
  assert (E : f "e" = true) by now apply f_numeral.
  assert (Mi : f "-" = true) by now apply f_numeral.
  assert (Pl : f "+" = true) by now apply f_numeral.
  assert (Ze : f "0" = true) by now apply f_numeral.
  repeat match goal with
         | |- context [if ?c then _ else _] => destruct c
         end;
    rewrite ?all_chars_app, ?all_chars_substring, ?all_chars_zeros,
      ?all_chars_digits by assumption;
    simpl; rewrite ?P, ?E, ?Mi, ?Pl, ?Ze, ?all_chars_digits; reflexivity.
Qed.

Lemma all_chars_toString (q : Q) : all_chars f (toString (Fin q)) = true.
Proof.
  unfold toString. destruct (Qcompare q 0).
  - simpl. now rewrite (f_numeral "0").
  - rewrite all_chars_app, all_chars_positive. simpl.
    now rewrite (f_numeral "-").
  - apply all_chars_positive.
Qed.

Lemma all_chars_toFixed (k : nat) (q : Q) : all_chars f (toFixed k (Fin q)) = true.
Proof.
  unfold toFixed.
  assert (S : all_chars f (match Qcompare q 0 with Lt => "-" | _ => "" end) = true).
  { destruct (Qcompare q 0); simpl; try reflexivity. now rewrite (f_numeral "-"). }
  destruct (Qle_bool _ _); rewrite all_chars_app, S; simpl.
  - apply all_chars_positive.
  - apply all_chars_place_point, all_chars_digits.
Qed.

End NumeralChars.

(** ** Finite values stay finite *)

Lemma finite_inv (x : number) : is_finite x = true -> exists q, x = Fin q.
Proof. destruct x; simpl; try discriminate. eauto. Qed.

Lemma finite_add x y :
  is_finite x = true -> is_finite y = true -> is_finite (x + y)%num = true.
Proof. now destruct x, y. Qed.

Lemma finite_neg x : is_finite x = true -> is_finite (- x)%num = true.
Proof. now destruct x. Qed.

Lemma finite_sub x y :
  is_finite x = true -> is_finite y = true -> is_finite (x - y)%num = true.
Proof. now destruct x, y. Qed.

Lemma finite_mul x y :
  is_finite x = true -> is_finite y = true -> is_finite (x * y)%num = true.
Proof. now destruct x, y. Qed.

Lemma finite_min x y :
  is_finite x = true -> is_finite y = true -> is_finite (min x y) = true.
Proof. destruct x, y; simpl; try discriminate. now destruct (Qle_bool _ _). Qed.

Lemma finite_div x y :
  is_finite x = true -> is_finite y = true -> (y =? zero)%num = false ->
  is_finite (x / y)%num = true.
Proof. destruct x, y; simpl; try discriminate. intros _ _ ->. reflexivity. Qed.

Lemma finite_num z : is_finite (num z) = true.
Proof. reflexivity. Qed.

Lemma finite_degToRad x : is_finite x = true -> is_finite (degToRad x) = true.
Proof. now destruct x. Qed.

Create HintDb finite.
#[export] Hint Resolve finite_add finite_neg finite_sub finite_mul finite_min
  finite_num finite_degToRad : finite.

Section FinitePatches.

Variables sinQ cosQ tanQ : Q -> Q.

Local Abbreviation geometry := (cornerGeometry sinQ cosQ tanQ).
Local Abbreviation cachedProfile := (computeCornerProfile sinQ cosQ tanQ).

Lemma finite_sin x : is_finite x = true -> is_finite (Math_sin sinQ x) = true.
Proof. now destruct x. Qed.
Lemma finite_cos x : is_finite x = true -> is_finite (Math_cos cosQ x) = true.
Proof. now destruct x. Qed.
Lemma finite_tan x : is_finite x = true -> is_finite (Math_tan tanQ x) = true.
Proof. now destruct x. Qed.

Hint Resolve finite_sin finite_cos finite_tan : finite.

Definition finite_input (i : BezierPatchInput) : bool :=
  is_finite (in_cornerRadius i) && is_finite (in_cornerSmoothing i) &&
  is_finite (in_roundingAndSmoothingBudget i).

Lemma geometry_finite (i : BezierPatchInput) :
  finite_input i = true -> finite_patch (geometry i) = true.
Proof.
  unfold finite_input. intros F.
  apply andb_prop in F. destruct F as [F Fb].
  apply andb_prop in F. destruct F as [Fr Fs].
  unfold cornerGeometry.
  destruct (_ || _)%bool eqn:G; [reflexivity|].
  apply orb_false_iff in G. destruct G as [Gr Gb].
  assert (NZ : (in_cornerRadius i =? zero)%num = false).
  { destruct (in_cornerRadius i); try discriminate. simpl in *.
    qbool. apply Qeq_bool_neq. lra. }
  assert (D2 : forall x, is_finite x = true -> is_finite (x / num 2)%num = true)
    by (intros; now apply finite_div).
  assert (D3 : forall x, is_finite x = true -> is_finite (x / num 3)%num = true)
    by (intros; now apply finite_div).
  assert (D6 : forall x, is_finite x = true -> is_finite (x / num 6)%num = true)
    by (intros; now apply finite_div).
  assert (Fp : is_finite (fittedFootprint i) = true).
  { unfold fittedFootprint. destruct (negb _); auto 10 with finite. }
  assert (Fsm : is_finite (fittedSmoothing i) = true).
  { unfold fittedSmoothing. destruct (negb _); [|assumption].
    apply finite_min; [assumption|]. apply finite_sub; [|reflexivity].
    now apply finite_div. }
  assert (Fa : is_finite (arcMeasure i) = true).
  { unfold arcMeasure. apply finite_mul; [reflexivity|].
    apply finite_sub; [reflexivity | assumption]. }
  set (arc := (Math_sin sinQ (degToRad (arcMeasure i / num 2)) *
               in_cornerRadius i * Math_SQRT2)%num).
  assert (Farc : is_finite arc = true).
  { unfold arc. repeat apply finite_mul; auto 10 with finite. }
  set (p34 := (in_cornerRadius i *
               Math_tan tanQ (degToRad ((num 90 - arcMeasure i) / num 2 / num 2)))%num).
  assert (F34 : is_finite p34 = true).
  { unfold p34. apply finite_mul; auto 10 with finite. }
  set (cc := (p34 * Math_cos cosQ (degToRad (num 45 * fittedSmoothing i)))%num).
  assert (Fc : is_finite cc = true).
  { unfold cc. apply finite_mul; auto 10 with finite. }
  set (dd := (cc * Math_tan tanQ (degToRad (num 45 * fittedSmoothing i)))%num).
  assert (Fd : is_finite dd = true).
  { unfold dd. apply finite_mul; auto 10 with finite. }
  set (bb := ((fittedFootprint i - arc - cc - dd) / num 3)%num).
  assert (Fbb : is_finite bb = true).
  { unfold bb. apply D3. auto 10 with finite. }
  destruct (_ && _)%bool; unfold finite_patch;
    cbn [a b c d p cornerRadius arcSectionLength];
    rewrite Fc, Fd, Fr, Farc; rewrite ?andb_true_r;
    repeat (apply andb_true_intro; split); auto 12 with finite.
Qed.

End FinitePatches.

(** ** No NaN in the output *)

Lemma numeral_not_N (ch : ascii) :
  numeral_char ch = true -> negb (Ascii.eqb ch "N") = true.
Proof.
  intros H. destruct (Ascii.eqb ch "N") eqn:E; [|reflexivity].
  apply Ascii.eqb_eq in E. subst ch. discriminate.
Qed.

Lemma no_N_app (s1 s2 : string) : no_N (s1 ++ s2) = no_N s1 && no_N s2.
Proof. apply all_chars_app. Qed.

Lemma no_N_toFixed (k : nat) (x : number) :
  is_finite x = true -> no_N (toFixed k x) = true.
Proof.
  intros F. destruct (finite_inv _ F) as (q & ->).
  apply all_chars_toFixed, numeral_not_N.
Qed.

Lemma no_N_toString (x : number) :
  is_finite x = true -> no_N (toString x) = true.
Proof.
  intros F. destruct (finite_inv _ F) as (q & ->).
  apply all_chars_toString, numeral_not_N.
Qed.

Lemma no_N_contains (s : string) : no_N s = true -> contains "NaN" s = false.
Proof.
  induction s as [|ch s IH]; [reflexivity|].
  unfold no_N. cbn [all_chars]. intros H. apply andb_prop in H. destruct H as [Hc Hs].
  cbn [contains starts_with]. rewrite (IH Hs), orb_false_r.
  apply negb_true_iff in Hc. now rewrite Hc.
Qed.

Lemma no_N_formatSegment (strings : list string) (values : list number) :
  Forall (fun s => no_N s = true) strings ->
  Forall (fun v => is_finite v = true) values ->
  no_N (formatSegment strings values) = true.
Proof.
  intros Hs Hv. unfold formatSegment.
  assert (G : forall acc index, no_N acc = true ->
    no_N (fst (fold_left
      (fun (st : string * nat) (str : string) =>
         let '(acc, index) := st in
         match nth_error values index with
         | Some value => (acc ++ str ++ toFixed 4 value, S index)
         | None => (acc ++ str, S index)
         end) strings (acc, index))) = true).
  { induction Hs as [|str strings Hstr _ IH]; intros acc index Hacc; [exact Hacc|].
    cbn [fold_left]. destruct (nth_error values index) as [v|] eqn:E; apply IH.
    - rewrite !no_N_app, Hacc, Hstr. simpl. apply no_N_toFixed.
      apply nth_error_In in E. rewrite Forall_forall in Hv. now apply Hv.
    - now rewrite no_N_app, Hacc, Hstr. }
  now apply G.
Qed.

Ltac finite_values :=
  repeat (apply Forall_cons; [auto 8 with finite|]); apply Forall_nil.

Ltac plain_strings :=
  repeat (apply Forall_cons; [reflexivity|]); apply Forall_nil.

Lemma finite_patch_inv (k : BezierPatch) :
  finite_patch k = true ->
  is_finite (a k) = true /\ is_finite (b k) = true /\ is_finite (c k) = true /\
  is_finite (d k) = true /\ is_finite (p k) = true /\
  is_finite (cornerRadius k) = true /\ is_finite (arcSectionLength k) = true.
Proof.
  unfold finite_patch. intros H.
  repeat (apply andb_prop in H; destruct H as [H ?]). auto 10.
Qed.

Lemma no_N_trace (k : BezierPatch) :
  finite_patch k = true ->
  no_N (traceTopRight k) = true /\ no_N (traceBottomRight k) = true /\
  no_N (traceBottomLeft k) = true /\ no_N (traceTopLeft k) = true.
Proof.
  intros F. destruct (finite_patch_inv _ F) as (Fa & Fb & Fc & Fd & Fp & Fr & Fl).
  unfold traceTopRight, traceBottomRight, traceBottomLeft, traceTopLeft.
  destruct (truthy (cornerRadius k));
    repeat split; apply no_N_formatSegment; first [plain_strings | finite_values].
Qed.

Lemma no_N_rectanglePath (width height : number) :
  is_finite width = true -> is_finite height = true ->
  no_N (rectanglePath width height) = true.
Proof.
  intros W H. unfold rectanglePath.
  now rewrite !no_N_app, !no_N_toString.
Qed.

Lemma no_N_joinCornerProfiles (i : PathParamsInput) :
  is_finite (pp_width i) = true -> is_finite (pp_height i) = true ->
  finite_patch (topLeftPathParams i) = true ->
  finite_patch (topRightPathParams i) = true ->
  finite_patch (bottomLeftPathParams i) = true ->
  finite_patch (bottomRightPathParams i) = true ->
  no_N (joinCornerProfiles i) = true.
Proof.
  intros W H Ftl Ftr Fbl Fbr.
  destruct (no_N_trace _ Ftl) as (_ & _ & _ & Ttl).
  destruct (no_N_trace _ Ftr) as (Ttr & _ & _ & _).
  destruct (no_N_trace _ Fbl) as (_ & _ & Tbl & _).
  destruct (no_N_trace _ Fbr) as (_ & Tbr & _ & _).
  destruct (finite_patch_inv _ Ftl) as (_ & _ & _ & _ & Ptl & _).
  destruct (finite_patch_inv _ Ftr) as (_ & _ & _ & _ & Ptr & _).
  destruct (finite_patch_inv _ Fbl) as (_ & _ & _ & _ & Pbl & _).
  destruct (finite_patch_inv _ Fbr) as (_ & _ & _ & _ & Pbr & _).
  unfold joinCornerProfiles, join. cbn [String.concat].
  rewrite !no_N_app, Ttl, Ttr, Tbl, Tbr.
  rewrite !no_N_toString by auto with finite. reflexivity.
Qed.

Lemma JsMap_get_Forall {V} (Q : V -> Prop) (m : JsMap.t V) (k : string) (v : V) :
  Forall (fun kv => Q (snd kv)) m -> JsMap.get m k = Some v -> Q v.
Proof.
  induction 1 as [|[k' v'] m Hv _ IH]; simpl; [discriminate|].
  destruct (String.eqb k' k); [|exact IH].
  intros E. injection E as <-. exact Hv.
Qed.

Lemma JsMap_set_Forall {V} (Q : V -> Prop) (m : JsMap.t V) (k : string) (v : V) :
  Forall (fun kv => Q (snd kv)) m -> Q v ->
  Forall (fun kv => Q (snd kv)) (JsMap.set m k v).
Proof.
  intros H Hv. induction H as [|[k' v'] m Hv' Hm IH]; simpl.
  - now constructor.
  - destruct (String.eqb k' k); constructor; assumption.
Qed.

Lemma JsMap_delete_Forall {V} (Q : V -> Prop) (m : JsMap.t V) (k : string) :
  Forall (fun kv => Q (snd kv)) m ->
  Forall (fun kv => Q (snd kv)) (JsMap.delete m k).
Proof.
  induction 1 as [|[k' v'] m Hv' Hm IH]; simpl; [constructor|].
  destruct (String.eqb k' k); [assumption | now constructor].
Qed.

Lemma storeCachedPath_Forall (Q : string -> Prop) cache key value :
  Forall (fun kv => Q (snd kv)) cache -> Q value ->
  Forall (fun kv => Q (snd kv)) (storeCachedPath cache key value).
Proof.
  intros H Hv. unfold storeCachedPath. apply JsMap_set_Forall; [|assumption].
  destruct (_ && _)%bool; [|assumption].
  destruct (JsMap.first_key cache); [|assumption].
  now apply JsMap_delete_Forall.
Qed.

Section NoNaN.

Variables sinQ cosQ tanQ : Q -> Q.

Local Abbreviation build := (buildSquirclePath sinQ cosQ tanQ).
Local Abbreviation cachedProfile := (computeCornerProfile sinQ cosQ tanQ).
Local Abbreviation geometry := (cornerGeometry sinQ cosQ tanQ).

Definition finite_profiles (cache : JsMap.t BezierPatch) : Prop :=
  Forall (fun kv => finite_patch (snd kv) = true) cache.

(** Every cached path is free of the letter N and every cached patch is
    made of finite numbers. *)
Definition clean_caches (st : Caches) : Prop :=
  Forall (fun kv => no_N (snd kv) = true) (PATH_CACHE_MAP st) /\
  finite_profiles (CORNER_PROFILE_CACHE st).

Lemma computeCornerProfile_finite cache q :
  finite_profiles cache -> finite_input q = true ->
  finite_patch (fst (cachedProfile cache q)) = true /\
  finite_profiles (snd (cachedProfile cache q)).
Proof.
  intros C F. unfold computeCornerProfile.
  destruct (JsMap.get cache (cornerProfileCacheKey q)) as [cached|] eqn:E;
    cbn [fst snd].
  - split; [|assumption].
    exact (JsMap_get_Forall (fun k => finite_patch k = true) _ _ _ C E).
  - pose proof (geometry_finite sinQ cosQ tanQ q F) as G.
    split; [assumption|].
    now apply (JsMap_set_Forall (fun k => finite_patch k = true)).
Qed.

Definition finite_patches (patches : PathParamsInput) : Prop :=
  finite_patch (topLeftPathParams patches) = true /\
  finite_patch (topRightPathParams patches) = true /\
  finite_patch (bottomLeftPathParams patches) = true /\
  finite_patch (bottomRightPathParams patches) = true.

Lemma patchesWith_finite cache i :
  valid_request i -> finite_profiles cache ->
  match fst (patchesWith cachedProfile cache i) with
  | Some patches =>
      finite_patches patches /\
      pp_width patches = sq_width i /\ pp_height patches = sq_height i
  | None => True
  end /\
  finite_profiles (snd (patchesWith cachedProfile cache i)).
Proof.
  intros [w h s base tl tr br bl Ew Eh Es Eb Etl Etr Ebr Ebl
            W H S B TL TR BR BL] C.
  unfold patchesWith. destruct (allRadiiEqual i).
  - destruct (resolvedTopLeft i =? zero)%num; [now split|].
    assert (F : finite_input (symmetricInput i) = true).
    { unfold symmetricInput, patchInput, symmetricBudget, finite_input.
      cbn [in_cornerRadius in_cornerSmoothing in_roundingAndSmoothingBudget
           radius roundingAndSmoothingBudget].
      rewrite Ew, Eh, Es, Etl. simpl.
      destruct (Qle_bool w h); simpl; now destruct (Qle_bool tl _). }
    destruct (computeCornerProfile_finite cache _ C F) as (Fp & C').
    destruct (cachedProfile cache (symmetricInput i)) as [patch cache'].
    cbn [fst snd] in *. unfold finite_patches. cbn. auto 10.
  - unfold normalizedCorners. rewrite Ew, Eh, Etl, Etr, Ebr, Ebl.
    destruct (normalizeCorners_ok w h W H tl tr br bl TL TR BR BL)
      as [rtl btl rtr btr rbl bbl rbr bbr -> -> -> -> _ _ _ _ _ _].
    unfold patchInput. cbn [radius roundingAndSmoothingBudget]. rewrite Es.
    match goal with |- context [cachedProfile cache ?q] =>
      destruct (computeCornerProfile_finite cache q C eq_refl) as (F1 & C1);
      destruct (cachedProfile cache q) as [ptl c1] end.
    cbn [fst snd] in F1, C1.
    match goal with |- context [cachedProfile c1 ?q] =>
      destruct (computeCornerProfile_finite c1 q C1 eq_refl) as (F2 & C2);
      destruct (cachedProfile c1 q) as [ptr c2] end.
    cbn [fst snd] in F2, C2.
    match goal with |- context [cachedProfile c2 ?q] =>
      destruct (computeCornerProfile_finite c2 q C2 eq_refl) as (F3 & C3);
      destruct (cachedProfile c2 q) as [pbr c3] end.
    cbn [fst snd] in F3, C3.
    match goal with |- context [cachedProfile c3 ?q] =>
      destruct (computeCornerProfile_finite c3 q C3 eq_refl) as (F4 & C4);
      destruct (cachedProfile c3 q) as [pbl c4] end.
    cbn [fst snd] in F4, C4.
    cbn [fst snd]. unfold finite_patches. cbn. auto 10.
Qed.

Lemma buildSquirclePath_clean st i :
  valid_input i = true -> clean_caches st ->
  no_N (fst (build st i)) = true /\ clean_caches (snd (build st i)).
Proof.
  intros V [Cp Cc]. apply valid_input_inv in V.
  destruct (cached_hit (readCachedPath (PATH_CACHE_MAP st) (requestCacheKey i)))
    as [cached|] eqn:E.
  - rewrite (buildSquirclePath_hit _ _ _ _ _ _ E). cbn [fst snd].
    split; [|now split].
    unfold cached_hit, readCachedPath in E.
    destruct (JsMap.get _ _) as [s|] eqn:G; [|discriminate].
    destruct (String.eqb s ""); [discriminate|]. injection E as <-.
    exact (JsMap_get_Forall (fun s => no_N s = true) _ _ _ Cp G).
  - rewrite (buildSquirclePath_miss _ _ _ _ _ E). unfold computedPath.
    destruct (patchesWith_finite (CORNER_PROFILE_CACHE st) i V Cc) as (Fp & Cc').
    destruct V as [w h s base tl tr br bl Ew Eh Es Eb Etl Etr Ebr Ebl
                     W H S B TL TR BR BL].
    destruct (patchesWith _ _ i) as [patches profiles]. cbn [fst snd] in *.
    assert (N : no_N match patches with
                     | Some patches => joinCornerProfiles patches
                     | None => rectanglePath (sq_width i) (sq_height i)
                     end = true).
    { destruct patches as [patches|].
      - destruct Fp as ((Ftl & Ftr & Fbl & Fbr) & Pw & Ph).
        apply no_N_joinCornerProfiles; try assumption.
        + now rewrite Pw, Ew.
        + now rewrite Ph, Eh.
      - apply no_N_rectanglePath; [now rewrite Ew | now rewrite Eh]. }
    split; [exact N|]. split; cbn [PATH_CACHE_MAP CORNER_PROFILE_CACHE].
    + now apply (storeCachedPath_Forall (fun s => no_N s = true)).
    + assumption.
Qed.

Lemma replay_clean st calls :
  Forall (fun i => valid_input i = true) calls -> clean_caches st ->
  Forall (fun path => no_N path = true) (replay sinQ cosQ tanQ st calls).
Proof.
  intros V. revert st. induction V as [|i calls Vi _ IH]; intros st C.
  - constructor.
  - cbn [replay]. destruct (buildSquirclePath_clean st i Vi C) as (N & C').
    destruct (build st i) as [path st']. cbn [fst snd] in *.
    constructor; [assumption | now apply IH].
Qed.

(** [C2].  Starting from empty caches, every call of a sequence of calls
    within the preconditions returns a string in which NaN does not occur;
    this covers the request with exactly one nonzero corner radius. *)
Theorem no_NaN_in_any_path (calls : list SquirclePathInput) :
  Forall (fun i => valid_input i = true) calls ->
  Forall (fun path => contains "NaN" path = false)
    (replay sinQ cosQ tanQ no_caches calls).
Proof.
  intros V.
  assert (C : clean_caches no_caches) by (split; constructor).
  pose proof (replay_clean no_caches calls V C) as N.
  eapply Forall_impl; [|exact N]. intros path. apply no_N_contains.
Qed.

End NoNaN.

(** ** The tokens of a path *)

Definition no_space (s : string) : bool :=
  all_chars (fun ch => negb (is_space ch)) s.

Lemma numeral_not_space (ch : ascii) :
  numeral_char ch = true -> negb (is_space ch) = true.
Proof.
  intros H. destruct (is_space ch) eqn:E; [|reflexivity].
  unfold is_space in E. apply orb_prop in E.
  destruct E as [E|E]; apply Ascii.eqb_eq in E; subst ch; discriminate.
Qed.

Lemma string_app_assoc (x y z : string) : (x ++ y) ++ z = x ++ (y ++ z).
Proof. induction x as [|ch x IH]; simpl; [reflexivity | now rewrite IH]. Qed.

Lemma string_app_nil_r (x : string) : x ++ "" = x.
Proof. induction x as [|ch x IH]; simpl; [reflexivity | now rewrite IH]. Qed.

Lemma app_nonempty_l (x y : string) : x <> "" -> x ++ y <> "".
Proof. destruct x; [congruence | discriminate]. Qed.

Lemma app_nonempty_r (x y : string) : y <> "" -> x ++ y <> "".
Proof. destruct x; simpl; [auto | discriminate]. Qed.

Lemma digits_nonempty (n : Z) : digits n <> "".
Proof.
  unfold digits, NilZero.string_of_uint.
  destruct (N.to_uint (Z.to_N n)); discriminate.
Qed.

Lemma place_point_nonempty (k : nat) (m : string) : m <> "" -> place_point k m <> "".
Proof.
  intros H. unfold place_point. destruct k; [assumption|].
  apply app_nonempty_r. discriminate.
Qed.

Lemma positive_to_string_nonempty (x : Q) : positive_to_string x <> "".
Proof.
  unfold positive_to_string. destruct (significand x) as [s n].
  pose proof (digits_nonempty s) as D.
  repeat match goal with
         | |- context [if ?c then _ else _] => destruct c
         end;
    first [ apply app_nonempty_l; assumption
          | apply app_nonempty_r; discriminate
          | discriminate ].
Qed.

Lemma toFixed_nonempty (k : nat) (x : number) : toFixed k x <> "".
Proof.
  destruct x as [q| | |]; try discriminate.
  unfold toFixed. destruct (Qle_bool _ _); apply app_nonempty_r.
  - apply positive_to_string_nonempty.
  - apply place_point_nonempty, digits_nonempty.
Qed.

Lemma toString_nonempty (x : number) : toString x <> "".
Proof.
  destruct x as [q| | |]; try discriminate.
  unfold toString. destruct (Qcompare q 0); try discriminate.
  apply positive_to_string_nonempty.
Qed.

Lemma toFixed_no_space (k : nat) (x : number) : no_space (toFixed k x) = true.
Proof.
  destruct x as [q| | |]; try reflexivity.
  apply all_chars_toFixed, numeral_not_space.
Qed.

Lemma toString_no_space (x : number) : no_space (toString x) = true.
Proof.
  destruct x as [q| | |]; try reflexivity.
  apply all_chars_toString, numeral_not_space.
Qed.

(** Cutting a string at a blank cuts its tokens. *)
Lemma tokens_from_app_space (acc s : string) (sp : ascii) (rest : string) :
  is_space sp = true ->
  tokens_from acc (s ++ String sp rest)
  = (tokens_from acc s ++ tokens_from "" rest)%list.
Proof.
  intros Sp. revert acc. induction s as [|ch s IH]; intros acc.
  - cbn [append tokens_from]. rewrite Sp. now destruct acc.
  - cbn [append tokens_from]. destruct (is_space ch).
    + destruct acc; [apply IH|]. rewrite IH. reflexivity.
    + apply IH.
Qed.

(** A run without blanks is one token. *)
Lemma tokens_from_word (acc s : string) :
  no_space s = true -> acc ++ s <> "" -> tokens_from acc s = [acc ++ s].
Proof.
  revert acc. induction s as [|ch s IH]; intros acc N E.
  - rewrite string_app_nil_r in *. cbn. destruct acc; congruence.
  - unfold no_space in N. cbn [all_chars] in N.
    apply andb_prop in N. destruct N as [Nc Ns].
    apply negb_true_iff in Nc. cbn [tokens_from]. rewrite Nc.
    rewrite IH; [|exact Ns|].
    + now rewrite string_app_assoc.
    + rewrite string_app_assoc. exact E.
Qed.

(** [formatSegment] interleaves the literal parts with the values printed
    by [toFixed(4)]. *)
Fixpoint interleave (strings words : list string) : string :=
  match strings with
  | [] => ""
  | str :: strings' =>
      match words with
      | word :: words' => str ++ word ++ interleave strings' words'
      | [] => str ++ interleave strings' []
      end
  end.

Lemma formatSegment_interleave (strings : list string) (values : list number) :
  formatSegment strings values = interleave strings (map (toFixed 4) values).
Proof.
  unfold formatSegment.
  assert (G : forall acc index,
    fst (fold_left
      (fun (st : string * nat) (str : string) =>
         let '(acc, index) := st in
         match nth_error values index with
         | Some value => (acc ++ str ++ toFixed 4 value, S index)
         | None => (acc ++ str, S index)
         end) strings (acc, index))
    = acc ++ interleave strings (map (toFixed 4) (skipn index values))).
  { induction strings as [|str strings IH]; intros acc index.
    - cbn. now rewrite string_app_nil_r.
    - cbn [fold_left interleave].
      destruct (nth_error values index) as [v|] eqn:E.
      + rewrite IH.
        assert (Sk : skipn index values = v :: skipn (S index) values).
        { clear - E. revert index E. induction values as [|x values IHv];
            intros [|index] E; try discriminate.
          - now injection E as ->.
          - cbn [skipn]. now apply IHv. }
        rewrite Sk. cbn [map]. now rewrite !string_app_assoc.
      + rewrite IH.
        assert (Sk : skipn index values = []).
        { apply skipn_all2. now apply nth_error_None. }
        assert (Sk' : skipn (S index) values = []).
        { apply skipn_all2. apply nth_error_None in E. lia. }
        rewrite Sk, Sk'. cbn [map]. now rewrite string_app_assoc. }
  now rewrite G.
Qed.

Ltac abstract_numbers :=
  repeat match goal with
         | |- context [toFixed 4 ?v] =>
             let n := fresh "n" in
             let W := fresh "W" in
             let E := fresh "E" in
             pose proof (toFixed_no_space 4 v) as W;
             pose proof (toFixed_nonempty 4 v) as E;
             generalize dependent (toFixed 4 v); intros n W E
         | |- context [toString ?v] =>
             let n := fresh "n" in
             let W := fresh "W" in
             let E := fresh "E" in
             pose proof (toString_no_space v) as W;
             pose proof (toString_nonempty v) as E;
             generalize dependent (toString v); intros n W E
         end.

Ltac read_tokens :=
  repeat first
    [ rewrite tokens_from_app_space by reflexivity
    | rewrite string_app_nil_r
    | match goal with
      | W : no_space ?n = true |- context [tokens_from ?acc ?n] =>
          rewrite (tokens_from_word acc n)
            by first [ assumption | discriminate | (cbn; assumption) ]
      end
    | progress cbn ].

(** The tokens of the four corner segments: command letters, the literal
    zeros and arc flags, and every value as [toFixed(4)] prints it. *)
Lemma traceTopRight_tokens (k : BezierPatch) :
  tokens (traceTopRight k) =
    let F := toFixed 4 in
    if truthy (cornerRadius k) then
      ["c"; F (a k); "0"; F (a k + b k)%num; "0"; F (a k + b k + c k)%num; F (d k);
       "a"; F (cornerRadius k); F (cornerRadius k); "0"; "0"; "1";
       F (arcSectionLength k); F (arcSectionLength k);
       "c"; F (d k); F (c k); F (d k); F (b k + c k)%num;
       F (d k); F (a k + b k + c k)%num]
    else ["l"; F (p k); "0"].
Proof.
  unfold traceTopRight, tokens. cbv zeta.
  destruct (truthy (cornerRadius k)); rewrite formatSegment_interleave;
    cbn [map interleave]; abstract_numbers; read_tokens; reflexivity.
Qed.

Lemma traceBottomRight_tokens (k : BezierPatch) :
  tokens (traceBottomRight k) =
    let F := toFixed 4 in
    if truthy (cornerRadius k) then
      ["c"; "0"; F (a k); "0"; F (a k + b k)%num;
       F (- d k)%num; F (a k + b k + c k)%num;
       "a"; F (cornerRadius k); F (cornerRadius k); "0"; "0"; "1";
       "-" ++ F (arcSectionLength k); F (arcSectionLength k);
       "c"; F (- c k)%num; F (d k); F (- (b k + c k))%num; F (d k);
       F (- (a k + b k + c k))%num; F (d k)]
    else ["l"; "0"; F (p k)].
Proof.
  unfold traceBottomRight, tokens. cbv zeta.
  destruct (truthy (cornerRadius k)); rewrite formatSegment_interleave;
    cbn [map interleave]; abstract_numbers; read_tokens; reflexivity.
Qed.

Lemma traceBottomLeft_tokens (k : BezierPatch) :
  tokens (traceBottomLeft k) =
    let F := toFixed 4 in
    if truthy (cornerRadius k) then
      ["c"; F (- a k)%num; "0"; F (- (a k + b k))%num; "0";
       F (- (a k + b k + c k))%num; F (- d k)%num;
       "a"; F (cornerRadius k); F (cornerRadius k); "0"; "0"; "1";
       "-" ++ F (arcSectionLength k); "-" ++ F (arcSectionLength k);
       "c"; F (- d k)%num; F (- c k)%num; F (- d k)%num; F (- (b k + c k))%num;
       F (- d k)%num; F (- (a k + b k + c k))%num]
    else ["l"; F (- p k)%num; "0"].
Proof.
  unfold traceBottomLeft, tokens. cbv zeta.
  destruct (truthy (cornerRadius k)); rewrite formatSegment_interleave;
    cbn [map interleave]; abstract_numbers; read_tokens; reflexivity.
Qed.

Lemma traceTopLeft_tokens (k : BezierPatch) :
  tokens (traceTopLeft k) =
    let F := toFixed 4 in
    if truthy (cornerRadius k) then
      ["c"; "0"; F (- a k)%num; "0"; F (- (a k + b k))%num;
       F (d k); F (- (a k + b k + c k))%num;
       "a"; F (cornerRadius k); F (cornerRadius k); "0"; "0"; "1";
       F (arcSectionLength k); "-" ++ F (arcSectionLength k);
       "c"; F (c k); F (- d k)%num; F (b k + c k)%num; F (- d k)%num;
       F (a k + b k + c k)%num; F (- d k)%num]
    else ["l"; "0"; F (- p k)%num].
Proof.
  unfold traceTopLeft, tokens. cbv zeta.
  destruct (truthy (cornerRadius k)); rewrite formatSegment_interleave;
    cbn [map interleave]; abstract_numbers; read_tokens; reflexivity.
Qed.

(** A token of a corner segment: a command letter, a literal 0 or 1, or a
    value printed by [toFixed(4)], possibly behind a literal minus sign. *)
Definition corner_token (tok : string) : Prop :=
  is_command tok = true \/ tok = "0" \/ tok = "1" \/
  exists x : number, tok = toFixed 4 x \/ tok = "-" ++ toFixed 4 x.

Ltac corner_tokens :=
  repeat (apply Forall_cons;
          [ first [ left; reflexivity
                  | right; left; reflexivity
                  | right; right; left; reflexivity
                  | right; right; right; eexists; left; reflexivity
                  | right; right; right; eexists; right; reflexivity ] | ]);
  apply Forall_nil.

Lemma trace_corner_tokens (k : BezierPatch) :
  Forall corner_token (tokens (traceTopRight k)) /\
  Forall corner_token (tokens (traceBottomRight k)) /\
  Forall corner_token (tokens (traceBottomLeft k)) /\
  Forall corner_token (tokens (traceTopLeft k)).
Proof.
  rewrite traceTopRight_tokens, traceBottomRight_tokens,
    traceBottomLeft_tokens, traceTopLeft_tokens. cbv zeta.
  destruct (truthy (cornerRadius k)); repeat split; corner_tokens.
Qed.

(** [C7], as the code has it.  In the assembled path every number of the
    four corner segments is printed by [toFixed(4)], hence rounded to four
    decimals; the coordinates of the initial M command and of the three L
    commands are printed by the default conversion of a number to a string,
    unrounded. *)
Theorem path_tokens (i : PathParamsInput) :
  tokens (joinCornerProfiles i) =
    (["M"; toString (pp_width i - p (topRightPathParams i))%num; "0"] ++
     tokens (traceTopRight (topRightPathParams i)) ++
     ["L"; toString (pp_width i);
      toString (pp_height i - p (bottomRightPathParams i))%num] ++
     tokens (traceBottomRight (bottomRightPathParams i)) ++
     ["L"; toString (p (bottomLeftPathParams i)); toString (pp_height i)] ++
     tokens (traceBottomLeft (bottomLeftPathParams i)) ++
     ["L"; "0"; toString (p (topLeftPathParams i))] ++
     tokens (traceTopLeft (topLeftPathParams i)) ++
     ["Z"])%list
  /\ Forall corner_token (tokens (traceTopRight (topRightPathParams i)))
  /\ Forall corner_token (tokens (traceBottomRight (bottomRightPathParams i)))
  /\ Forall corner_token (tokens (traceBottomLeft (bottomLeftPathParams i)))
  /\ Forall corner_token (tokens (traceTopLeft (topLeftPathParams i))).
Proof.
  split.
  - unfold joinCornerProfiles, join, tokens. cbv zeta. cbn [String.concat].
    generalize (traceTopRight (topRightPathParams i)) as t1.
    generalize (traceBottomRight (bottomRightPathParams i)) as t2.
    generalize (traceBottomLeft (bottomLeftPathParams i)) as t3.
    generalize (traceTopLeft (topLeftPathParams i)) as t4.
    intros t4 t3 t2 t1. abstract_numbers.
    rewrite !string_app_assoc. read_tokens. reflexivity.
  - destruct (trace_corner_tokens (topRightPathParams i)) as (H1 & _).
    destruct (trace_corner_tokens (bottomRightPathParams i)) as (_ & H2 & _).
    destruct (trace_corner_tokens (bottomLeftPathParams i)) as (_ & _ & H3 & _).
    destruct (trace_corner_tokens (topLeftPathParams i)) as (_ & _ & _ & H4).
    auto.
Qed.

(** ** What [toFixed(4)] prints *)

Lemma substring_length (s : string) (n m : nat) :
  (n + m <= String.length s)%nat -> String.length (substring n m s) = m.
Proof.
  revert n m. induction s as [|ch s IH]; intros n m H; simpl in H.
  - assert (n = 0%nat /\ m = 0%nat) as [-> ->] by lia. reflexivity.
  - destruct n, m; simpl; try reflexivity.
    + rewrite IH; [reflexivity | lia].
    + apply IH. lia.
    + apply IH. lia.
Qed.

Lemma string_length_app (x y : string) :
  String.length (x ++ y) = (String.length x + String.length y)%nat.
Proof. induction x as [|ch x IH]; simpl; [reflexivity | now rewrite IH]. Qed.

Lemma zeros_length (n : nat) : String.length (zeros n) = n.
Proof. induction n; simpl; [reflexivity | now rewrite IHn]. Qed.

Lemma four_decimals_intro (pre post : string) :
  all_chars (fun ch => is_digit ch || Ascii.eqb ch "-") pre = true ->
  String.length post = 4%nat -> all_chars is_digit post = true ->
  four_decimals (pre ++ "." ++ post) = true.
Proof.
  intros Hpre Hlen Hpost. induction pre as [|ch pre IH].
  - cbn. now rewrite Hlen, Hpost.
  - cbn [all_chars] in Hpre. apply andb_prop in Hpre. destruct Hpre as [Hc Hpre].
    cbn [append four_decimals].
    destruct (Ascii.eqb ch ".") eqn:E.
    + apply Ascii.eqb_eq in E. subst ch. discriminate.
    + rewrite Hc. now apply IH.
Qed.

(** A finite value below [10^21] in magnitude is printed by [toFixed(4)]
    with exactly four digits behind the decimal point. *)
Lemma toFixed_four_decimals (q : Q) :
  Qabs q < inject_Z (10 ^ 21) -> four_decimals (toFixed 4 (Fin q)) = true.
Proof.
  intros B. unfold toFixed. rewrite (Qle_bool_flip _ _ B).
  set (m := digits (round_scaled 4 (Qabs q))).
  assert (Dm : all_chars is_digit m = true)
    by (apply all_chars_digits; auto).
  unfold place_point.
  set (m' := if Nat.leb (String.length m) 4
             then zeros (5 - String.length m) ++ m else m).
  assert (Dm' : all_chars is_digit m' = true).
  { unfold m'. destruct (Nat.leb _ _); [|assumption].
    rewrite all_chars_app, Dm, andb_true_r. apply all_chars_zeros; auto. }
  assert (Lm' : (5 <= String.length m')%nat).
  { unfold m'. destruct (Nat.leb (String.length m) 4) eqn:L.
    - apply Nat.leb_le in L. rewrite string_length_app, zeros_length. lia.
    - apply Nat.leb_gt in L. lia. }
  rewrite <- string_app_assoc.
  apply four_decimals_intro.
  - rewrite all_chars_app. apply andb_true_intro. split.
    + destruct (Qcompare q 0); reflexivity.
    + apply all_chars_substring.
      clear - Dm'. induction m' as [|ch s IH]; [reflexivity|].
      cbn [all_chars] in *. apply andb_prop in Dm'. destruct Dm' as [-> Ds].
      now rewrite IH.
  - apply substring_length. lia.
  - now apply all_chars_substring.
Qed.

(** * Concrete runs on the sample host *)

Module Examples.

Local Abbreviation hostPatches := (assembledPatches Host.sinQ Host.cosQ Host.tanQ).
Local Abbreviation hostBypassed := (bypassedPath Host.sinQ Host.cosQ Host.tanQ).

(** The regression test of the repository: one rounded corner only. *)
Definition oneCorner : SquirclePathInput :=
  request 100 100 (6 # 10) false 0 0 0 40 0.

(** The symmetric scenario of the specification. *)
Definition symmetric40 : SquirclePathInput :=
  request 100 100 (6 # 10) false 40 40 40 40 40.

Definition symmetric70 : SquirclePathInput :=
  request 100 80 (6 # 10) false 70 70 70 70 70.

Definition mixedCorners : SquirclePathInput :=
  request 100 50 (6 # 10) false 0 10 20 30 40.

Definition plain100_001 : SquirclePathInput :=
  request (100001 # 1000) 100 (6 # 10) false 0 0 0 0 0.

Definition plain100_004 : SquirclePathInput :=
  request (100004 # 1000) 100 (6 # 10) false 0 0 0 0 0.

(** Four radii that differ in the fourth decimal only. *)
Definition nearlyEqual : SquirclePathInput :=
  request 100 100 0 false 0
    (100001 # 10000) (100002 # 10000) (100003 # 10000) (100004 # 10000).

Definition wide60 : SquirclePathInput :=
  request (1000008 # 10000) 300 0 false 60 60 60 60 60.

Definition tall60 : SquirclePathInput :=
  request 100 200 0 false 60 60 60 60 60.

Definition tinyCorner : BezierPatchInput :=
  {| in_cornerRadius := Fin (4 # 10000); in_cornerSmoothing := Fin (6 # 10);
     in_preserveSmoothing := false; in_roundingAndSmoothingBudget := Fin 50 |}.

Definition squareCorner : BezierPatchInput :=
  {| in_cornerRadius := Fin 0; in_cornerSmoothing := Fin (6 # 10);
     in_preserveSmoothing := false; in_roundingAndSmoothingBudget := Fin 50 |}.

Definition allTiny : SquirclePathInput :=
  request 100 100 (6 # 10) false
    (4 # 10000) (4 # 10000) (4 # 10000) (4 # 10000) (4 # 10000).

(** Square top-left corner, the three others of radius 30. *)
Definition cornerCut : SquirclePathInput :=
  request 100 100 (6 # 10) false 30 0 30 30 30.

(** Width 100.03125, a binary fraction. *)
Definition offGrid : SquirclePathInput :=
  request (3201 # 32) 100 (6 # 10) false 40 40 40 40 40.

Example oneCorner_path :
  fst (Host.build no_caches oneCorner) =
    "M 100 0 l 0.0000 0 L 100 36 " ++ newline ++
    "    c 0 22.4021" ++ newline ++
    "      0 33.6032" ++ newline ++
    "      -4.3597 42.1596" ++ newline ++
    "    a 40.0000 40.0000 0 0 1 -17.4806 17.4806" ++ newline ++
    "    c -8.5565 4.3597" ++ newline ++
    "      -19.7575 4.3597" ++ newline ++
    "      -42.1596 4.3597 L 0 100 l 0.0000 0 L 0 0 l 0 0.0000 Z".
Proof. vm_compute. reflexivity. Qed.

(** [C1]: a patch served by the corner-profile cache was computed for a
    budget 0.0004 larger, and the two footprints on the top edge add to
    100.0008 in a box of width 100. *)
Lemma cached_footprints_overflow :
  valid_input wide60 = true /\ valid_input tall60 = true /\
  exists patches,
    hostPatches (snd (Host.build no_caches wide60)) tall60 = Some patches /\
    fst (Host.build (snd (Host.build no_caches wide60)) tall60)
      = joinCornerProfiles patches /\
    (p (topLeftPathParams patches) + p (topRightPathParams patches)
       <=? sq_width tall60)%num = false.
Proof.
  split; [reflexivity|]. split; [reflexivity|].
  eexists. split; [vm_compute; reflexivity|].
  split; vm_compute; reflexivity.
Qed.

Lemma fresh_footprints_fit_witness :
  match hostPatches no_caches mixedCorners with
  | Some patches =>
      (p (topLeftPathParams patches) + p (topRightPathParams patches)
         <=? sq_width mixedCorners)%num = true /\
      (p (bottomLeftPathParams patches) + p (bottomRightPathParams patches)
         <=? sq_width mixedCorners)%num = true /\
      (p (topLeftPathParams patches) + p (bottomLeftPathParams patches)
         <=? sq_height mixedCorners)%num = true /\
      (p (topRightPathParams patches) + p (bottomRightPathParams patches)
         <=? sq_height mixedCorners)%num = true
  | None => False
  end.
Proof.
  destruct (hostPatches no_caches mixedCorners) as [patches|] eqn:E.
  - apply (fresh_footprints_fit Host.sinQ Host.cosQ Host.tanQ
             no_caches mixedCorners patches);
      [reflexivity | vm_compute; repeat split | exact E].
  - vm_compute in E. discriminate.
Defined.

Lemma no_NaN_in_any_path_witness :
  Forall (fun path => contains "NaN" path = false)
    (replay Host.sinQ Host.cosQ Host.tanQ no_caches [oneCorner; symmetric40]).
Proof.
  apply no_NaN_in_any_path. repeat constructor.
Defined.

(** [C3]: on empty caches already, the four patches of [nearlyEqual] share
    one corner-profile key, so the patch of the first corner is drawn four
    times; the geometry itself gives four different patches. *)
Lemma cached_path_differs :
  valid_input nearlyEqual = true /\
  fst (Host.build no_caches nearlyEqual) <> hostBypassed nearlyEqual.
Proof.
  split; [reflexivity|]. intros H. apply String.eqb_eq in H.
  vm_compute in H. discriminate.
Qed.

Lemma cache_transparent_when_exact_witness :
  fst (Host.build no_caches symmetric40) = hostBypassed symmetric40.
Proof.
  apply cache_transparent_when_exact; [reflexivity|].
  vm_compute. split; exact I.
Defined.

Lemma symmetric_fast_path_on_miss_witness :
  let patch := Host.geometry
    {| in_cornerRadius := Fin 40; in_cornerSmoothing := Fin (6 # 10);
       in_preserveSmoothing := false;
       in_roundingAndSmoothingBudget := Fin 40 |} in
  fst (Host.build no_caches symmetric70) =
    joinCornerProfiles
      {| pp_width := Fin 100; pp_height := Fin 80;
         topLeftPathParams := patch; topRightPathParams := patch;
         bottomLeftPathParams := patch; bottomRightPathParams := patch |}
  /\ min (resolvedTopLeft symmetric70)
         (min (sq_width symmetric70) (sq_height symmetric70) / num 2)%num
     = (min (sq_width symmetric70) (sq_height symmetric70) / num 2)%num
  /\ (cornerRadius patch =? Fin 40)%num = true.
Proof.
  destruct (symmetric_fast_path_on_miss Host.sinQ Host.cosQ Host.tanQ
              no_caches symmetric70 eq_refl eq_refl eq_refl I)
    as (E & C & _ & _).
  split; [unfold Host.build; rewrite E; vm_compute; reflexivity|].
  split; [apply C; reflexivity | vm_compute; reflexivity].
Defined.

(** [C4]: four equal radii 60 in a box 100 wide and 200 high, so the budget
    is 50 and the effective radius should be 50.  After the request of
    width 100.0008 the patch of radius 50.0004 is cached under the same
    corner-profile key, and the call draws arcs of radius 50.0004. *)
Lemma symmetric_radius_above_budget :
  valid_input tall60 = true /\
  allRadiiEqual tall60 = true /\
  (resolvedTopLeft tall60 =? zero)%num = false /\
  (min (sq_width tall60) (sq_height tall60) / num 2 =? Fin 50)%num = true /\
  cached_hit (readCachedPath (PATH_CACHE_MAP (snd (Host.build no_caches wide60)))
                (requestCacheKey tall60)) = None /\
  exists patches,
    hostPatches (snd (Host.build no_caches wide60)) tall60 = Some patches /\
    fst (Host.build (snd (Host.build no_caches wide60)) tall60)
      = joinCornerProfiles patches /\
    (cornerRadius (topLeftPathParams patches) =? Fin (500004 # 10000))%num = true /\
    (cornerRadius (topLeftPathParams patches) <=? Fin 50)%num = false /\
    contains "a 50.0004 50.0004"
      (fst (Host.build (snd (Host.build no_caches wide60)) tall60)) = true.
Proof.
  split; [reflexivity|]. split; [reflexivity|]. split; [reflexivity|].
  split; [reflexivity|]. split; [vm_compute; reflexivity|].
  eexists. split; [vm_compute; reflexivity|].
  repeat split; vm_compute; reflexivity.
Qed.

(** [C5]: the second request has width 100.004 and four radii 0, and gets
    the rectangle of width 100.001 that the first request stored under the
    same key. *)
Lemma rectangle_stale_hit :
  fst (Host.build (snd (Host.build no_caches plain100_001)) plain100_004)
    = "M 100.001 0 L 100.001 100 L 0 100 L 0 0 Z" /\
  rectanglePath (sq_width plain100_004) (sq_height plain100_004)
    = "M 100.004 0 L 100.004 100 L 0 100 L 0 0 Z" /\
  fst (Host.build (snd (Host.build no_caches plain100_001)) plain100_004)
    <> rectanglePath (sq_width plain100_004) (sq_height plain100_004).
Proof.
  split; [vm_compute; reflexivity|]. split; [vm_compute; reflexivity|].
  intros H. apply String.eqb_eq in H. vm_compute in H. discriminate.
Qed.

Lemma rectangle_on_miss_witness :
  fst (Host.build no_caches plain100_004) = "M 100.004 0 L 100.004 100 L 0 100 L 0 0 Z".
Proof.
  unfold Host.build.
  rewrite (rectangle_on_miss Host.sinQ Host.cosQ Host.tanQ no_caches plain100_004
             eq_refl eq_refl eq_refl eq_refl eq_refl).
  vm_compute. reflexivity.
Defined.

(** [C6]: top-left corner of a box of width 100 with radii 0 except the
    bottom-right one; the top edge contributes 0, not 100, and the corner's
    budget is 0, not 50. *)
Lemma both_zero_term_not_edge_length :
  let radiusMap := {| at_topLeft := zero; at_topRight := zero;
                      at_bottomLeft := zero; at_bottomRight := Fin 40 |} in
  let budgetMap := {| at_topLeft := num (-1); at_topRight := num (-1);
                      at_bottomLeft := num (-1); at_bottomRight := num (-1) |} in
  let adjacent := {| adj_corner := topRight; adj_side := top |} in
  (adjacentTerm (Fin 100) (Fin 50) radiusMap budgetMap zero adjacent
     =? sideLength_of (adj_side adjacent) (Fin 100) (Fin 50))%num = false /\
  roundingAndSmoothingBudget
    (at_topLeft (normalizeCorners
       {| cs_topLeftCornerRadius := zero; cs_topRightCornerRadius := zero;
          cs_bottomRightCornerRadius := Fin 40; cs_bottomLeftCornerRadius := zero;
          cs_width := Fin 100; cs_height := Fin 50 |})) = zero.
Proof. split; vm_compute; reflexivity. Qed.

Lemma both_zero_term_is_zero_witness :
  adjacentTerm (Fin 100) (Fin 50)
    {| at_topLeft := zero; at_topRight := zero;
       at_bottomLeft := zero; at_bottomRight := Fin 40 |}
    {| at_topLeft := num (-1); at_topRight := num (-1);
       at_bottomLeft := num (-1); at_bottomRight := num (-1) |}
    zero {| adj_corner := topRight; adj_side := top |} = zero.
Proof. apply both_zero_term_is_zero; reflexivity. Defined.

(** [C8]: the patch of radius 0.0004 is stored under the key of radius
    0.000, and the request of radius 0 gets it back.  Through the entry
    point: after [allTiny], the square top-left corner of [cornerCut] is
    drawn as a curve. *)
Lemma degenerate_corner_stale_hit :
  (in_cornerRadius squareCorner <=? zero)%num = true /\
  (cornerRadius (fst (Host.profile (snd (Host.profile [] tinyCorner)) squareCorner))
     =? zero)%num = false /\
  traceTopRight (fst (Host.profile (snd (Host.profile [] tinyCorner)) squareCorner))
    <> "l 0.0000 0" /\
  CORNER_PROFILE_CACHE (snd (Host.build no_caches allTiny))
    = snd (Host.profile [] tinyCorner) /\
  nth_error (tokens (fst (Host.build (snd (Host.build no_caches allTiny)) cornerCut))) 78
    = Some "c" /\
  nth_error (tokens (fst (Host.build no_caches cornerCut))) 78 = Some "l".
Proof.
  split; [reflexivity|]. split; [vm_compute; reflexivity|].
  split; [|repeat split; vm_compute; reflexivity].
  intros H. apply String.eqb_eq in H. vm_compute in H. discriminate.
Qed.

Lemma degenerate_corner_on_miss_witness :
  fst (Host.profile [] squareCorner) = zeroProfile /\
  traceTopRight (fst (Host.profile [] squareCorner)) = "l 0.0000 0" /\
  traceBottomRight (fst (Host.profile [] squareCorner)) = "l 0 0.0000" /\
  traceBottomLeft (fst (Host.profile [] squareCorner)) = "l 0.0000 0" /\
  traceTopLeft (fst (Host.profile [] squareCorner)) = "l 0 0.0000".
Proof.
  apply (degenerate_corner_on_miss Host.sinQ Host.cosQ Host.tanQ [] squareCorner);
    reflexivity.
Defined.

Lemma smoothing_monotone_on_miss_witness :
  let first := fst (Host.profile [] (smoothingInput 40 50 (1 # 10))) in
  let second := fst (Host.profile [] (smoothingInput 40 50 (6 # 10))) in
  (arcMeasure (smoothingInput 40 50 (6 # 10)) <=?
     arcMeasure (smoothingInput 40 50 (1 # 10)))%num = true
  /\ arcSectionLength first =
       (Math_sin Host.sinQ
          (degToRad (arcMeasure (smoothingInput 40 50 (1 # 10)) / num 2))
        * Fin 40 * Math_SQRT2)%num
  /\ arcSectionLength second =
       (Math_sin Host.sinQ
          (degToRad (arcMeasure (smoothingInput 40 50 (6 # 10)) / num 2))
        * Fin 40 * Math_SQRT2)%num
  /\ (p first <=? p second)%num = true
  /\ (p second <=? Fin 50)%num = true
  /\ (50 <= (1 + (6 # 10)) * 40 -> (p second =? Fin 50)%num = true).
Proof.
  apply (smoothing_monotone_on_miss Host.sinQ Host.cosQ Host.tanQ [] []
           40 50 (1 # 10) (6 # 10));
    first [lra | reflexivity].
Defined.

(** [C9]: radius 10, budget 50, preserve flag off.  Once the patch of
    radius 10.0004 and smoothing 0.10004 is cached, the call with smoothing
    0.10004 finds it under its own key and returns its footprint
    11.00084..., while the call with the larger smoothing 0.10006 misses
    and returns 11.0006: the footprint decreases. *)
Definition staleProfiles : JsMap.t BezierPatch :=
  snd (Host.profile [] (smoothingInput (100004 # 10000) 50 (10004 # 100000))).

Lemma stale_patch_breaks_monotonicity :
  let low := smoothingInput 10 50 (10004 # 100000) in
  let high := smoothingInput 10 50 (10006 # 100000) in
  let first := Host.profile staleProfiles low in
  let second := Host.profile (snd first) high in
  cornerProfileCacheKey low = "10.000|0.1000|0|50.000" /\
  JsMap.has staleProfiles (cornerProfileCacheKey low) = true /\
  JsMap.has (snd first) (cornerProfileCacheKey high) = false /\
  (in_cornerSmoothing low <=? in_cornerSmoothing high)%num = true /\
  (p (fst first) <=? p (fst second))%num = false /\
  (p (fst second) =? Fin (110006 # 10000))%num = true /\
  (Fin (110008 # 10000) <=? p (fst first))%num = true.
Proof. repeat split; vm_compute; reflexivity. Qed.


(** [C7]: the x coordinate of the M command is printed with five decimals;
    [toFixed(4)] would print 50.0313. *)
Lemma move_coordinate_not_rounded :
  valid_input offGrid = true /\
  nth_error (tokens (fst (Host.build no_caches offGrid))) 0 = Some "M" /\
  nth_error (tokens (fst (Host.build no_caches offGrid))) 1 = Some "50.03125" /\
  four_decimals "50.03125" = false /\
  toFixed 4 (Fin (3201 # 32) - Fin 50)%num = "50.0313".
Proof. repeat split; vm_compute; reflexivity. Qed.

End Examples.

(** * Further properties of the caches *)

(** The state after a sequence of calls. *)
Definition runCalls (sinQ cosQ tanQ : Q -> Q) (st : Caches)
  (calls : list SquirclePathInput) : Caches :=
  fold_left (fun st i => snd (buildSquirclePath sinQ cosQ tanQ st i)) calls st.

Lemma JsMap_get_has {V} (m : JsMap.t V) (k : string) :
  JsMap.has m k = false <-> JsMap.get m k = None.
Proof. unfold JsMap.has. destruct (JsMap.get m k); split; congruence. Qed.

Lemma JsMap_set_absent {V} (m : JsMap.t V) (k : string) (v : V) :
  JsMap.get m k = None -> JsMap.set m k v = (m ++ [(k, v)])%list.
Proof.
  induction m as [|[k' v'] m IH]; simpl; [reflexivity|].
  destruct (String.eqb k' k); [discriminate|]. intros H. now rewrite IH.
Qed.

Lemma JsMap_set_size {V} (m : JsMap.t V) (k : string) (v : V) :
  JsMap.size (JsMap.set m k v) =
    if JsMap.has m k then JsMap.size m else S (JsMap.size m).
Proof.
  unfold JsMap.has, JsMap.size.
  induction m as [|[k' v'] m IH]; simpl; [reflexivity|].
  destruct (String.eqb k' k); simpl; [reflexivity|].
  rewrite IH. now destruct (JsMap.get m k).
Qed.

Lemma JsMap_delete_absent {V} (m : JsMap.t V) (k k' : string) :
  JsMap.get m k = None -> JsMap.get (JsMap.delete m k') k = None.
Proof.
  induction m as [|[k0 v0] m IH]; simpl; [reflexivity|].
  destruct (String.eqb k0 k) eqn:E; [discriminate|]. intros H.
  destruct (String.eqb k0 k'); simpl; [assumption|]. now rewrite E, IH.
Qed.

Lemma storeCachedPath_size (cache : JsMap.t string) (key value : string) :
  (JsMap.size cache <= PATH_CACHE_LIMIT)%nat ->
  (JsMap.size (storeCachedPath cache key value) <= PATH_CACHE_LIMIT)%nat.
Proof.
  intros B. unfold storeCachedPath. rewrite JsMap_set_size.
  destruct (Nat.leb PATH_CACHE_LIMIT (JsMap.size cache)) eqn:L.
  - apply Nat.leb_le in L. destruct (JsMap.has cache key) eqn:H; cbn [andb negb].
    + now rewrite H.
    + destruct cache as [|[k0 v0] rest]; [simpl in L; unfold PATH_CACHE_LIMIT in L; lia|].
      cbn [JsMap.first_key JsMap.delete]. rewrite String.eqb_refl.
      apply JsMap_get_has in H.
      assert (A : JsMap.has rest key = false).
      { apply JsMap_get_has. simpl in H. now destruct (String.eqb k0 key). }
      rewrite A. unfold JsMap.size in *. simpl in B. lia.
  - apply Nat.leb_gt in L. cbn [andb].
    destruct (JsMap.has cache key); lia.
Qed.

(** X1.  Whatever the requests are, a sequence of calls started on empty
    caches never leaves more than [PATH_CACHE_LIMIT] paths in the path
    cache. *)
Theorem path_cache_bounded (sinQ cosQ tanQ : Q -> Q)
  (calls : list SquirclePathInput) :
  (JsMap.size (PATH_CACHE_MAP (runCalls sinQ cosQ tanQ no_caches calls))
   <= PATH_CACHE_LIMIT)%nat.
Proof.
  unfold runCalls.
  assert (G : forall st,
    (JsMap.size (PATH_CACHE_MAP st) <= PATH_CACHE_LIMIT)%nat ->
    (JsMap.size (PATH_CACHE_MAP
       (fold_left (fun st i => snd (buildSquirclePath sinQ cosQ tanQ st i)) calls st))
     <= PATH_CACHE_LIMIT)%nat).
  { induction calls as [|i calls IH]; intros st B; [exact B|].
    cbn [fold_left]. apply IH.
    destruct (cached_hit (readCachedPath (PATH_CACHE_MAP st) (requestCacheKey i)))
      as [cached|] eqn:E.
    - now rewrite (buildSquirclePath_hit _ _ _ _ _ _ E).
    - rewrite (buildSquirclePath_miss _ _ _ _ _ E). unfold computedPath.
      destruct (patchesWith _ _ i) as [patches profiles]. cbn [snd PATH_CACHE_MAP].
      now apply storeCachedPath_size. }
  apply G. unfold PATH_CACHE_LIMIT. cbn. lia.
Qed.

(** X2.  Storing a path under a new key in a full cache drops exactly the
    oldest entry and appends the new one: eviction is by insertion order. *)
Theorem storeCachedPath_evicts_oldest
  (oldest first : string) (rest : JsMap.t string) (key value : string) :
  (PATH_CACHE_LIMIT <= JsMap.size ((oldest, first) :: rest))%nat ->
  JsMap.get ((oldest, first) :: rest) key = None ->
  storeCachedPath ((oldest, first) :: rest) key value
  = (rest ++ [(key, value)])%list.
Proof.
  intros L A. unfold storeCachedPath.
  apply Nat.leb_le in L. rewrite L.
  rewrite (proj2 (JsMap_get_has _ _) A). cbn [andb negb JsMap.first_key JsMap.delete].
  rewrite String.eqb_refl. apply JsMap_set_absent.
  simpl in A. now destruct (String.eqb oldest key).
Qed.

(** X3.  Storing a path in a cache that is not full, or under a key already
    present, leaves what is read under every other key as it was. *)
Theorem storeCachedPath_keeps_others
  (cache : JsMap.t string) (key value other : string) :
  (JsMap.size cache < PATH_CACHE_LIMIT)%nat \/ JsMap.has cache key = true ->
  other <> key ->
  readCachedPath (storeCachedPath cache key value) other
  = readCachedPath cache other.
Proof.
  intros C N. unfold readCachedPath, storeCachedPath.
  assert (E : (Nat.leb PATH_CACHE_LIMIT (JsMap.size cache)
              && negb (JsMap.has cache key))%bool = false).
  { destruct C as [C| ->]; [|apply andb_false_r].
    apply andb_false_iff. left. apply Nat.leb_gt. exact C. }
  rewrite E. apply JsMap_get_set_other. congruence.
Qed.

Section ProfileCache.

Variables sinQ cosQ tanQ : Q -> Q.

Local Abbreviation build := (buildSquirclePath sinQ cosQ tanQ).
Local Abbreviation cachedProfile := (computeCornerProfile sinQ cosQ tanQ).

Lemma computeCornerProfile_keeps cache q k v :
  JsMap.get cache k = Some v ->
  JsMap.get (snd (cachedProfile cache q)) k = Some v.
Proof.
  intros H. unfold computeCornerProfile.
  destruct (JsMap.get cache (cornerProfileCacheKey q)) eqn:E; cbn [snd]; [exact H|].
  rewrite JsMap_get_set_other; [exact H|]. congruence.
Qed.

Lemma computeCornerProfile_stored cache q :
  JsMap.get (snd (cachedProfile cache q)) (cornerProfileCacheKey q)
  = Some (fst (cachedProfile cache q)).
Proof.
  unfold computeCornerProfile.
  destruct (JsMap.get cache (cornerProfileCacheKey q)) eqn:E; cbn [fst snd].
  - exact E.
  - apply JsMap_get_set.
Qed.

(** X4.  The corner-profile cache only grows: a call of [buildSquirclePath]
    never removes or replaces a patch that is already cached. *)
Theorem profile_cache_keeps_entries (st : Caches) (i : SquirclePathInput)
  (k : string) (v : BezierPatch) :
  JsMap.get (CORNER_PROFILE_CACHE st) k = Some v ->
  JsMap.get (CORNER_PROFILE_CACHE (snd (build st i))) k = Some v.
Proof.
  intros H.
  destruct (cached_hit (readCachedPath (PATH_CACHE_MAP st) (requestCacheKey i)))
    as [cached|] eqn:E.
  - now rewrite (buildSquirclePath_hit _ _ _ _ _ _ E).
  - rewrite (buildSquirclePath_miss _ _ _ _ _ E). unfold computedPath, patchesWith.
    destruct (allRadiiEqual i).
    + destruct (resolvedTopLeft i =? zero)%num; cbn [snd CORNER_PROFILE_CACHE];
        [exact H|].
      pose proof (computeCornerProfile_keeps _ (symmetricInput i) _ _ H) as K.
      destruct (cachedProfile _ (symmetricInput i)) as [patch c1].
      exact K.
    + pose proof (computeCornerProfile_keeps _
        (patchInput i (at_topLeft (normalizedCorners i))) _ _ H) as K1.
      destruct (cachedProfile (CORNER_PROFILE_CACHE st) _) as [tl c1].
      cbn [snd] in K1.
      pose proof (computeCornerProfile_keeps _
        (patchInput i (at_topRight (normalizedCorners i))) _ _ K1) as K2.
      destruct (cachedProfile c1 _) as [tr c2]. cbn [snd] in K2.
      pose proof (computeCornerProfile_keeps _
        (patchInput i (at_bottomRight (normalizedCorners i))) _ _ K2) as K3.
      destruct (cachedProfile c2 _) as [br c3]. cbn [snd] in K3.
      pose proof (computeCornerProfile_keeps _
        (patchInput i (at_bottomLeft (normalizedCorners i))) _ _ K3) as K4.
      destruct (cachedProfile c3 _) as [bl c4]. cbn [snd] in K4.
      exact K4.
Qed.

(** X5.  Once a patch has been computed or found for an input, every
    input with the same corner-profile key gets that same patch, and the
    lookup leaves the cache unchanged. *)
Theorem computeCornerProfile_same_key cache q q' :
  cornerProfileCacheKey q' = cornerProfileCacheKey q ->
  cachedProfile (snd (cachedProfile cache q)) q'
  = (fst (cachedProfile cache q), snd (cachedProfile cache q)).
Proof.
  intros K. pose proof (computeCornerProfile_stored cache q) as S.
  rewrite <- K in S. unfold computeCornerProfile at 1. now rewrite S.
Qed.

End ProfileCache.

(** * The cache keys *)

Definition no_bar (s : string) : bool :=
  all_chars (fun ch => negb (Ascii.eqb ch "|")) s.

Lemma numeral_not_bar (ch : ascii) :
  numeral_char ch = true -> negb (Ascii.eqb ch "|") = true.
Proof.
  intros H. destruct (Ascii.eqb ch "|") eqn:E; [|reflexivity].
  apply Ascii.eqb_eq in E. subst ch. discriminate.
Qed.

Lemma toFixed_no_bar (k : nat) (x : number) : no_bar (toFixed k x) = true.
Proof.
  destruct x as [q| | |]; try reflexivity.
  apply all_chars_toFixed, numeral_not_bar.
Qed.

(** Two strings cut at their first bar: equal wholes have equal parts. *)
Lemma split_at_bar (x y rest rest' : string) :
  no_bar x = true -> no_bar y = true ->
  x ++ String "|" rest = y ++ String "|" rest' ->
  x = y /\ rest = rest'.
Proof.
  revert y. induction x as [|ch x IH]; intros [|ch' y] Hx Hy E.
  - simpl in E. injection E as E. auto.
  - simpl in E. injection E as E _. subst ch'. discriminate.
  - simpl in E. injection E as E _. subst ch. discriminate.
  - unfold no_bar in *. cbn [all_chars] in Hx, Hy.
    apply andb_prop in Hx. destruct Hx as [_ Hx].
    apply andb_prop in Hy. destruct Hy as [_ Hy].
    simpl in E. injection E as -> E.
    destruct (IH y Hx Hy E) as [-> ->]. auto.
Qed.

Lemma flag_injective (f g : bool) (rest rest' : string) :
  (if f then "1" else "0") ++ String "|" rest
  = (if g then "1" else "0") ++ String "|" rest' ->
  f = g /\ rest = rest'.
Proof. destruct f, g; simpl; intros E; injection E; auto; discriminate. Qed.

Ltac split_key E :=
  repeat match type of E with
         | (if _ then _ else _) ++ String "|" _ = _ =>
             let H := fresh "K" in
             apply flag_injective in E; destruct E as [H E]
         | _ ++ String "|" _ = _ =>
             let H := fresh "K" in
             apply split_at_bar in E; [destruct E as [H E] | apply toFixed_no_bar ..]
         end.

(** X6.  The path-cache key determines its nine components: two requests
    have the same key only if they agree on the preserve flag and on every
    rounded number the key is made of. *)
Theorem composeCacheKey_injective
  (w h s : number) (pr : bool) (base tl tr br bl : number)
  (w' h' s' : number) (pr' : bool) (base' tl' tr' br' bl' : number) :
  composeCacheKey w h s pr base tl tr br bl
  = composeCacheKey w' h' s' pr' base' tl' tr' br' bl' ->
  toFixed 2 w = toFixed 2 w' /\ toFixed 2 h = toFixed 2 h' /\
  toFixed 4 s = toFixed 4 s' /\ pr = pr' /\
  toFixed 2 base = toFixed 2 base' /\
  toFixed 2 tl = toFixed 2 tl' /\ toFixed 2 tr = toFixed 2 tr' /\
  toFixed 2 br = toFixed 2 br' /\ toFixed 2 bl = toFixed 2 bl'.
Proof.
  unfold composeCacheKey, join. cbn [String.concat].
  change "|"%string with (String "|" ""). cbn [append].
  intros E. split_key E. auto 12.
Qed.

(** X7.  Likewise the corner-profile key determines the rounded radius,
    smoothing factor and budget and the preserve flag. *)
Theorem cornerProfileCacheKey_injective (q q' : BezierPatchInput) :
  cornerProfileCacheKey q = cornerProfileCacheKey q' ->
  toFixed 3 (in_cornerRadius q) = toFixed 3 (in_cornerRadius q') /\
  toFixed 4 (in_cornerSmoothing q) = toFixed 4 (in_cornerSmoothing q') /\
  in_preserveSmoothing q = in_preserveSmoothing q' /\
  toFixed 3 (in_roundingAndSmoothingBudget q)
  = toFixed 3 (in_roundingAndSmoothingBudget q').
Proof.
  unfold cornerProfileCacheKey, join. cbn [String.concat].
  change "|"%string with (String "|" ""). cbn [append].
  intros E. split_key E. auto.
Qed.

(** * The processing order of the normalizer *)

Definition entry_radius_ge (x y : CornerId * number) : Prop :=
  (snd y <=? snd x)%num = true.

Definition finite_entry (x : CornerId * number) : Prop :=
  is_finite (snd x) = true.

Lemma sort_insert_perm x l : Permutation (x :: l) (sort_insert x l).
Proof.
  induction l as [|y l IH]; simpl; [apply Permutation_refl|].
  destruct (_ >? _)%num; [|apply Permutation_refl].
  eapply perm_trans; [apply perm_swap|]. now apply perm_skip.
Qed.

Lemma gtb_diff_false (u v : Q) :
  ((Fin v - Fin u)%num >? zero)%num = false -> v <= u.
Proof.
  unfold gtb, ltb, sub. simpl. intros H.
  apply andb_false_iff in H. destruct H as [H|H].
  - qbool. lra.
  - apply negb_false_iff in H. qbool. lra.
Qed.

Lemma gtb_diff_true (u v : Q) :
  ((Fin v - Fin u)%num >? zero)%num = true -> u < v.
Proof.
  unfold gtb, ltb, sub. simpl. intros H.
  apply andb_prop in H. destruct H as [L N]. apply negb_true_iff in N.
  qbool. destruct (Qlt_le_dec u v) as [G|G]; [exact G|].
  exfalso. apply N. lra.
Qed.

Lemma sort_insert_sorted x l :
  finite_entry x -> Forall finite_entry l ->
  StronglySorted entry_radius_ge l ->
  StronglySorted entry_radius_ge (sort_insert x l).
Proof.
  intros Fx Fl S. induction S as [|y l S IH Hy]; simpl.
  - repeat constructor.
  - inversion Fl as [|? ? Fy Fl']; subst.
    destruct (finite_inv _ Fx) as (u & Eu).
    destruct (finite_inv _ Fy) as (v & Ev).
    destruct (_ >? _)%num eqn:C; rewrite Eu, Ev in C.
    + apply gtb_diff_true in C. constructor; [now apply IH|].
      assert (P : Permutation (x :: l) (sort_insert x l)) by apply sort_insert_perm.
      apply Forall_forall. intros z Hz.
      apply (Permutation_in _ (Permutation_sym P)) in Hz.
      destruct Hz as [<-|Hz].
      * unfold entry_radius_ge. rewrite Eu, Ev. simpl. apply Qle_bool_true. lra.
      * rewrite Forall_forall in Hy. now apply Hy.
    + apply gtb_diff_false in C. constructor; [now constructor|].
      constructor.
      * unfold entry_radius_ge. rewrite Eu, Ev. simpl. now apply Qle_bool_true.
      * rewrite Forall_forall in *. intros z Hz. specialize (Hy z Hz).
        unfold entry_radius_ge in *. rewrite Eu. rewrite Ev in Hy.
        destruct (snd z); simpl in *; try discriminate; try reflexivity.
        qbool. apply Qle_bool_true. lra.
Qed.

Lemma sort_by_radius_perm l : Permutation l (sort_by_radius l).
Proof.
  induction l as [|x l IH]; simpl; [constructor|].
  eapply perm_trans; [|apply sort_insert_perm]. now apply perm_skip.
Qed.

Lemma sort_insert_filter_out (f : CornerId * number -> bool) x l :
  f x = false -> filter f (sort_insert x l) = filter f l.
Proof.
  intros H. induction l as [|y l IH]; cbn [sort_insert filter].
  - now rewrite H.
  - destruct (_ >? _)%num; cbn [filter]; [now rewrite IH | now rewrite H].
Qed.

Lemma sort_insert_filter_in (f : CornerId * number -> bool) x l :
  (forall y, In y l -> ((snd y - snd x)%num >? zero)%num = true -> f y = false) ->
  filter f (sort_insert x l) = filter f (x :: l).
Proof.
  induction l as [|y l IH]; intros H; [reflexivity|].
  cbn [sort_insert]. destruct (_ >? _)%num eqn:C; [|reflexivity].
  cbn [filter]. rewrite (H y (or_introl eq_refl) C).
  rewrite IH; [reflexivity|]. intros z Hz. apply H. now right.
Qed.

(** X8.  For finite radii the normalizer visits the corners in descending
    order of requested radius, each entry once, and entries with the same
    radius in the order in which the record lists them (topLeft, topRight,
    bottomLeft, bottomRight). *)
Theorem sort_by_radius_descending_stable (l : list (CornerId * number)) :
  Forall finite_entry l ->
  Permutation l (sort_by_radius l) /\
  StronglySorted entry_radius_ge (sort_by_radius l) /\
  forall r : number,
    filter (fun e => (snd e =? r)%num) (sort_by_radius l)
    = filter (fun e => (snd e =? r)%num) l.
Proof.
  intros F. split; [apply sort_by_radius_perm|]. split.
  - induction F as [|x l Fx Fl IH]; simpl; [constructor|].
    apply sort_insert_sorted; try assumption.
    apply Forall_forall. intros z Hz.
    apply (Permutation_in _ (Permutation_sym (sort_by_radius_perm l))) in Hz.
    rewrite Forall_forall in Fl. now apply Fl.
  - intros r. induction F as [|x l Fx Fl IH]; [reflexivity|].
    cbn [sort_by_radius fold_right]. fold (sort_by_radius l).
    destruct (snd x =? r)%num eqn:X.
    + rewrite sort_insert_filter_in.
      * cbn [filter]. now rewrite X, IH.
      * intros y Hy C.
        apply (Permutation_in _ (Permutation_sym (sort_by_radius_perm l))) in Hy.
        rewrite Forall_forall in Fl. specialize (Fl y Hy).
        destruct (finite_inv _ Fx) as (u & Eu).
        destruct (finite_inv _ Fl) as (v & Ev).
        rewrite Eu, Ev in C. apply gtb_diff_true in C.
        rewrite Eu in X. rewrite Ev.
        destruct r as [q| | |]; simpl in *; try discriminate.
        qbool. apply Qeq_bool_neq. lra.
    + rewrite sort_insert_filter_out by exact X.
      cbn [filter]. now rewrite X, IH.
Qed.

(** * The contract of the normalizer *)

(** The radius requested for a corner. *)
Definition requestedRadius (i : CornerSpreadInput) (corner : CornerId) : number :=
  match corner with
  | topLeft => cs_topLeftCornerRadius i
  | topRight => cs_topRightCornerRadius i
  | bottomLeft => cs_bottomLeftCornerRadius i
  | bottomRight => cs_bottomRightCornerRadius i
  end.

Section NormalizerContract.

Variables w h : Q.
Hypothesis w_nonneg : 0 <= w.
Hypothesis h_nonneg : 0 <= h.
Variable req : CornerId -> Q.
Hypothesis req_nonneg : forall corner, 0 <= req corner.

Definition requestedMap : CornerRecord number :=
  {| at_topLeft := Fin (req topLeft); at_topRight := Fin (req topRight);
     at_bottomLeft := Fin (req bottomLeft); at_bottomRight := Fin (req bottomRight) |}.

Definition unresolvedMap : CornerRecord number :=
  {| at_topLeft := num (-1); at_topRight := num (-1);
     at_bottomLeft := num (-1); at_bottomRight := num (-1) |}.

Definition spreadInput : CornerSpreadInput :=
  {| cs_topLeftCornerRadius := Fin (req topLeft);
     cs_topRightCornerRadius := Fin (req topRight);
     cs_bottomRightCornerRadius := Fin (req bottomRight);
     cs_bottomLeftCornerRadius := Fin (req bottomLeft);
     cs_width := Fin w; cs_height := Fin h |}.

Definition processingOrder : list (CornerId * number) :=
  sort_by_radius (corner_entries requestedMap).

Lemma requestedMap_get corner : corner_get requestedMap corner = Fin (req corner).
Proof. now destruct corner. Qed.

Lemma initial_maps_ok : maps_ok w h (requestedMap, unresolvedMap).
Proof.
  intros corner. split.
  - exists (req corner), (-1). cbn [fst snd]. rewrite requestedMap_get.
    split; [reflexivity|]. split; [now destruct corner|].
    split; [apply req_nonneg|]. left. lra.
  - intros adjacent bx by_ _ Hx _ Px _. exfalso.
    destruct corner; cbn in Hx; injection Hx as <-; unfold inject_Z in Px; lra.
Qed.

Lemma processingOrder_entries e :
  In e processingOrder -> snd e = Fin (req (fst e)).
Proof.
  unfold processingOrder. intros I.
  apply (proj1 (sort_by_radius_In _ _)) in I.
  unfold corner_entries in I. cbn [In] in I.
  destruct I as [<-|[<-|[<-|[<-|[]]]]]; reflexivity.
Qed.

Lemma processingOrder_complete corner : In corner (map fst processingOrder).
Proof.
  apply in_map_iff. exists (corner, Fin (req corner)). split; [reflexivity|].
  apply (proj2 (sort_by_radius_In _ _)). destruct corner; cbn; auto.
Qed.

Lemma normalizeCorners_fold :
  normalizeCorners spreadInput =
    let maps := fold_left (resolveCorner (Fin w) (Fin h)) processingOrder
                  (requestedMap, unresolvedMap) in
    {| at_topLeft := {| radius := at_topLeft (fst maps);
                        roundingAndSmoothingBudget := at_topLeft (snd maps) |};
       at_topRight := {| radius := at_topRight (fst maps);
                         roundingAndSmoothingBudget := at_topRight (snd maps) |};
       at_bottomLeft := {| radius := at_bottomLeft (fst maps);
                           roundingAndSmoothingBudget := at_bottomLeft (snd maps) |};
       at_bottomRight := {| radius := at_bottomRight (fst maps);
                            roundingAndSmoothingBudget := at_bottomRight (snd maps) |} |}.
Proof.
  unfold normalizeCorners, processingOrder, requestedMap, unresolvedMap, spreadInput.
  cbn [cs_topLeftCornerRadius cs_topRightCornerRadius
       cs_bottomRightCornerRadius cs_bottomLeftCornerRadius cs_width cs_height].
  now destruct (fold_left _ _ _).
Qed.

Lemma normalizeCorners_get corner :
  radius (corner_get (normalizeCorners spreadInput) corner)
  = corner_get (fst (fold_left (resolveCorner (Fin w) (Fin h)) processingOrder
                       (requestedMap, unresolvedMap))) corner /\
  roundingAndSmoothingBudget (corner_get (normalizeCorners spreadInput) corner)
  = corner_get (snd (fold_left (resolveCorner (Fin w) (Fin h)) processingOrder
                       (requestedMap, unresolvedMap))) corner.
Proof. rewrite normalizeCorners_fold. now destruct corner. Qed.

(** A resolved radius is at most the requested one and at most the budget. *)
Definition radii_ok (maps : CornerRecord number * CornerRecord number) : Prop :=
  forall corner, exists rv bv,
    corner_get (fst maps) corner = Fin rv /\
    corner_get (snd maps) corner = Fin bv /\
    rv <= req corner /\ (0 <= bv -> rv <= bv).

Lemma resolveCorner_radii maps corner :
  maps_ok w h maps -> radii_ok maps ->
  radii_ok (resolveCorner (Fin w) (Fin h) maps (corner, Fin (req corner))).
Proof.
  destruct maps as [radiusMap budgetMap]. intros OK R.
  destruct (budget_spec w h w_nonneg h_nonneg _ _ (req corner) corner OK
              (req_nonneg corner)) as (bv & E & L & _).
  unfold resolveCorner. rewrite E.
  intros other. cbn [fst snd]. destruct (CornerId_eq_dec corner other) as [<-|N].
  - rewrite !corner_get_set_same. simpl.
    destruct (Qle_bool (req corner) bv) eqn:C; qbool;
      eexists; eexists; (split; [reflexivity|]); (split; [reflexivity|]);
      split; try lra; intros _; lra.
  - rewrite !corner_get_set_other by assumption. apply (R other).
Qed.

Lemma resolve_all_radii entries maps :
  (forall e, In e entries -> snd e = Fin (req (fst e))) ->
  maps_ok w h maps -> radii_ok maps ->
  radii_ok (fold_left (resolveCorner (Fin w) (Fin h)) entries maps).
Proof.
  revert maps. induction entries as [|[corner x] entries IH]; intros maps E OK R.
  - exact R.
  - pose proof (E (corner, x) (or_introl eq_refl)) as Ex. cbn [fst snd] in Ex.
    subst x. cbn [fold_left]. apply IH.
    + intros e I. apply E. now right.
    + apply (resolveCorner_ok w h w_nonneg h_nonneg maps corner (req corner) OK
               (req_nonneg corner)).
    + now apply resolveCorner_radii.
Qed.

Lemma processingOrder_nonneg e :
  In e processingOrder -> exists r, snd e = Fin r /\ 0 <= r.
Proof.
  intros I. exists (req (fst e)). split; [now apply processingOrder_entries|].
  apply req_nonneg.
Qed.

(** What the normalizer returns for a corner, in rationals. *)
Lemma normalizeCorners_corner corner :
  exists rv bv,
    radius (corner_get (normalizeCorners spreadInput) corner) = Fin rv /\
    roundingAndSmoothingBudget (corner_get (normalizeCorners spreadInput) corner)
    = Fin bv /\
    0 <= rv /\ rv <= req corner /\ rv <= bv /\ bv <= w /\ bv <= h /\
    forall adjacent bv',
      In adjacent (ADJACENT_RELATIONS corner) ->
      roundingAndSmoothingBudget
        (corner_get (normalizeCorners spreadInput) (adj_corner adjacent)) = Fin bv' ->
      bv + bv' <= side_q w h (adj_side adjacent).
Proof.
  destruct (normalizeCorners_get corner) as [-> ->].
  destruct (resolve_all_ok w h w_nonneg h_nonneg processingOrder _
              processingOrder_nonneg initial_maps_ok) as (OK & Res).
  pose proof (resolve_all_radii processingOrder _ processingOrder_entries
                initial_maps_ok) as R.
  assert (R0 : radii_ok (requestedMap, unresolvedMap)).
  { intros c. exists (req c), (-1). cbn [fst snd]. rewrite requestedMap_get.
    split; [reflexivity|]. split; [now destruct c|]. split; lra. }
  specialize (R R0).
  set (maps := fold_left _ _ _) in *.
  destruct (proj1 (OK corner)) as (rv & bv & Hr & Hb & Rv & Bv).
  destruct (Res corner (or_intror (processingOrder_complete corner)))
    as (bv1 & Hb1 & P1).
  destruct (R corner) as (rv2 & bv2 & Hr2 & Hb2 & Q2 & S2).
  rewrite Hb in Hb1, Hb2. injection Hb1 as <-. injection Hb2 as <-.
  rewrite Hr in Hr2. injection Hr2 as <-.
  exists rv, bv. split; [exact Hr|]. split; [exact Hb|].
  destruct Bv as [Bv|(_ & Bw & Bh)]; [lra|].
  repeat (split; [first [assumption | now apply S2]|]).
  intros adjacent bv' I Hb'.
  destruct (normalizeCorners_get (adj_corner adjacent)) as [_ E]. rewrite E in Hb'.
  fold maps in Hb'.
  destruct (Res (adj_corner adjacent)
              (or_intror (processingOrder_complete (adj_corner adjacent))))
    as (bv3 & Hb3 & P3).
  rewrite Hb' in Hb3. injection Hb3 as <-.
  exact (proj2 (OK corner) adjacent bv bv' I Hb Hb' P1 P3).
Qed.

End NormalizerContract.

Definition requestedQ (tl tr br bl : Q) (corner : CornerId) : Q :=
  match corner with
  | topLeft => tl
  | topRight => tr
  | bottomLeft => bl
  | bottomRight => br
  end.


Section NormalizerFit.

Variables w h : Q.
Hypothesis w_nonneg : 0 <= w.
Hypothesis h_nonneg : 0 <= h.
Variable req : CornerId -> Q.
Hypothesis req_nonneg : forall corner, 0 <= req corner.
Hypothesis req_fit :
  forall corner adjacent,
    In adjacent (ADJACENT_RELATIONS corner) ->
    req corner + req (adj_corner adjacent) <= side_q w h (adj_side adjacent).

(** Radii are untouched; a resolved budget leaves room for the requested
    radius of the corner and of both neighbours. *)
Definition fit_ok (maps : CornerRecord number * CornerRecord number) : Prop :=
  forall corner,
    corner_get (fst maps) corner = Fin (req corner) /\
    exists bv,
      corner_get (snd maps) corner = Fin bv /\
      (bv < 0 \/
       (req corner <= bv /\
        forall adjacent,
          In adjacent (ADJACENT_RELATIONS corner) ->
          bv + req (adj_corner adjacent) <= side_q w h (adj_side adjacent))).

Lemma fit_term radiusMap budgetMap corner adjacent :
  fit_ok (radiusMap, budgetMap) ->
  In adjacent (ADJACENT_RELATIONS corner) ->
  exists t,
    adjacentTerm (Fin w) (Fin h) radiusMap budgetMap (Fin (req corner)) adjacent
    = Fin t /\
    req corner <= t /\
    t + req (adj_corner adjacent) <= side_q w h (adj_side adjacent).
Proof.
  intros F I.
  destruct (F (adj_corner adjacent)) as (Hr & ba & Hb & Ba). cbn [fst snd] in Hr, Hb.
  pose proof (req_nonneg corner) as R.
  pose proof (req_nonneg (adj_corner adjacent)) as RA.
  pose proof (req_fit corner adjacent I) as Fit.
  unfold adjacentTerm. rewrite Hr, Hb, sideLength_of_fin. simpl.
  destruct (Qeq_bool (req corner) 0 && Qeq_bool (req (adj_corner adjacent)) 0)%bool eqn:Z.
  - apply andb_prop in Z. destruct Z as [Z1 Z2]. qbool.
    exists 0. split; [reflexivity|]. split; lra.
  - unfold geb; simpl. destruct (Qle_bool 0 ba) eqn:P.
    + qbool. destruct Ba as [Ba|(Ba & Bs)]; [lra|].
      destruct (adjacent_sym w h _ _ I) as (back & Ib & Cb & Sb).
      specialize (Bs back Ib). rewrite Cb, Sb in Bs.
      unfold sub; simpl. eexists; split; [reflexivity|]. split; lra.
    + assert (S : 0 < req corner + req (adj_corner adjacent)).
      { apply andb_false_iff in Z. destruct Z as [Z|Z]; qbool; lra. }
      rewrite (Qeq_bool_neq (req corner + req (adj_corner adjacent)) 0) by lra.
      eexists; split; [reflexivity|].
      set (sd := side_q w h (adj_side adjacent)) in *.
      set (x := req corner) in *. set (y := req (adj_corner adjacent)) in *.
      assert (E : x / (x + y) * (x + y) == x) by (field; lra).
      set (q := x / (x + y)) in *. clearbody q.
      assert (0 <= q) by nra. assert (q <= 1) by nra.
      split; nra.
Qed.

Lemma fit_step maps corner :
  fit_ok maps ->
  fit_ok (resolveCorner (Fin w) (Fin h) maps (corner, Fin (req corner))).
Proof.
  destruct maps as [radiusMap budgetMap]. intros F.
  assert (B : exists bv,
    Math_min (map (adjacentTerm (Fin w) (Fin h) radiusMap budgetMap (Fin (req corner)))
                (ADJACENT_RELATIONS corner)) = Fin bv /\
    req corner <= bv /\
    forall adjacent, In adjacent (ADJACENT_RELATIONS corner) ->
      bv + req (adj_corner adjacent) <= side_q w h (adj_side adjacent)).
  { assert (T := fit_term radiusMap budgetMap corner).
    destruct corner; cbn [ADJACENT_RELATIONS map] in *;
      match goal with
      | |- context [Math_min [adjacentTerm _ _ _ _ _ ?x; adjacentTerm _ _ _ _ _ ?y]] =>
          destruct (T x F (or_introl eq_refl)) as (t1 & -> & L1 & U1);
          destruct (T y F (or_intror (or_introl eq_refl))) as (t2 & -> & L2 & U2)
      end;
      destruct (Math_min_two t1 t2) as (m & -> & M1 & M2 & Mc);
      exists m; (split; [reflexivity|]);
      (split; [destruct Mc; subst m; assumption|]);
      intros adjacent [<-|[<-|[]]]; lra. }
  destruct B as (bv & E & L & S).
  unfold resolveCorner. rewrite E.
  intros other. cbn [fst snd]. destruct (CornerId_eq_dec corner other) as [<-|N].
  - rewrite !corner_get_set_same. split.
    + simpl. now rewrite (Qle_bool_true _ _ L).
    + exists bv. split; [reflexivity|]. right. auto.
  - rewrite !corner_get_set_other by assumption. apply (F other).
Qed.

Lemma fit_all entries maps :
  (forall e, In e entries -> snd e = Fin (req (fst e))) ->
  fit_ok maps ->
  fit_ok (fold_left (resolveCorner (Fin w) (Fin h)) entries maps).
Proof.
  revert maps. induction entries as [|[corner x] entries IH]; intros maps E F.
  - exact F.
  - pose proof (E (corner, x) (or_introl eq_refl)) as Ex. cbn [fst snd] in Ex.
    subst x. cbn [fold_left]. apply IH.
    + intros e I. apply E. now right.
    + now apply fit_step.
Qed.

Lemma normalizeCorners_fit corner :
  radius (corner_get (normalizeCorners (spreadInput w h req)) corner)
  = Fin (req corner).
Proof.
  destruct (normalizeCorners_get w h req corner) as [-> _].
  apply fit_all.
  - apply processingOrder_entries.
  - intros c. cbn [fst snd]. split; [apply requestedMap_get|].
    exists (-1). split; [now destruct c|]. left. lra.
Qed.

End NormalizerFit.


Section EqualRadii.

Variables w h r m : Q.
Hypothesis w_nonneg : 0 <= w.
Hypothesis h_nonneg : 0 <= h.
Hypothesis r_pos : 0 < r.
(** [m] is half the shorter edge. *)
Hypothesis m_half : (w <= h /\ m + m == w) \/ (h <= w /\ m + m == h).

(** Before it is resolved a corner holds the requested radius; afterwards
    its budget is [m] and its radius the smaller of [r] and [m]. *)
Definition equal_ok (maps : CornerRecord number * CornerRecord number) : Prop :=
  forall corner, exists rv bv,
    corner_get (fst maps) corner = Fin rv /\
    corner_get (snd maps) corner = Fin bv /\
    ((bv < 0 /\ rv == r) \/
     (bv == m /\ rv <= r /\ rv <= m /\ (rv == r \/ rv == m))).

Lemma equal_term radiusMap budgetMap adjacent :
  equal_ok (radiusMap, budgetMap) ->
  exists t,
    adjacentTerm (Fin w) (Fin h) radiusMap budgetMap (Fin r) adjacent = Fin t /\
    (t + t == side_q w h (adj_side adjacent) \/
     t + m == side_q w h (adj_side adjacent)).
Proof.
  intros E.
  destruct (E (adj_corner adjacent)) as (rv & bv & Hr & Hb & C). cbn [fst snd] in Hr, Hb.
  unfold adjacentTerm. rewrite Hr, Hb, sideLength_of_fin. simpl.
  rewrite (Qeq_bool_neq r 0) by lra. cbn [andb].
  unfold geb; simpl.
  assert (M : 0 <= m) by (destruct m_half as [[? ?]|[? ?]]; lra).
  destruct C as [(Bn & Rv)|(Bm & _)].
  - rewrite (Qle_bool_flip 0 bv) by lra.
    rewrite (Qeq_bool_neq (r + rv) 0) by lra.
    eexists; split; [reflexivity|]. left.
    assert (Hq : r / (r + rv) == 1 # 2) by (rewrite Rv; field; lra).
    rewrite Hq. ring.
  - rewrite (Qle_bool_true 0 bv) by lra. unfold sub; simpl.
    eexists; split; [reflexivity|]. right. lra.
Qed.

Lemma equal_step maps corner :
  equal_ok maps ->
  equal_ok (resolveCorner (Fin w) (Fin h) maps (corner, Fin r)).
Proof.
  destruct maps as [radiusMap budgetMap]. intros E.
  assert (B : exists bv,
    Math_min (map (adjacentTerm (Fin w) (Fin h) radiusMap budgetMap (Fin r))
                (ADJACENT_RELATIONS corner)) = Fin bv /\ bv == m).
  { assert (T := fun adjacent => equal_term radiusMap budgetMap adjacent E).
    destruct corner; cbn [ADJACENT_RELATIONS map];
      match goal with
      | |- context [Math_min [adjacentTerm _ _ _ _ _ ?x; adjacentTerm _ _ _ _ _ ?y]] =>
          destruct (T x) as (t1 & -> & C1); destruct (T y) as (t2 & -> & C2)
      end;
      cbn [adj_side side_q] in C1, C2;
      destruct (Math_min_two t1 t2) as (b & -> & M1 & M2 & Mc);
      exists b; (split; [reflexivity|]);
      destruct m_half as [[? ?]|[? ?]], C1, C2, Mc; subst b; lra. }
  destruct B as (bv & Eb & Bm).
  unfold resolveCorner. rewrite Eb.
  intros other. cbn [fst snd]. destruct (CornerId_eq_dec corner other) as [<-|N].
  - rewrite !corner_get_set_same. simpl.
    destruct (Qle_bool r bv) eqn:C; qbool;
      eexists; eexists; (split; [reflexivity|]); (split; [reflexivity|]);
      right; (split; [exact Bm|]); (split; [lra|]); (split; [lra|]);
      [left | right]; lra.
  - rewrite !corner_get_set_other by assumption. apply (E other).
Qed.

Lemma equal_all entries maps :
  (forall e, In e entries -> snd e = Fin r) ->
  equal_ok maps ->
  equal_ok (fold_left (resolveCorner (Fin w) (Fin h)) entries maps).
Proof.
  revert maps. induction entries as [|[corner x] entries IH]; intros maps E F.
  - exact F.
  - pose proof (E (corner, x) (or_introl eq_refl)) as Ex. cbn [snd] in Ex.
    subst x. cbn [fold_left]. apply IH.
    + intros e I. apply E. now right.
    + now apply equal_step.
Qed.

Lemma normalizeCorners_equal corner :
  exists rv bv,
    radius (corner_get (normalizeCorners (spreadInput w h (fun _ => r))) corner)
    = Fin rv /\
    roundingAndSmoothingBudget
      (corner_get (normalizeCorners (spreadInput w h (fun _ => r))) corner) = Fin bv /\
    bv == m /\ rv <= r /\ rv <= m /\ (rv == r \/ rv == m).
Proof.
  destruct (normalizeCorners_get w h (fun _ => r) corner) as [-> ->].
  assert (Rn : forall c : CornerId, 0 <= (fun _ : CornerId => r) c)
    by (intros c; cbn; lra).
  destruct (resolve_all_ok w h w_nonneg h_nonneg (processingOrder (fun _ => r)) _
              (processingOrder_nonneg (fun _ => r) Rn)
              (initial_maps_ok w h (fun _ => r) Rn)) as (_ & Res).
  pose proof (equal_all (processingOrder (fun _ => r))
                (requestedMap (fun _ => r), unresolvedMap)
                (processingOrder_entries (fun _ => r))) as A.
  assert (A0 : equal_ok (requestedMap (fun _ => r), unresolvedMap)).
  { intros c. exists r, (-1). cbn [fst snd].
    split; [now destruct c|]. split; [now destruct c|]. left. split; lra. }
  specialize (A A0). set (maps := fold_left _ _ _) in *.
  destruct (A corner) as (rv & bv & Hr & Hb & C).
  destruct (Res corner (or_intror (processingOrder_complete (fun _ => r) corner)))
    as (bv' & Hb' & P).
  rewrite Hb in Hb'. injection Hb' as <-.
  exists rv, bv. split; [exact Hr|]. split; [exact Hb|].
  destruct C as [(Bn & _)|C]; [lra | exact C].
Qed.

End EqualRadii.


(** * The shape of a corner patch *)

Section PatchShape.

Variables sinQ cosQ tanQ : Q -> Q.

Local Abbreviation geometry := (cornerGeometry sinQ cosQ tanQ).

Lemma gtb_fin_true (x y : Q) : (Fin x >? Fin y)%num = true -> y < x.
Proof.
  unfold gtb, ltb. simpl. intros H. apply andb_prop in H. destruct H as [L N].
  apply negb_true_iff in N. qbool.
  destruct (Qlt_le_dec y x) as [G|G]; [exact G|]. exfalso. apply N. lra.
Qed.


End PatchShape.

(** ** Order facts on numbers *)

Lemma leb_trans (x y z : number) :
  (x <=? y)%num = true -> (y <=? z)%num = true -> (x <=? z)%num = true.
Proof.
  destruct x as [u| | |], y as [v| | |], z as [w| | |]; simpl;
    try discriminate; try reflexivity.
  intros; qbool. apply Qle_bool_true. lra.
Qed.

Lemma min_glb (x y z : number) :
  (z <=? x)%num = true -> (z <=? y)%num = true -> (z <=? min x y)%num = true.
Proof.
  destruct x as [u| | |], y as [v| | |], z as [w| | |]; simpl;
    try discriminate; try reflexivity; try (intros; assumption).
  all: intros; now destruct (Qle_bool u v).
Qed.

Lemma min_le_l (x y : number) :
  isNaN x = false -> isNaN y = false -> (min x y <=? x)%num = true.
Proof.
  destruct x as [u| | |], y as [v| | |]; simpl;
    try discriminate; try reflexivity; intros _ _.
  - destruct (Qle_bool u v) eqn:E; simpl; apply Qle_bool_true; qbool; lra.
  - apply Qle_bool_true. lra.
Qed.

Lemma min_le_r (x y : number) :
  isNaN x = false -> isNaN y = false -> (min x y <=? y)%num = true.
Proof.
  destruct x as [u| | |], y as [v| | |]; simpl;
    try discriminate; try reflexivity; intros _ _.
  - destruct (Qle_bool u v) eqn:E; simpl; [exact E|]. apply Qle_bool_true; lra.
  - apply Qle_bool_true. lra.
Qed.

Lemma gtb_not_NaN (x y : number) : (x >? y)%num = true -> isNaN x = false.
Proof. now destruct x, y. Qed.

Lemma leb_not_NaN (x y : number) :
  (x <=? y)%num = true -> isNaN x = false /\ isNaN y = false.
Proof. destruct x, y; simpl; try discriminate; now split. Qed.

Lemma min_positive (x y : number) :
  (x >? zero)%num = true -> (y >? zero)%num = true ->
  (min x y >? zero)%num = true.
Proof.
  destruct x as [u| | |], y as [v| | |]; simpl;
    try discriminate; try reflexivity; try (intros; assumption).
  all: intros; now destruct (Qle_bool u v).
Qed.

Lemma leb_refl (x : number) : isNaN x = false -> (x <=? x)%num = true.
Proof.
  destruct x as [u| | |]; simpl; try discriminate; try reflexivity.
  intros _. apply Qle_bool_true. lra.
Qed.

Lemma gtb_leb_zero (x : number) :
  (x >? zero)%num = true -> (zero <=? x)%num = true /\ (x <=? zero)%num = false.
Proof.
  destruct x as [u| | |]; simpl; try discriminate; try (now split).
  unfold gtb, ltb. simpl. intros H. apply andb_prop in H. destruct H as [L N].
  split; [exact L|]. apply negb_true_iff in N. qbool.
  destruct (Qle_bool u 0) eqn:E; [|reflexivity]. qbool. exfalso. apply N. lra.
Qed.

Lemma Math_max_zero (x : number) :
  isNaN x = false ->
  (zero <=? Math_max zero x)%num = true /\
  (x <=? Math_max zero x)%num = true /\
  ((zero <=? x)%num = true -> Math_max zero x = x) /\
  ((x <=? zero)%num = true -> (Math_max zero x =? zero)%num = true).
Proof.
  destruct x as [u| | |]; simpl; try discriminate; intros _.
  - destruct (Qle_bool 0 u) eqn:E; simpl; rewrite ?E;
      (split; [|split; [|split]]); try reflexivity; try discriminate;
      intros; qbool;
      try (apply Qle_bool_true; lra); try (apply Qeq_bool_true; lra).
  - now repeat split.
  - now repeat split.
Qed.

Lemma Math_min_fold (xs : list number) :
  Forall (fun v => (v >? zero)%num = true) xs ->
  forall acc, (acc >? zero)%num = true ->
  (fold_left min xs acc >? zero)%num = true /\
  (fold_left min xs acc <=? acc)%num = true /\
  Forall (fun v => (fold_left min xs acc <=? v)%num = true) xs.
Proof.
  induction 1 as [|x xs P _ IH]; intros acc A; cbn [fold_left].
  - split; [exact A|]. split; [|constructor].
    apply leb_refl. exact (gtb_not_NaN _ _ A).
  - destruct (IH (min acc x) (min_positive _ _ A P)) as (G & L & F).
    pose proof (gtb_not_NaN _ _ A) as NA. pose proof (gtb_not_NaN _ _ P) as NP.
    split; [exact G|]. split.
    + exact (leb_trans _ _ _ L (min_le_l _ _ NA NP)).
    + constructor; [|exact F].
      exact (leb_trans _ _ _ L (min_le_r _ _ NA NP)).
Qed.

Lemma positiveNumbers_In (v : number) (values : list (option number)) :
  In v (positiveNumbers values) <->
  In (Some v) values /\ (v >? zero)%num = true.
Proof.
  unfold positiveNumbers. rewrite in_flat_map. split.
  - intros ([x|] & I & H); [|contradiction].
    destruct (x >? zero)%num eqn:G; [|contradiction].
    destruct H as [<-|[]]. now split.
  - intros (I & G). exists (Some v). split; [exact I|].
    rewrite G. now left.
Qed.

Lemma positiveNumbers_positive (values : list (option number)) :
  Forall (fun v => (v >? zero)%num = true) (positiveNumbers values).
Proof. apply Forall_forall. intros v I. now apply positiveNumbers_In in I. Qed.

(** ** Properties of params.ts *)

Lemma clamp_range_facts (value lo hi : number) :
  isNaN value = false -> (lo <=? hi)%num = true ->
  (lo <=? clamp value lo hi)%num = true /\
  (clamp value lo hi <=? hi)%num = true /\
  ((lo <=? value)%num = true -> (value <=? hi)%num = true ->
   (clamp value lo hi =? value)%num = true) /\
  ((value <=? lo)%num = true -> (clamp value lo hi =? lo)%num = true) /\
  ((hi <=? value)%num = true -> (clamp value lo hi =? hi)%num = true).
Proof.
  unfold clamp.
  destruct value as [v| | |], lo as [l| | |], hi as [h| | |]; simpl;
    try discriminate; intros _ R;
    repeat match goal with
           | |- context [Qle_bool ?x ?y] => destruct (Qle_bool x y) eqn:?; simpl
           end;
    (split; [|split; [|split; [|split]]]); intros;
    try reflexivity; try discriminate; qbool;
    try (apply Qle_bool_true; lra); try (apply Qeq_bool_true; lra).
  all: exfalso; lra.
Qed.

(** X13. [clamp] returns a value of the range: for a range [lo <= hi] and
    a value that is not NaN the result lies between [lo] and [hi], a value
    of the range is returned as it is, a value below the range becomes [lo]
    and a value above it [hi]. *)
Theorem clamp_within_range (value lo hi : number) :
  isNaN value = false -> (lo <=? hi)%num = true ->
  (lo <=? clamp value lo hi)%num = true /\
  (clamp value lo hi <=? hi)%num = true /\
  ((lo <=? value)%num = true -> (value <=? hi)%num = true ->
   (clamp value lo hi =? value)%num = true) /\
  ((value <=? lo)%num = true -> (clamp value lo hi =? lo)%num = true) /\
  ((hi <=? value)%num = true -> (clamp value lo hi =? hi)%num = true).
Proof. apply clamp_range_facts. Qed.

Lemma normalizeSmoothFactor_facts (value : option number) :
  match normalizeSmoothFactor value with
  | Returned s =>
      unitb s = true /\
      exists v, value = Some v /\ is_finite v = true /\
        ((v <=? zero)%num = true -> (s =? zero)%num = true) /\
        ((one <=? v)%num = true -> (s =? one)%num = true) /\
        (unitb v = true -> (s =? v)%num = true)
  | Thrown e =>
      e = INVALID_SMOOTH_FACTOR_ERROR /\
      forall v, value = Some v -> is_finite v = false
  end.
Proof.
  destruct value as [[q| | |]|]; cbn [normalizeSmoothFactor is_finite];
    try (split; [reflexivity|]; intros v E; now inversion E);
    try (split; [reflexivity|]; intros v E; discriminate).
  assert (N : isNaN (Fin q) = false) by reflexivity.
  assert (R : (zero <=? one)%num = true) by reflexivity.
  destruct (clamp_range_facts (Fin q) zero one N R) as (L & U & I & B & A).
  split.
  - destruct (clamp (Fin q) zero one) as [s| | |]; simpl in *;
      try discriminate. now rewrite L, U.
  - exists (Fin q). repeat (split; [reflexivity|]).
    split; [exact B|]. split; [exact A|].
    simpl. intros H. apply andb_prop in H. destruct H. now apply I.
Qed.

(** X14. [normalizeSmoothFactor] returns exactly for a finite number, and
    then a smoothing factor of [[0, 1]]: the value itself inside the range,
    0 below it and 1 above it.  For a missing value, NaN or an infinity it
    throws the smooth-factor error. *)
Theorem normalizeSmoothFactor_spec (value : option number) :
  match normalizeSmoothFactor value with
  | Returned s =>
      unitb s = true /\
      exists v, value = Some v /\ is_finite v = true /\
        ((v <=? zero)%num = true -> (s =? zero)%num = true) /\
        ((one <=? v)%num = true -> (s =? one)%num = true) /\
        (unitb v = true -> (s =? v)%num = true)
  | Thrown e =>
      e = INVALID_SMOOTH_FACTOR_ERROR /\
      forall v, value = Some v -> is_finite v = false
  end.
Proof. apply normalizeSmoothFactor_facts. Qed.

(** A number that is not negative: finite and [>= 0], or [+Infinity]. *)
Definition not_negative (x : number) : bool := (zero <=? x)%num.

Definition opt_not_negative (o : option number) : bool :=
  match o with Some x => not_negative x | None => true end.

Lemma sanitizeRadius_not_negative (value : option number) :
  opt_not_negative (sanitizeRadius value) = true.
Proof.
  destruct value as [v|]; [|reflexivity]. unfold sanitizeRadius.
  destruct (isNaN v) eqn:N; [reflexivity|].
  exact (proj1 (Math_max_zero v N)).
Qed.

Lemma sanitizeRadius_keeps (value : option number) :
  opt_not_negative value = true -> sanitizeRadius value = value.
Proof.
  destruct value as [v|]; [|reflexivity]. cbn [opt_not_negative]. intros H.
  unfold sanitizeRadius.
  destruct (leb_not_NaN _ _ H) as (_ & N). rewrite N.
  f_equal. now apply Math_max_zero.
Qed.

(** X15. [normalizeSquircleParams] throws the params error exactly when the
    props object is missing and the smooth-factor error exactly when its
    [smoothFactor] is not a finite number.  Otherwise it returns options
    whose base radius and border width are not negative (and never NaN),
    whose corner radii are absent or not negative, and whose smoothing
    factor lies in [[0, 1]]. *)
Theorem normalizeSquircleParams_spec (params : option RoundedSurfaceOptions) :
  match normalizeSquircleParams params with
  | Returned n =>
      (exists raw v, params = Some raw /\ rs_smoothFactor raw = Some v /\
                     is_finite v = true) /\
      not_negative (baseRadius n) = true /\
      not_negative (borderWidth n) = true /\
      opt_not_negative (topLeftRadius n) = true /\
      opt_not_negative (topRightRadius n) = true /\
      opt_not_negative (bottomRightRadius n) = true /\
      opt_not_negative (bottomLeftRadius n) = true /\
      unitb (smoothFactor n) = true
  | Thrown SQUIRCLE_PARAM_ERROR => params = None
  | Thrown INVALID_SMOOTH_FACTOR_ERROR =>
      exists raw, params = Some raw /\
        forall v, rs_smoothFactor raw = Some v -> is_finite v = false
  end.
Proof.
  destruct params as [raw|]; [|reflexivity]. cbn [normalizeSquircleParams].
  pose proof (normalizeSmoothFactor_facts (rs_smoothFactor raw)) as S.
  destruct (normalizeSmoothFactor (rs_smoothFactor raw)) as [s|e].
  - destruct S as (U & v & E & F & _).
    cbn [baseRadius borderWidth topLeftRadius topRightRadius
         bottomRightRadius bottomLeftRadius smoothFactor].
    split; [now exists raw, v|].
    assert (D : forall value,
               not_negative (nullish (sanitizeRadius value) zero) = true).
    { intros value. pose proof (sanitizeRadius_not_negative value) as H.
      destruct (sanitizeRadius value); [exact H | reflexivity]. }
    repeat (split; [first [apply D | apply sanitizeRadius_not_negative]|]).
    exact U.
  - destruct S as (-> & S). now exists raw.
Qed.

(** X16. [normalizeSquircleParams] changes no value that is already
    valid: radii and border width that are not negative are returned as
    given (0 where the base radius or the border width is absent), a
    smoothing factor of [[0, 1]] is kept, and a missing colour becomes
    [#000]. *)
Theorem normalizeSquircleParams_keeps_valid (raw : RoundedSurfaceOptions)
  (s : number) :
  opt_not_negative (rs_baseRadius raw) = true ->
  opt_not_negative (rs_borderWidth raw) = true ->
  opt_not_negative (rs_topLeftRadius raw) = true ->
  opt_not_negative (rs_topRightRadius raw) = true ->
  opt_not_negative (rs_bottomRightRadius raw) = true ->
  opt_not_negative (rs_bottomLeftRadius raw) = true ->
  rs_smoothFactor raw = Some s -> unitb s = true ->
  exists n,
    normalizeSquircleParams (Some raw) = Returned n /\
    baseRadius n = nullish (rs_baseRadius raw) zero /\
    borderWidth n = nullish (rs_borderWidth raw) zero /\
    topLeftRadius n = rs_topLeftRadius raw /\
    topRightRadius n = rs_topRightRadius raw /\
    bottomRightRadius n = rs_bottomRightRadius raw /\
    bottomLeftRadius n = rs_bottomLeftRadius raw /\
    (smoothFactor n =? s)%num = true /\
    surfaceColor n = nullish (rs_surfaceColor raw) "#000" /\
    borderColor n = nullish (rs_borderColor raw) "#000".
Proof.
  intros B W TL TR BR BL S U. cbn [normalizeSquircleParams].
  pose proof (normalizeSmoothFactor_facts (rs_smoothFactor raw)) as F.
  rewrite S in *.
  destruct (normalizeSmoothFactor (Some s)) as [s'|e].
  - destruct F as (_ & v & E & _ & _ & _ & K). injection E as <-.
    eexists. split; [reflexivity|].
    cbn [baseRadius borderWidth topLeftRadius topRightRadius
         bottomRightRadius bottomLeftRadius smoothFactor surfaceColor
         borderColor].
    rewrite !sanitizeRadius_keeps by assumption.
    repeat (split; [reflexivity|]). split; [now apply K|]. now split.
  - destruct F as (_ & F). specialize (F s eq_refl).
    destruct s; simpl in *; discriminate.
Qed.

(** ** Properties of the backdrop *)

(** The radii the backdrop reads: the base radius and the four corners. *)
Definition backdropRadii (params : NormalizedRoundedSurfaceOptions)
  : list (option number) :=
  [Some (baseRadius params); topLeftRadius params; topRightRadius params;
   bottomLeftRadius params; bottomRightRadius params].

Lemma clampedStrokeWidth_facts (params : NormalizedRoundedSurfaceOptions) :
  isNaN (borderWidth params) = false ->
  (zero <=? clampedStrokeWidth params)%num = true /\
  (clampedStrokeWidth params <=? Math_max zero (borderWidth params))%num = true /\
  (forall r, In (Some r) (backdropRadii params) -> (r >? zero)%num = true ->
             (clampedStrokeWidth params <=? r)%num = true) /\
  (clampedStrokeWidth params <=? zero)%num = (borderWidth params <=? zero)%num.
Proof.
  intros N. unfold clampedStrokeWidth. fold (backdropRadii params).
  destruct (Math_max_zero (borderWidth params) N) as (Z & _ & K & B).
  pose proof (proj2 (leb_not_NaN _ _ Z)) as NS.
  set (stroke := Math_max zero (borderWidth params)) in *.
  pose proof (positiveNumbers_positive (backdropRadii params)) as P.
  pose proof (positiveNumbers_In) as I.
  destruct (positiveNumbers (backdropRadii params)) as [|x xs] eqn:E.
  - assert (M : min stroke stroke = stroke).
    { destruct stroke as [u| | |]; simpl in *; try discriminate; try reflexivity.
      now destruct (Qle_bool u u). }
    rewrite M. split; [exact Z|]. split; [now apply leb_refl|]. split.
    + intros r In_r G. exfalso.
      assert (In r (positiveNumbers (backdropRadii params))) as H
          by now apply I.
      rewrite E in H. contradiction.
    + subst stroke. clear -N.
      destruct (borderWidth params) as [u| | |]; simpl in *;
        try discriminate; try reflexivity.
      destruct (Qle_bool 0 u) eqn:L; simpl; [reflexivity|].
      qbool. symmetry. apply Qle_bool_true. lra.
  - destruct (Math_min_fold (x :: xs) P PInf eq_refl) as (G & _ & F).
    fold (Math_min (x :: xs)) in G, F.
    set (least := Math_min (x :: xs)) in *.
    pose proof (gtb_not_NaN _ _ G) as NL.
    destruct (gtb_leb_zero _ G) as (ZL & _).
    split; [now apply min_glb|]. split; [now apply min_le_l|]. split.
    + intros r In_r Gr.
      assert (H : In r (x :: xs)) by (rewrite <- E; now apply I).
      rewrite Forall_forall in F.
      exact (leb_trans _ _ _ (min_le_r _ _ NS NL) (F r H)).
    + destruct (borderWidth params <=? zero)%num eqn:L.
      * specialize (B eq_refl).
        destruct stroke as [u| | |]; simpl in B; try discriminate.
        destruct least as [v| | |]; simpl in *; try discriminate.
        -- destruct (Qle_bool u v) eqn:C; simpl; qbool;
             apply Qle_bool_true; lra.
        -- qbool. apply Qle_bool_true. lra.
      * assert (Gs : (stroke >? zero)%num = true).
        { subst stroke. clear -N L.
          destruct (borderWidth params) as [u| | |]; simpl in *;
            try discriminate; try reflexivity.
          unfold gtb, ltb. simpl.
          destruct (Qle_bool 0 u) eqn:C; simpl.
          - rewrite C. simpl. apply negb_true_iff. apply Qeq_bool_neq.
            qbool. lra.
          - qbool. lra. }
        exact (proj2 (gtb_leb_zero _ (min_positive _ _ Gs G))).
Qed.

(** X17. The stroke the backdrop renders: whenever the border width is not
    NaN, the clamped width is not negative, never exceeds the border
    width, never exceeds a positive radius among the base radius and the
    four corners, and is zero exactly when the border width is zero or
    negative. *)
Theorem clampedStrokeWidth_bounds (params : NormalizedRoundedSurfaceOptions) :
  isNaN (borderWidth params) = false ->
  (zero <=? clampedStrokeWidth params)%num = true /\
  (clampedStrokeWidth params <=? Math_max zero (borderWidth params))%num = true /\
  (forall r, In (Some r) (backdropRadii params) -> (r >? zero)%num = true ->
             (clampedStrokeWidth params <=? r)%num = true) /\
  (clampedStrokeWidth params <=? zero)%num = (borderWidth params <=? zero)%num.
Proof. apply clampedStrokeWidth_facts. Qed.

Definition layoutWidth (layout : option MeasuredFrame) : number :=
  match layout with Some f => frame_width f | None => zero end.

Definition layoutHeight (layout : option MeasuredFrame) : number :=
  match layout with Some f => frame_height f | None => zero end.

(** The layout has not been measured, or one of its sides is zero. *)
Definition emptyLayout (layout : option MeasuredFrame) : bool :=
  (layoutWidth layout =? zero)%num || (layoutHeight layout =? zero)%num.

Section BackdropCases.

Variables sinQ cosQ tanQ : Q -> Q.

Local Abbreviation build := (buildSquirclePath sinQ cosQ tanQ).
Local Abbreviation backdrop := (backdropGeometry sinQ cosQ tanQ).

Lemma backdropGeometry_cases (st : Caches) (layout : option MeasuredFrame)
  (params : NormalizedRoundedSurfaceOptions) :
  isNaN (borderWidth params) = false ->
  backdrop st layout params =
  if emptyLayout layout then
    ({| bg_path := None; insetAmount := zero; renderedStrokeWidth := zero |}, st)
  else if (borderWidth params <=? zero)%num then
    let built :=
      build st (baseRequest (layoutWidth layout) (layoutHeight layout) params) in
    ({| bg_path := Some (fst built); insetAmount := zero;
        renderedStrokeWidth := zero |}, snd built)
  else
    let built :=
      build st (insetRequest (layoutWidth layout) (layoutHeight layout) params) in
    ({| bg_path := Some (fst built);
        insetAmount := (clampedStrokeWidth params / num 2)%num;
        renderedStrokeWidth := clampedStrokeWidth params |}, snd built).
Proof.
  intros N. unfold backdropGeometry, emptyLayout.
  fold (layoutWidth layout) (layoutHeight layout).
  destruct ((layoutWidth layout =? zero)%num || (layoutHeight layout =? zero)%num);
    [reflexivity|].
  destruct (clampedStrokeWidth_facts params N) as (_ & _ & _ & C).
  destruct (Math_max_zero (borderWidth params) N) as (_ & _ & K & B).
  destruct (borderWidth params <=? zero)%num eqn:L.
  - rewrite (B eq_refl). cbv zeta.
    now destruct (build st _).
  - assert (Z : (Math_max zero (borderWidth params) =? zero)%num = false).
    { clear -N L. destruct (borderWidth params) as [u| | |]; simpl in *;
        try discriminate; try reflexivity.
      destruct (Qle_bool 0 u) eqn:P; simpl.
      - apply Qeq_bool_neq. qbool. lra.
      - qbool. lra. }
    rewrite Z, C. cbv zeta. now destruct (build st _).
Qed.

End BackdropCases.

(** X18. The three outcomes of the backdrop, for a border width that is
    not NaN.  Without a measured layout, or with a side of length zero,
    there is no path and the path builder is not called.  With a border
    width of zero or less the path is the one of the layout itself, with no
    stroke and no inset.  Otherwise the path is the one of the inset
    request, the stroke is the clamped width and the inset is half of it;
    the second return of the base path in the code is never taken. *)
Theorem backdropGeometry_outcomes (sinQ cosQ tanQ : Q -> Q) (st : Caches)
  (layout : option MeasuredFrame) (params : NormalizedRoundedSurfaceOptions) :
  isNaN (borderWidth params) = false ->
  backdropGeometry sinQ cosQ tanQ st layout params =
  if emptyLayout layout then
    ({| bg_path := None; insetAmount := zero; renderedStrokeWidth := zero |}, st)
  else if (borderWidth params <=? zero)%num then
    let built :=
      buildSquirclePath sinQ cosQ tanQ st
        (baseRequest (layoutWidth layout) (layoutHeight layout) params) in
    ({| bg_path := Some (fst built); insetAmount := zero;
        renderedStrokeWidth := zero |}, snd built)
  else
    let built :=
      buildSquirclePath sinQ cosQ tanQ st
        (insetRequest (layoutWidth layout) (layoutHeight layout) params) in
    ({| bg_path := Some (fst built);
        insetAmount := (clampedStrokeWidth params / num 2)%num;
        renderedStrokeWidth := clampedStrokeWidth params |}, snd built).
Proof. apply backdropGeometry_cases. Qed.

(** Normalized options made of finite numbers: radii and border width
    [>= 0] and a smoothing factor of [[0, 1]]. *)
Definition valid_params (params : NormalizedRoundedSurfaceOptions) : bool :=
  nonnegb (baseRadius params) && nonnegb (borderWidth params) &&
  unitb (smoothFactor params) &&
  opt_nonnegb (topLeftRadius params) &&
  opt_nonnegb (topRightRadius params) &&
  opt_nonnegb (bottomRightRadius params) &&
  opt_nonnegb (bottomLeftRadius params).

Lemma shrinkRadius_nonneg (radius : option number) (inset : Q) :
  opt_nonnegb radius = true ->
  opt_nonnegb (shrinkRadius radius (Fin inset)) = true.
Proof.
  destruct radius as [[r| | |]|]; simpl; try discriminate; try reflexivity.
  intros _. destruct (Qle_bool 0 (r + - inset)) eqn:E; simpl; [exact E|].
  reflexivity.
Qed.

Lemma clampedStrokeWidth_finite (params : NormalizedRoundedSurfaceOptions)
  (border : Q) :
  borderWidth params = Fin border -> 0 <= border ->
  exists stroke, clampedStrokeWidth params = Fin stroke /\
                 0 <= stroke <= border.
Proof.
  intros E B.
  assert (N : isNaN (borderWidth params) = false) by now rewrite E.
  destruct (clampedStrokeWidth_facts params N) as (Z & U & _ & _).
  rewrite E in U. simpl in U. rewrite (Qle_bool_true 0 border B) in U.
  destruct (clampedStrokeWidth params) as [stroke| | |]; simpl in *;
    try discriminate.
  exists stroke. split; [reflexivity|]. qbool. lra.
Qed.

Lemma baseRequest_valid (w h : Q) (params : NormalizedRoundedSurfaceOptions) :
  valid_params params = true -> 0 <= w -> 0 <= h ->
  valid_input (baseRequest (Fin w) (Fin h) params) = true.
Proof.
  unfold valid_params, valid_input. intros V W H.
  repeat (apply andb_prop in V; destruct V as [V ?]).
  cbn [baseRequest sq_width sq_height sq_cornerSmoothing sq_cornerRadius
       sq_topLeftCornerRadius sq_topRightCornerRadius
       sq_bottomRightCornerRadius sq_bottomLeftCornerRadius
       nonnegb opt_nonnegb].
  rewrite (Qle_bool_true 0 w W), (Qle_bool_true 0 h H).
  repeat (apply andb_true_intro; split); try assumption; try reflexivity.
Qed.

Lemma insetRequest_valid (w h : Q) (params : NormalizedRoundedSurfaceOptions) :
  valid_params params = true ->
  (borderWidth params <=? Fin w)%num = true ->
  (borderWidth params <=? Fin h)%num = true ->
  valid_input (insetRequest (Fin w) (Fin h) params) = true.
Proof.
  unfold valid_params, valid_input. intros V W H.
  repeat (apply andb_prop in V; destruct V as [V ?]).
  destruct (nonnegb_inv (borderWidth params)) as (border & E & B);
    [assumption|].
  destruct (clampedStrokeWidth_finite params border E B) as (stroke & S & R).
  rewrite E in W, H. simpl in W, H. qbool.
  unfold insetRequest. rewrite S.
  cbn [sq_width sq_height sq_cornerSmoothing sq_cornerRadius
       sq_topLeftCornerRadius sq_topRightCornerRadius
       sq_bottomRightCornerRadius sq_bottomLeftCornerRadius].
  change (Fin stroke / num 2)%num with (Fin (stroke / inject_Z 2)).
  rewrite !shrinkRadius_nonneg by assumption.
  simpl.
  rewrite (Qle_bool_true 0 (w + - stroke)) by lra.
  rewrite (Qle_bool_true 0 (h + - stroke)) by lra.
  simpl.
  match goal with U : unitb _ = true |- _ => rewrite U end. reflexivity.
Qed.

(** ** The characters of a path *)

(** The characters a path is made of: those of a numeral, blanks and the
    six command letters. *)
Definition path_char (ch : ascii) : bool :=
  numeral_char ch || is_space ch ||
  existsb (Ascii.eqb ch) ["M"; "L"; "Z"; "c"; "a"; "l"]%char.

Definition plain_path (s : string) : bool := all_chars path_char s.

Lemma path_char_numeral (ch : ascii) :
  numeral_char ch = true -> path_char ch = true.
Proof. intros H. unfold path_char. now rewrite H. Qed.

Lemma plain_path_app (s1 s2 : string) :
  plain_path (s1 ++ s2) = plain_path s1 && plain_path s2.
Proof. apply all_chars_app. Qed.

Lemma plain_path_toFixed (k : nat) (x : number) :
  is_finite x = true -> plain_path (toFixed k x) = true.
Proof.
  intros F. destruct (finite_inv _ F) as (q & ->).
  apply all_chars_toFixed, path_char_numeral.
Qed.

Lemma plain_path_toString (x : number) :
  is_finite x = true -> plain_path (toString x) = true.
Proof.
  intros F. destruct (finite_inv _ F) as (q & ->).
  apply all_chars_toString, path_char_numeral.
Qed.

(** A word that starts with a character no path has does not occur. *)
Lemma plain_path_contains (ch : ascii) (word s : string) :
  path_char ch = false -> plain_path s = true ->
  contains (String ch word) s = false.
Proof.
  intros B. induction s as [|x s IH]; [reflexivity|].
  unfold plain_path. cbn [all_chars]. intros H.
  apply andb_prop in H. destruct H as [Hx Hs].
  cbn [contains starts_with]. rewrite (IH Hs), orb_false_r.
  destruct (Ascii.eqb x ch) eqn:E; [|reflexivity].
  apply Ascii.eqb_eq in E. subst x. congruence.
Qed.

Lemma plain_path_formatSegment (strings : list string) (values : list number) :
  Forall (fun s => plain_path s = true) strings ->
  Forall (fun v => is_finite v = true) values ->
  plain_path (formatSegment strings values) = true.
Proof.
  intros Hs Hv. unfold formatSegment.
  assert (G : forall acc index, plain_path acc = true ->
    plain_path (fst (fold_left
      (fun (st : string * nat) (str : string) =>
         let '(acc, index) := st in
         match nth_error values index with
         | Some value => (acc ++ str ++ toFixed 4 value, S index)
         | None => (acc ++ str, S index)
         end) strings (acc, index))) = true).
  { induction Hs as [|str strings Hstr _ IH]; intros acc index Hacc; [exact Hacc|].
    cbn [fold_left]. destruct (nth_error values index) as [v|] eqn:E; apply IH.
    - rewrite !plain_path_app, Hacc, Hstr. simpl. apply plain_path_toFixed.
      apply nth_error_In in E. rewrite Forall_forall in Hv. now apply Hv.
    - now rewrite plain_path_app, Hacc, Hstr. }
  now apply G.
Qed.

Lemma plain_path_trace (k : BezierPatch) :
  finite_patch k = true ->
  plain_path (traceTopRight k) = true /\ plain_path (traceBottomRight k) = true /\
  plain_path (traceBottomLeft k) = true /\ plain_path (traceTopLeft k) = true.
Proof.
  intros F. destruct (finite_patch_inv _ F) as (Fa & Fb & Fc & Fd & Fp & Fr & Fl).
  unfold traceTopRight, traceBottomRight, traceBottomLeft, traceTopLeft.
  destruct (truthy (cornerRadius k));
    repeat split; apply plain_path_formatSegment;
    first [plain_strings | finite_values].
Qed.

Lemma plain_path_rectanglePath (width height : number) :
  is_finite width = true -> is_finite height = true ->
  plain_path (rectanglePath width height) = true.
Proof.
  intros W H. unfold rectanglePath.
  now rewrite !plain_path_app, !plain_path_toString.
Qed.

Lemma plain_path_joinCornerProfiles (i : PathParamsInput) :
  is_finite (pp_width i) = true -> is_finite (pp_height i) = true ->
  finite_patch (topLeftPathParams i) = true ->
  finite_patch (topRightPathParams i) = true ->
  finite_patch (bottomLeftPathParams i) = true ->
  finite_patch (bottomRightPathParams i) = true ->
  plain_path (joinCornerProfiles i) = true.
Proof.
  intros W H Ftl Ftr Fbl Fbr.
  destruct (plain_path_trace _ Ftl) as (_ & _ & _ & Ttl).
  destruct (plain_path_trace _ Ftr) as (Ttr & _ & _ & _).
  destruct (plain_path_trace _ Fbl) as (_ & _ & Tbl & _).
  destruct (plain_path_trace _ Fbr) as (_ & Tbr & _ & _).
  destruct (finite_patch_inv _ Ftl) as (_ & _ & _ & _ & Ptl & _).
  destruct (finite_patch_inv _ Ftr) as (_ & _ & _ & _ & Ptr & _).
  destruct (finite_patch_inv _ Fbl) as (_ & _ & _ & _ & Pbl & _).
  destruct (finite_patch_inv _ Fbr) as (_ & _ & _ & _ & Pbr & _).
  unfold joinCornerProfiles, join. cbn [String.concat].
  rewrite !plain_path_app, Ttl, Ttr, Tbl, Tbr.
  rewrite !plain_path_toString by auto with finite. reflexivity.
Qed.

(** Every cached path is made of path characters only and every cached
    patch of finite numbers. *)
Definition plain_caches (st : Caches) : Prop :=
  Forall (fun kv => plain_path (snd kv) = true) (PATH_CACHE_MAP st) /\
  finite_profiles (CORNER_PROFILE_CACHE st).

Section PlainPaths.

Variables sinQ cosQ tanQ : Q -> Q.

Local Abbreviation build := (buildSquirclePath sinQ cosQ tanQ).

Lemma buildSquirclePath_plain st i :
  valid_input i = true -> plain_caches st ->
  plain_path (fst (build st i)) = true /\ plain_caches (snd (build st i)).
Proof.
  intros V [Cp Cc]. apply valid_input_inv in V.
  destruct (cached_hit (readCachedPath (PATH_CACHE_MAP st) (requestCacheKey i)))
    as [cached|] eqn:E.
  - rewrite (buildSquirclePath_hit _ _ _ _ _ _ E). cbn [fst snd].
    split; [|now split].
    unfold cached_hit, readCachedPath in E.
    destruct (JsMap.get _ _) as [s|] eqn:G; [|discriminate].
    destruct (String.eqb s ""); [discriminate|]. injection E as <-.
    exact (JsMap_get_Forall (fun s => plain_path s = true) _ _ _ Cp G).
  - rewrite (buildSquirclePath_miss _ _ _ _ _ E). unfold computedPath.
    destruct (patchesWith_finite sinQ cosQ tanQ (CORNER_PROFILE_CACHE st) i V Cc)
      as (Fp & Cc').
    destruct V as [w h s base tl tr br bl Ew Eh Es Eb Etl Etr Ebr Ebl
                     W H S B TL TR BR BL].
    destruct (patchesWith _ _ i) as [patches profiles]. cbn [fst snd] in *.
    assert (N : plain_path match patches with
                           | Some patches => joinCornerProfiles patches
                           | None => rectanglePath (sq_width i) (sq_height i)
                           end = true).
    { destruct patches as [patches|].
      - destruct Fp as ((Ftl & Ftr & Fbl & Fbr) & Pw & Ph).
        apply plain_path_joinCornerProfiles; try assumption.
        + now rewrite Pw, Ew.
        + now rewrite Ph, Eh.
      - apply plain_path_rectanglePath; [now rewrite Ew | now rewrite Eh]. }
    split; [exact N|]. split; cbn [PATH_CACHE_MAP CORNER_PROFILE_CACHE].
    + now apply (storeCachedPath_Forall (fun s => plain_path s = true)).
    + assumption.
Qed.

End PlainPaths.

Section BackdropClean.

Variables sinQ cosQ tanQ : Q -> Q.

Local Abbreviation backdrop := (backdropGeometry sinQ cosQ tanQ).

Lemma backdrop_plain (st : Caches) (w h : Q)
  (params : NormalizedRoundedSurfaceOptions) :
  valid_params params = true ->
  0 < w -> 0 < h ->
  (borderWidth params <=? Fin w)%num = true ->
  (borderWidth params <=? Fin h)%num = true ->
  plain_caches st ->
  let frame := {| frame_width := Fin w; frame_height := Fin h |} in
  (exists path, bg_path (fst (backdrop st (Some frame) params)) = Some path /\
                plain_path path = true) /\
  plain_caches (snd (backdrop st (Some frame) params)).
Proof.
  intros V W H Bw Bh C frame.
  assert (N : isNaN (borderWidth params) = false).
  { now destruct (leb_not_NaN _ _ Bw). }
  rewrite (backdropGeometry_cases sinQ cosQ tanQ st (Some frame) params N).
  unfold emptyLayout, layoutWidth, layoutHeight, frame.
  cbn [frame_width frame_height].
  assert (Ew : (Fin w =? zero)%num = false).
  { simpl. apply Qeq_bool_neq. lra. }
  assert (Eh : (Fin h =? zero)%num = false).
  { simpl. apply Qeq_bool_neq. lra. }
  rewrite Ew, Eh. cbn [orb].
  destruct (borderWidth params <=? zero)%num; cbv zeta; cbn [fst snd bg_path].
  - destruct (buildSquirclePath_plain sinQ cosQ tanQ st
                (baseRequest (Fin w) (Fin h) params)) as (P & C');
      [apply baseRequest_valid; (assumption || lra) | assumption |].
    split; [eauto | assumption].
  - destruct (buildSquirclePath_plain sinQ cosQ tanQ st
                (insetRequest (Fin w) (Fin h) params)) as (P & C');
      [now apply insetRequest_valid | assumption |].
    split; [eauto | assumption].
Qed.

End BackdropClean.

(** X19. The backdrop draws neither NaN nor Infinity.  For valid
    normalized options, a measured layout with positive sides and a border
    no wider than either side, both the request of the layout and the inset
    request are within the preconditions of the path builder, so the path
    of the backdrop exists and is made of path characters only: the
    characters of numerals, blanks and the command letters M, L, Z, c, a
    and l.  Neither [NaN] nor [Infinity] occurs in it, and the caches stay
    free of other paths, given that they were. *)
Theorem backdrop_never_draws_NaN (sinQ cosQ tanQ : Q -> Q) (st : Caches)
  (w h : Q) (params : NormalizedRoundedSurfaceOptions) :
  valid_params params = true ->
  0 < w -> 0 < h ->
  (borderWidth params <=? Fin w)%num = true ->
  (borderWidth params <=? Fin h)%num = true ->
  plain_caches st ->
  let frame := {| frame_width := Fin w; frame_height := Fin h |} in
  valid_input (baseRequest (Fin w) (Fin h) params) = true /\
  valid_input (insetRequest (Fin w) (Fin h) params) = true /\
  (exists path,
      bg_path (fst (backdropGeometry sinQ cosQ tanQ st (Some frame) params))
      = Some path /\
      plain_path path = true /\
      contains "NaN" path = false /\ contains "Infinity" path = false) /\
  plain_caches (snd (backdropGeometry sinQ cosQ tanQ st (Some frame) params)).
Proof.
  intros V W H Bw Bh C frame.
  split; [apply baseRequest_valid; (assumption || lra)|].
  split; [now apply insetRequest_valid|].
  destruct (backdrop_plain sinQ cosQ tanQ st w h params V W H Bw Bh C)
    as ((path & E & P) & C').
  split; [|exact C'].
  exists path. split; [exact E|]. split; [exact P|].
  split; now apply plain_path_contains.
Qed.

(** X20. The inset never flattens a rounded corner.  For valid normalized
    options, [shrinkRadius] takes every radius [r] among the base radius
    and the four corners to a radius between [r / 2] and [r], and a positive
    [r] to exactly [r] minus half the rendered stroke: the lower bound 0 of
    [shrinkRadius] only serves radii that are already 0, which stay 0. *)
Theorem inset_keeps_corners_round (params : NormalizedRoundedSurfaceOptions)
  (r : Q) :
  valid_params params = true ->
  In (Some (Fin r)) (backdropRadii params) ->
  0 <= r ->
  exists stroke shrunk,
    clampedStrokeWidth params = Fin stroke /\
    shrinkRadius (Some (Fin r)) (clampedStrokeWidth params / num 2)%num
    = Some (Fin shrunk) /\
    r / 2 <= shrunk <= r /\
    (0 < r -> shrunk == r - stroke / 2).
Proof.
  unfold valid_params. intros V I R.
  repeat (apply andb_prop in V; destruct V as [V ?]).
  destruct (nonnegb_inv (borderWidth params)) as (border & E & B);
    [assumption|].
  destruct (clampedStrokeWidth_finite params border E B) as (stroke & S & Rs).
  assert (N : isNaN (borderWidth params) = false) by now rewrite E.
  destruct (clampedStrokeWidth_facts params N) as (_ & _ & U & _).
  exists stroke.
  assert (Hs : stroke / inject_Z 2 == stroke * (1 # 2))
    by (unfold inject_Z; field).
  assert (Hq : stroke / 2 == stroke * (1 # 2)) by field.
  assert (Hr : r / 2 == r * (1 # 2)) by field.
  destruct (Qeq_bool 0 r) eqn:Z.
  - (* a radius of zero stays zero *)
    qbool. rewrite S. simpl.
    destruct (Qle_bool 0 (r + - (stroke / inject_Z 2))) eqn:C; qbool.
    + eexists. split; [reflexivity|]. split; [reflexivity|].
      rewrite Hr. split; [split; lra|]. intros. lra.
    + exists 0. split; [reflexivity|]. split; [reflexivity|].
      rewrite Hr. split; [split; lra|]. intros. lra.
  - assert (G : (Fin r >? zero)%num = true).
    { unfold gtb, ltb. simpl. rewrite (Qle_bool_true 0 r R), Z. reflexivity. }
    specialize (U (Fin r) I G). rewrite S in U. simpl in U. qbool.
    rewrite S. simpl.
    rewrite (Qle_bool_true 0 (r + - (stroke / inject_Z 2))) by lra.
    eexists. split; [reflexivity|]. split; [reflexivity|].
    rewrite Hq, Hr. split; [split; lra|]. intros. lra.
Qed.

(** * What a shared cache key says about the numbers *)

(** The number a string of decimal digits stands for. *)
Definition decimal_value (s : string) : N :=
  match NilEmpty.uint_of_string s with
  | Some d => N.of_uint d
  | None => 0%N
  end.

(** The string without its decimal points. *)
Fixpoint drop_point (s : string) : string :=
  match s with
  | EmptyString => EmptyString
  | String ch rest =>
      if Ascii.eqb ch "." then drop_point rest else String ch (drop_point rest)
  end.

Lemma decimal_value_zeros (k : nat) (s : string) :
  decimal_value (zeros k ++ s) = decimal_value s.
Proof.
  induction k as [|k IH]; [reflexivity|].
  cbn [zeros append]. unfold decimal_value in *.
  cbn [NilEmpty.uint_of_string].
  destruct (NilEmpty.uint_of_string (zeros k ++ s)) as [d|];
    destruct (NilEmpty.uint_of_string s) as [d'|]; simpl in *; congruence.
Qed.

Lemma decimal_value_digits (n : Z) :
  decimal_value (digits n) = Z.to_N n.
Proof.
  unfold digits, decimal_value, NilZero.string_of_uint.
  rewrite <- (DecimalN.Unsigned.of_to (Z.to_N n)) at 2.
  destruct (N.to_uint (Z.to_N n)) eqn:E; try (rewrite <- E at 1; rewrite NilEmpty.usu; now rewrite E).
  reflexivity.
Qed.

Lemma is_digit_not_point (ch : ascii) :
  is_digit ch = true -> Ascii.eqb ch "." = false.
Proof.
  intros H. destruct (Ascii.eqb ch ".") eqn:E; [|reflexivity].
  apply Ascii.eqb_eq in E. subst ch. discriminate.
Qed.

Lemma drop_point_digits (s : string) :
  all_chars is_digit s = true -> drop_point s = s.
Proof.
  induction s as [|ch s IH]; [reflexivity|]. cbn [all_chars drop_point].
  intros H. apply andb_prop in H. destruct H as [D H].
  rewrite (is_digit_not_point ch D). now rewrite IH.
Qed.

Lemma drop_point_app (x y : string) :
  drop_point (x ++ y) = drop_point x ++ drop_point y.
Proof.
  induction x as [|ch x IH]; [reflexivity|]. cbn [append drop_point].
  rewrite IH. now destruct (Ascii.eqb ch ".").
Qed.

Lemma substring_all (s : string) : substring 0 (String.length s) s = s.
Proof. induction s as [|ch s IH]; [reflexivity|]. simpl. now rewrite IH. Qed.

Lemma substring_split (k : nat) (s : string) :
  (k <= String.length s)%nat ->
  substring 0 k s ++ substring k (String.length s - k) s = s.
Proof.
  revert s. induction k as [|k IH]; intros s L.
  - rewrite Nat.sub_0_r, substring_all. now destruct s.
  - destruct s as [|ch s]; [simpl in L; lia|].
    simpl in L. cbn [substring String.length Nat.sub append].
    rewrite IH by lia. reflexivity.
Qed.

Lemma drop_point_place_point (f : nat) (m : string) :
  all_chars is_digit m = true ->
  decimal_value (drop_point (place_point f m)) = decimal_value m.
Proof.
  intros D. unfold place_point. destruct f as [|f].
  - now rewrite drop_point_digits.
  - cbv zeta.
    set (padded := if Nat.leb (String.length m) (S f)
                   then zeros (S (S f) - String.length m) ++ m else m).
    assert (Dp : all_chars is_digit padded = true).
    { unfold padded. destruct (Nat.leb _ _); [|exact D].
      rewrite all_chars_app, D, andb_true_r.
      apply all_chars_zeros. auto. }
    assert (Vp : decimal_value padded = decimal_value m).
    { unfold padded. destruct (Nat.leb _ _); [|reflexivity].
      apply decimal_value_zeros. }
    assert (Lp : (S f < String.length padded)%nat).
    { unfold padded. destruct (Nat.leb (String.length m) (S f)) eqn:E.
      - apply Nat.leb_le in E. rewrite string_length_app, zeros_length. lia.
      - apply Nat.leb_gt in E. exact E. }
    set (k := (String.length padded - S f)%nat).
    replace (substring k (S f) padded)
      with (substring k (String.length padded - k) padded)
      by (f_equal; unfold k; lia).
    rewrite !drop_point_app. cbn [drop_point append].
    change (Ascii.eqb "." ".") with true. cbn iota.
    cbn [append].
    rewrite <- drop_point_app, substring_split by (unfold k; lia).
    now rewrite drop_point_digits.
Qed.

(** Numbers that [toFixed] prints in fixed notation without a sign. *)
Definition fixed_range (x : Q) : Prop := 0 <= x /\ x < inject_Z (10 ^ 21).

Lemma round_scaled_nonneg (f : nat) (x : Q) : 0 <= x -> (0 <= round_scaled f x)%Z.
Proof.
  intros X. unfold round_scaled.
  change 0%Z with (Qfloor 0). apply Qfloor_resp_le.
  assert (P : 0 <= inject_Z (pow10 f)).
  { change 0 with (inject_Z 0). rewrite <- Zle_Qle. unfold pow10.
    apply Z.pow_nonneg. lia. }
  nra.
Qed.

(** Reading the digits of [x.toFixed(f)] gives [x * 10^f] rounded. *)
Lemma toFixed_value (f : nat) (x : Q) :
  fixed_range x ->
  decimal_value (drop_point (toFixed f (Fin x))) = Z.to_N (round_scaled f x).
Proof.
  intros [X U]. unfold toFixed.
  assert (A : Qabs x = x).
  { destruct x as [n d]. unfold Qabs. f_equal. apply Z.abs_eq.
    unfold Qle in X. simpl in X. lia. }
  rewrite A.
  assert (C : match Qcompare x 0 with Lt => "-" | _ => "" end = "").
  { destruct (Qcompare x 0) eqn:E; try reflexivity.
    apply Qlt_alt in E. lra. }
  rewrite C.
  destruct (Qle_bool (inject_Z (10 ^ 21)) x) eqn:E; [qbool; lra|].
  cbn [append].
  rewrite drop_point_place_point by (apply all_chars_digits; auto).
  apply decimal_value_digits.
Qed.

Lemma same_floor_close (a b : Q) : Qfloor a = Qfloor b -> Qabs (a - b) < 1.
Proof.
  intros E.
  pose proof (Qfloor_le a) as La. pose proof (Qlt_floor a) as Ua.
  pose proof (Qfloor_le b) as Lb. pose proof (Qlt_floor b) as Ub.
  rewrite inject_Z_plus in Ua, Ub. rewrite E in *.
  change (inject_Z 1) with 1 in *.
  apply Qabs_case; intros; lra.
Qed.

(** Two numbers with the same [toFixed(f)] differ by less than [10^-f]. *)
Lemma toFixed_same_close (f : nat) (x y : Q) :
  fixed_range x -> fixed_range y ->
  toFixed f (Fin x) = toFixed f (Fin y) ->
  Qabs (x - y) * inject_Z (pow10 f) < 1.
Proof.
  intros X Y E.
  pose proof (toFixed_value f x X) as Vx.
  pose proof (toFixed_value f y Y) as Vy.
  rewrite E, Vy in Vx.
  apply Z2N.inj in Vx;
    try (apply round_scaled_nonneg; (apply X || apply Y)).
  unfold round_scaled in Vx. symmetry in Vx.
  apply same_floor_close in Vx.
  assert (P : 0 < inject_Z (pow10 f)).
  { change 0 with (inject_Z 0). rewrite <- Zlt_Qlt. unfold pow10.
    apply Z.pow_pos_nonneg; lia. }
  set (scale := inject_Z (pow10 f)) in *. clearbody scale.
  revert Vx. apply Qabs_case; apply Qabs_case; intros; nra.
Qed.

Lemma toFixed_2_close (x y : Q) :
  fixed_range x -> fixed_range y ->
  toFixed 2 (Fin x) = toFixed 2 (Fin y) -> Qabs (x - y) < 1 # 100.
Proof.
  intros X Y E. pose proof (toFixed_same_close 2 x y X Y E) as H.
  change (inject_Z (pow10 2)) with 100 in H.
  set (distance := Qabs (x - y)) in *. clearbody distance. lra.
Qed.

Lemma toFixed_3_close (x y : Q) :
  fixed_range x -> fixed_range y ->
  toFixed 3 (Fin x) = toFixed 3 (Fin y) -> Qabs (x - y) < 1 # 1000.
Proof.
  intros X Y E. pose proof (toFixed_same_close 3 x y X Y E) as H.
  change (inject_Z (pow10 3)) with 1000 in H.
  set (distance := Qabs (x - y)) in *. clearbody distance. lra.
Qed.

Lemma toFixed_4_close (x y : Q) :
  fixed_range x -> fixed_range y ->
  toFixed 4 (Fin x) = toFixed 4 (Fin y) -> Qabs (x - y) < 1 # 10000.
Proof.
  intros X Y E. pose proof (toFixed_same_close 4 x y X Y E) as H.
  change (inject_Z (pow10 4)) with 10000 in H.
  set (distance := Qabs (x - y)) in *. clearbody distance. lra.
Qed.

Ltac forall_inv :=
  repeat match goal with
         | H : Forall _ (_ :: _) |- _ => inversion H; clear H; subst
         | H : Forall _ [] |- _ => clear H
         end.

(** X21.  Requests that share a path-cache key are close: for numbers in
    the range that [toFixed] prints in fixed notation, the same key means
    the same preserve flag, widths, heights and radii that differ by less
    than 0.01, and smoothing factors that differ by less than 0.0001.  A
    path served from the cache was therefore computed for dimensions within
    these distances of the requested ones. *)
Theorem same_path_key_close
  (w h s base tl tr br bl w' h' s' base' tl' tr' br' bl' : Q) (pr pr' : bool) :
  Forall fixed_range
    [w; h; s; base; tl; tr; br; bl; w'; h'; s'; base'; tl'; tr'; br'; bl'] ->
  composeCacheKey (Fin w) (Fin h) (Fin s) pr
    (Fin base) (Fin tl) (Fin tr) (Fin br) (Fin bl)
  = composeCacheKey (Fin w') (Fin h') (Fin s') pr'
      (Fin base') (Fin tl') (Fin tr') (Fin br') (Fin bl') ->
  Qabs (w - w') < 1 # 100 /\ Qabs (h - h') < 1 # 100 /\
  Qabs (s - s') < 1 # 10000 /\ pr = pr' /\
  Qabs (base - base') < 1 # 100 /\
  Qabs (tl - tl') < 1 # 100 /\ Qabs (tr - tr') < 1 # 100 /\
  Qabs (br - br') < 1 # 100 /\ Qabs (bl - bl') < 1 # 100.
Proof.
  intros R. forall_inv.
  unfold composeCacheKey, join. cbn [String.concat].
  change "|"%string with (String "|" ""). cbn [append].
  intros E. split_key E.
  repeat match goal with
         | |- _ /\ _ => split
         | |- _ < 1 # 100 => now apply toFixed_2_close
         | |- _ < 1 # 10000 => now apply toFixed_4_close
         | |- _ = _ => assumption
         end.
Qed.

(** X22.  Patch inputs that share a corner-profile key are close: the same
    preserve flag, radii and budgets that differ by less than 0.001 and
    smoothing factors that differ by less than 0.0001. *)
Theorem same_profile_key_close (r s budget r' s' budget' : Q) (pr pr' : bool) :
  Forall fixed_range [r; s; budget; r'; s'; budget'] ->
  cornerProfileCacheKey
    {| in_cornerRadius := Fin r; in_cornerSmoothing := Fin s;
       in_preserveSmoothing := pr; in_roundingAndSmoothingBudget := Fin budget |}
  = cornerProfileCacheKey
      {| in_cornerRadius := Fin r'; in_cornerSmoothing := Fin s';
         in_preserveSmoothing := pr';
         in_roundingAndSmoothingBudget := Fin budget' |} ->
  Qabs (r - r') < 1 # 1000 /\ Qabs (s - s') < 1 # 10000 /\ pr = pr' /\
  Qabs (budget - budget') < 1 # 1000.
Proof.
  intros R. forall_inv.
  unfold cornerProfileCacheKey, join.
  cbn [String.concat in_cornerRadius in_cornerSmoothing in_preserveSmoothing
       in_roundingAndSmoothingBudget].
  change "|"%string with (String "|" ""). cbn [append].
  intros E. split_key E.
  repeat match goal with
         | |- _ /\ _ => split
         | |- _ < 1 # 1000 => now apply toFixed_3_close
         | |- _ < 1 # 10000 => now apply toFixed_4_close
         | |- _ = _ => assumption
         end.
Qed.


(** A prop that is absent or any number but [+Infinity]. *)
Definition not_PInf (o : option number) : bool :=
  match o with Some PInf => false | _ => true end.

Lemma sanitizeRadius_finite (value : option number) :
  not_PInf value = true -> opt_nonnegb (sanitizeRadius value) = true.
Proof.
  destruct value as [[q| | |]|]; simpl; try discriminate; try reflexivity.
  intros _. destruct (Qle_bool 0 q) eqn:E; simpl; [exact E | reflexivity].
Qed.

(** X24.  [normalizeSquircleParams] makes the options valid for the
    backdrop: when [smoothFactor] is a finite number and no radius and no
    border width is [+Infinity], it returns options made of finite numbers
    only, with radii and border width [>= 0] and a smoothing factor of
    [[0, 1]].  Negative values, [-Infinity] and NaN are all repaired. *)
Theorem normalizeSquircleParams_valid (raw : RoundedSurfaceOptions) (s : number) :
  rs_smoothFactor raw = Some s -> is_finite s = true ->
  not_PInf (rs_baseRadius raw) = true ->
  not_PInf (rs_borderWidth raw) = true ->
  not_PInf (rs_topLeftRadius raw) = true ->
  not_PInf (rs_topRightRadius raw) = true ->
  not_PInf (rs_bottomRightRadius raw) = true ->
  not_PInf (rs_bottomLeftRadius raw) = true ->
  exists n,
    normalizeSquircleParams (Some raw) = Returned n /\ valid_params n = true.
Proof.
  intros S F B W TL TR BR BL. cbn [normalizeSquircleParams].
  pose proof (normalizeSmoothFactor_facts (rs_smoothFactor raw)) as N.
  rewrite S in *.
  destruct (normalizeSmoothFactor (Some s)) as [s'|e].
  - destruct N as (U & _). eexists. split; [reflexivity|].
    unfold valid_params.
    cbn [baseRadius borderWidth topLeftRadius topRightRadius
         bottomRightRadius bottomLeftRadius smoothFactor].
    assert (D : forall value, not_PInf value = true ->
                nonnegb (nullish (sanitizeRadius value) zero) = true).
    { intros value P. pose proof (sanitizeRadius_finite value P) as K.
      destruct (sanitizeRadius value); [exact K | reflexivity]. }
    rewrite (D _ B), (D _ W), U, !sanitizeRadius_finite by assumption.
    reflexivity.
  - destruct N as (_ & N). specialize (N s eq_refl). congruence.
Qed.

(** * The returned path and the arc of a patch *)

(** X25.  [buildSquirclePath] never returns the empty string, whatever the
    request (NaN and infinities included) and whatever the caches hold: a
    cached string is only served when it is not empty, and both the
    rectangle and the assembled path start with a literal [M]. *)
Theorem path_never_empty (sinQ cosQ tanQ : Q -> Q) (st : Caches)
  (i : SquirclePathInput) :
  String.eqb (fst (buildSquirclePath sinQ cosQ tanQ st i)) "" = false.
Proof.
  destruct (cached_hit (readCachedPath (PATH_CACHE_MAP st) (requestCacheKey i)))
    as [cached|] eqn:E.
  - rewrite (buildSquirclePath_hit _ _ _ _ _ _ E). cbn [fst].
    unfold cached_hit in E.
    destruct (readCachedPath (PATH_CACHE_MAP st) (requestCacheKey i)) as [s|];
      [|discriminate].
    destruct (String.eqb s "") eqn:N; [discriminate|]. now injection E as <-.
  - rewrite (buildSquirclePath_miss _ _ _ _ _ E). apply computedPath_nonempty.
Qed.

(** X26.  The arc of a patch stays within a quarter circle.  For a
    smoothing factor of [[0, 1]] and a radius [0 < r <= budget] (what the
    normalizer and the fast path hand over), the smoothing in effect lies
    between 0 and the requested one, is the requested one under the
    preserve flag, and the arc measures [90 * (1 - smoothing)] degrees,
    between 0 and 90. *)
Theorem arc_within_quarter_circle (r s budget : Q) (preserve : bool) :
  0 <= s <= 1 -> 0 < r <= budget ->
  let i := {| in_cornerRadius := Fin r; in_cornerSmoothing := Fin s;
              in_preserveSmoothing := preserve;
              in_roundingAndSmoothingBudget := Fin budget |} in
  exists smoothing arc,
    fittedSmoothing i = Fin smoothing /\ arcMeasure i = Fin arc /\
    0 <= smoothing <= s /\ (preserve = true -> smoothing = s) /\
    arc == 90 * (1 - smoothing) /\ 0 <= arc <= 90.
Proof.
  intros S R i.
  assert (F : exists smoothing,
             fittedSmoothing i = Fin smoothing /\ 0 <= smoothing <= s /\
             (preserve = true -> smoothing = s)).
  { unfold fittedSmoothing, i.
    cbn [in_cornerRadius in_cornerSmoothing in_preserveSmoothing
         in_roundingAndSmoothingBudget].
    destruct preserve; cbn [negb].
    - exists s. split; [reflexivity|]. split; [lra | reflexivity].
    - simpl. rewrite Qeq_bool_neq by lra. simpl.
      pose proof (Qdiv_cancel budget r (proj1 R)) as D.
      set (ratio := budget / r) in *. clearbody ratio.
      assert (1 <= ratio) by nra.
      destruct (Qle_bool s (ratio + - (1))) eqn:C; qbool;
        eexists; (split; [reflexivity|]); (split; [lra | discriminate]). }
  destruct F as (smoothing & E & B & P).
  exists smoothing. unfold arcMeasure. rewrite E. simpl.
  eexists. split; [reflexivity|]. split; [reflexivity|].
  split; [exact B|]. split; [exact P|].
  unfold inject_Z. split; [ring|]. split; lra.
Qed.

(** * The added properties on concrete inputs *)

Module Coverage.

(** A path cache at its limit: 160 entries under the keys 0 to 159. *)
Definition laterEntries : JsMap.t string :=
  map (fun n => (digits (Z.of_nat n), "M 0 0 Z")) (seq 1 159).

Lemma storeCachedPath_evicts_oldest_witness :
  storeCachedPath (("0", "M 0 0 Z") :: laterEntries) "160" "M 1 0 Z"
  = (laterEntries ++ [("160", "M 1 0 Z")])%list.
Proof.
  apply storeCachedPath_evicts_oldest;
    [apply Nat.leb_le; vm_compute; reflexivity | vm_compute; reflexivity].
Defined.

Lemma storeCachedPath_keeps_others_witness :
  readCachedPath (storeCachedPath [("a", "M 0 0 Z")] "b" "M 1 0 Z") "a"
  = readCachedPath [("a", "M 0 0 Z")] "a".
Proof.
  apply storeCachedPath_keeps_others;
    [left; apply Nat.ltb_lt; vm_compute; reflexivity | discriminate].
Defined.

(** The caches after the regression test of the repository. *)
Definition afterOneCorner : Caches := snd (Host.build no_caches Examples.oneCorner).

(** The patch of its rounded corner, and the key it is cached under. *)
Definition roundedCorner : BezierPatchInput := smoothingInput 40 100 (6 # 10).

Lemma profile_cache_keeps_entries_witness :
  JsMap.get
    (CORNER_PROFILE_CACHE
       (snd (buildSquirclePath Host.sinQ Host.cosQ Host.tanQ
               afterOneCorner Examples.mixedCorners)))
    (cornerProfileCacheKey roundedCorner)
  = Some (Host.geometry roundedCorner).
Proof.
  apply profile_cache_keeps_entries. vm_compute. reflexivity.
Defined.

(** Two patch inputs whose radii differ below the third decimal. *)
Definition radius40 : BezierPatchInput := smoothingInput 40 50 (6 # 10).
Definition radius40_0001 : BezierPatchInput :=
  smoothingInput (400001 # 10000) 50 (6 # 10).

Lemma computeCornerProfile_same_key_witness :
  computeCornerProfile Host.sinQ Host.cosQ Host.tanQ
    (snd (computeCornerProfile Host.sinQ Host.cosQ Host.tanQ [] radius40))
    radius40_0001
  = (fst (computeCornerProfile Host.sinQ Host.cosQ Host.tanQ [] radius40),
     snd (computeCornerProfile Host.sinQ Host.cosQ Host.tanQ [] radius40)).
Proof.
  apply computeCornerProfile_same_key. vm_compute. reflexivity.
Defined.

Lemma composeCacheKey_injective_witness :
  toFixed 2 (Fin (100001 # 1000)) = toFixed 2 (Fin (100004 # 1000)) /\
  toFixed 2 (Fin 100) = toFixed 2 (Fin 100) /\
  toFixed 4 (Fin (6 # 10)) = toFixed 4 (Fin (6 # 10)) /\
  false = false /\
  toFixed 2 zero = toFixed 2 zero /\
  toFixed 2 zero = toFixed 2 zero /\ toFixed 2 zero = toFixed 2 zero /\
  toFixed 2 zero = toFixed 2 zero /\ toFixed 2 zero = toFixed 2 zero.
Proof.
  apply (composeCacheKey_injective
           (Fin (100001 # 1000)) (Fin 100) (Fin (6 # 10)) false
           zero zero zero zero zero
           (Fin (100004 # 1000)) (Fin 100) (Fin (6 # 10)) false
           zero zero zero zero zero).
  vm_compute. reflexivity.
Defined.

Lemma cornerProfileCacheKey_injective_witness :
  toFixed 3 (in_cornerRadius radius40)
  = toFixed 3 (in_cornerRadius radius40_0001) /\
  toFixed 4 (in_cornerSmoothing radius40)
  = toFixed 4 (in_cornerSmoothing radius40_0001) /\
  in_preserveSmoothing radius40 = in_preserveSmoothing radius40_0001 /\
  toFixed 3 (in_roundingAndSmoothingBudget radius40)
  = toFixed 3 (in_roundingAndSmoothingBudget radius40_0001).
Proof.
  apply cornerProfileCacheKey_injective. vm_compute. reflexivity.
Defined.

Definition requestedEntries : list (CornerId * number) :=
  [(topLeft, Fin 10); (topRight, Fin 30); (bottomLeft, Fin 10);
   (bottomRight, Fin 20)].

Lemma sort_by_radius_descending_stable_witness :
  Permutation requestedEntries (sort_by_radius requestedEntries) /\
  StronglySorted entry_radius_ge (sort_by_radius requestedEntries) /\
  forall r : number,
    filter (fun e => (snd e =? r)%num) (sort_by_radius requestedEntries)
    = filter (fun e => (snd e =? r)%num) requestedEntries.
Proof.
  apply sort_by_radius_descending_stable. repeat constructor.
Defined.

(** Radii too large for a 100 by 60 box. *)
Definition crowded : CornerSpreadInput :=
  {| cs_topLeftCornerRadius := Fin 40; cs_topRightCornerRadius := Fin 40;
     cs_bottomRightCornerRadius := Fin 80; cs_bottomLeftCornerRadius := Fin 10;
     cs_width := Fin 100; cs_height := Fin 60 |}.


(** Radii that fit a 100 by 60 box. *)
Definition roomy : CornerSpreadInput :=
  {| cs_topLeftCornerRadius := Fin 10; cs_topRightCornerRadius := Fin 20;
     cs_bottomRightCornerRadius := Fin 30; cs_bottomLeftCornerRadius := Fin 5;
     cs_width := Fin 100; cs_height := Fin 60 |}.


Definition allForty : CornerSpreadInput :=
  {| cs_topLeftCornerRadius := Fin 40; cs_topRightCornerRadius := Fin 40;
     cs_bottomRightCornerRadius := Fin 40; cs_bottomLeftCornerRadius := Fin 40;
     cs_width := Fin 100; cs_height := Fin 60 |}.



Lemma clamp_within_range_witness :
  (zero <=? clamp (Fin 2) zero one)%num = true /\
  (clamp (Fin 2) zero one <=? one)%num = true /\
  ((zero <=? Fin 2)%num = true -> (Fin 2 <=? one)%num = true ->
   (clamp (Fin 2) zero one =? Fin 2)%num = true) /\
  ((Fin 2 <=? zero)%num = true -> (clamp (Fin 2) zero one =? zero)%num = true) /\
  ((one <=? Fin 2)%num = true -> (clamp (Fin 2) zero one =? one)%num = true).
Proof.
  apply clamp_within_range; reflexivity.
Defined.

(** Props with a base radius, one corner of its own and a border. *)
Definition cardProps : RoundedSurfaceOptions :=
  {| rs_baseRadius := Some (Fin 24);
     rs_topLeftRadius := Some (Fin 8);
     rs_topRightRadius := None;
     rs_bottomRightRadius := None;
     rs_bottomLeftRadius := Some zero;
     rs_smoothFactor := Some (Fin (6 # 10));
     rs_surfaceColor := Some "#fff";
     rs_borderColor := None;
     rs_borderWidth := Some (Fin 12) |}.

Definition card : NormalizedRoundedSurfaceOptions :=
  {| baseRadius := Fin 24;
     topLeftRadius := Some (Fin 8);
     topRightRadius := None;
     bottomRightRadius := None;
     bottomLeftRadius := Some zero;
     smoothFactor := Fin (6 # 10);
     surfaceColor := "#fff";
     borderColor := "#000";
     borderWidth := Fin 12 |}.

Definition cardFrame : MeasuredFrame :=
  {| frame_width := Fin 100; frame_height := Fin 60 |}.

Lemma normalizeSquircleParams_keeps_valid_witness :
  exists n,
    normalizeSquircleParams (Some cardProps) = Returned n /\
    baseRadius n = nullish (rs_baseRadius cardProps) zero /\
    borderWidth n = nullish (rs_borderWidth cardProps) zero /\
    topLeftRadius n = rs_topLeftRadius cardProps /\
    topRightRadius n = rs_topRightRadius cardProps /\
    bottomRightRadius n = rs_bottomRightRadius cardProps /\
    bottomLeftRadius n = rs_bottomLeftRadius cardProps /\
    (smoothFactor n =? Fin (6 # 10))%num = true /\
    surfaceColor n = nullish (rs_surfaceColor cardProps) "#000" /\
    borderColor n = nullish (rs_borderColor cardProps) "#000".
Proof.
  apply normalizeSquircleParams_keeps_valid; reflexivity.
Defined.

Lemma clampedStrokeWidth_bounds_witness :
  (zero <=? clampedStrokeWidth card)%num = true /\
  (clampedStrokeWidth card <=? Math_max zero (borderWidth card))%num = true /\
  (forall r, In (Some r) (backdropRadii card) -> (r >? zero)%num = true ->
             (clampedStrokeWidth card <=? r)%num = true) /\
  (clampedStrokeWidth card <=? zero)%num = (borderWidth card <=? zero)%num.
Proof.
  apply clampedStrokeWidth_bounds. reflexivity.
Defined.

Lemma backdropGeometry_outcomes_witness :
  backdropGeometry Host.sinQ Host.cosQ Host.tanQ no_caches (Some cardFrame) card
  = let built :=
      buildSquirclePath Host.sinQ Host.cosQ Host.tanQ no_caches
        (insetRequest (Fin 100) (Fin 60) card) in
    ({| bg_path := Some (fst built);
        insetAmount := (clampedStrokeWidth card / num 2)%num;
        renderedStrokeWidth := clampedStrokeWidth card |}, snd built).
Proof.
  apply (backdropGeometry_outcomes Host.sinQ Host.cosQ Host.tanQ no_caches
           (Some cardFrame) card).
  reflexivity.
Defined.

Lemma backdrop_never_draws_NaN_witness :
  valid_input (baseRequest (Fin 100) (Fin 60) card) = true /\
  valid_input (insetRequest (Fin 100) (Fin 60) card) = true /\
  (exists path,
      bg_path (fst (backdropGeometry Host.sinQ Host.cosQ Host.tanQ no_caches
                      (Some cardFrame) card))
      = Some path /\
      plain_path path = true /\
      contains "NaN" path = false /\ contains "Infinity" path = false) /\
  plain_caches (snd (backdropGeometry Host.sinQ Host.cosQ Host.tanQ no_caches
                       (Some cardFrame) card)).
Proof.
  apply (backdrop_never_draws_NaN Host.sinQ Host.cosQ Host.tanQ no_caches
           100 60 card);
    [reflexivity | lra | lra | reflexivity | reflexivity
    | split; constructor].
Defined.

Lemma inset_keeps_corners_round_witness :
  exists stroke shrunk,
    clampedStrokeWidth card = Fin stroke /\
    shrinkRadius (Some (Fin 8)) (clampedStrokeWidth card / num 2)%num
    = Some (Fin shrunk) /\
    8 / 2 <= shrunk <= 8 /\
    (0 < 8 -> shrunk == 8 - stroke / 2).
Proof.
  apply (inset_keeps_corners_round card 8);
    [reflexivity | right; left; reflexivity | lra].
Defined.

Lemma same_path_key_close_witness :
  Qabs ((100001 # 1000) - (100004 # 1000)) < 1 # 100 /\
  Qabs (100 - 100) < 1 # 100 /\
  Qabs ((6 # 10) - (6 # 10)) < 1 # 10000 /\ false = false /\
  Qabs (0 - 0) < 1 # 100 /\
  Qabs (0 - 0) < 1 # 100 /\ Qabs (0 - 0) < 1 # 100 /\
  Qabs (0 - 0) < 1 # 100 /\ Qabs (0 - 0) < 1 # 100.
Proof.
  apply (same_path_key_close
           (100001 # 1000) 100 (6 # 10) 0 0 0 0 0
           (100004 # 1000) 100 (6 # 10) 0 0 0 0 0 false false).
  - repeat (constructor; [split; [lra | reflexivity] |]). constructor.
  - vm_compute. reflexivity.
Defined.

Lemma same_profile_key_close_witness :
  Qabs (40 - (400001 # 10000)) < 1 # 1000 /\
  Qabs ((6 # 10) - (6 # 10)) < 1 # 10000 /\ false = false /\
  Qabs (50 - 50) < 1 # 1000.
Proof.
  apply (same_profile_key_close 40 (6 # 10) 50 (400001 # 10000) (6 # 10) 50
           false false).
  - repeat (constructor; [split; [lra | reflexivity] |]). constructor.
  - vm_compute. reflexivity.
Defined.


(** Props in need of repair: a negative radius, NaN, [-Infinity] and a
    smoothing factor above 1. *)
Definition messyProps : RoundedSurfaceOptions :=
  {| rs_baseRadius := Some (Fin (-3));
     rs_topLeftRadius := Some NaN;
     rs_topRightRadius := Some NInf;
     rs_bottomRightRadius := None;
     rs_bottomLeftRadius := Some (Fin 12);
     rs_smoothFactor := Some (Fin 2);
     rs_surfaceColor := None;
     rs_borderColor := None;
     rs_borderWidth := Some NaN |}.

Lemma normalizeSquircleParams_valid_witness :
  exists n,
    normalizeSquircleParams (Some messyProps) = Returned n /\
    valid_params n = true.
Proof.
  apply (normalizeSquircleParams_valid messyProps (Fin 2)); reflexivity.
Defined.

Lemma arc_within_quarter_circle_witness :
  exists smoothing arc,
    fittedSmoothing radius40 = Fin smoothing /\
    arcMeasure radius40 = Fin arc /\
    0 <= smoothing <= 6 # 10 /\ (false = true -> smoothing = 6 # 10) /\
    arc == 90 * (1 - smoothing) /\ 0 <= arc <= 90.
Proof.
  apply (arc_within_quarter_circle 40 (6 # 10) 50 false); split; lra.
Defined.

End Coverage.
